(** * tool-kit/goroutine: the concurrency-safety toolkit

    A shallow embedding of the Go package [goroutine] (safe executor,
    worker pool, circuit breaker, rate limiter, retry with backoff) and
    the properties its specification states about it.

    Conventions.
    - Go's [int], [int64] and [time.Duration] are 64-bit two's-complement
      integers: they are modelled as [Z] and every arithmetic operation
      goes through [Int64.wrap].
    - A point in time ([time.Time]) is a [Z] counting nanoseconds.
    - A call that may panic returns an [outcome].
    - Goroutines are modelled by their atomic (lock-protected) steps and
      a scheduler that interleaves them. *)

From Stdlib Require Import ZArith Lia Bool String Ascii List.
Import ListNotations.
Open Scope Z_scope.

(** * Part I: the model *)

(** ** Machine integers *)

Module Int64.

Definition min_int : Z := - 2 ^ 63.
Definition max_int : Z := 2 ^ 63 - 1.
Definition modulus : Z := 2 ^ 64.

Definition in_range (x : Z) : Prop := min_int <= x <= max_int.

(** Two's-complement reduction of a mathematical integer. *)
Definition wrap (x : Z) : Z := (x + 2 ^ 63) mod modulus - 2 ^ 63.

Definition add (x y : Z) : Z := wrap (x + y).
Definition sub (x y : Z) : Z := wrap (x - y).
Definition mul (x y : Z) : Z := wrap (x * y).
(** Go's [/] truncates towards zero; the caller rules out a zero divisor. *)
Definition quot (x y : Z) : Z := wrap (Z.quot x y).

(** [time.Time.Sub] does not wrap: it saturates. *)
Definition saturate (x : Z) : Z :=
  if x <? min_int then min_int else if max_int <? x then max_int else x.

End Int64.

(** ** Values, panics and outcomes *)

(** The dynamic values that reach [panic] and [recover] ([interface{}]). *)
Inductive value : Type :=
| VNil
| VString (s : string)
| VError (msg : string)
| VPanicNilError
| VRuntimeError (msg : string).

(** A Go [error] value, [nil] included. An error built by [fmt.Errorf]
    with one [%d] and one [%w] verb keeps the number and the error it
    wraps. *)
Inductive error : Type :=
| ErrNil
| ErrNew (msg : string)
| Errorf (format : string) (n : Z) (wrapped : error).

Definition is_nil (e : error) : bool :=
  match e with ErrNil => true | _ => false end.

Inductive outcome (A : Type) : Type :=
| Returns (a : A)
| Panics (v : value).
Arguments Returns {A} a.
Arguments Panics {A} v.

(** [time.Duration] constants. *)
Definition Nanosecond : Z := 1.
Definition Millisecond : Z := 1000000.
Definition Second : Z := 1000000000.

(** ** Backoff strategies *)

Module FixedBackoff.

Record t : Type := { Delay : Z }.

Definition GetDelay (b : t) (attempt : Z) : Z := Delay b.

End FixedBackoff.

Module ExponentialBackoff.

Record t : Type := { BaseDelay : Z; MaxDelay : Z }.

(** One iteration of the loop body: [delay *= 2], then the cap. *)
Definition double_capped (b : t) (delay : Z) : Z :=
  let delay := Int64.mul delay 2 in
  if delay >? MaxDelay b then MaxDelay b else delay.

(** [for i := 0; i < attempt; i++ { ... }] with [n] iterations left. *)
Fixpoint loop (b : t) (n : nat) (delay : Z) : Z :=
  match n with
  | O => delay
  | S n' => loop b n' (double_capped b delay)
  end.

Definition GetDelay (b : t) (attempt : Z) : Z :=
  loop b (Z.to_nat attempt) (BaseDelay b).

End ExponentialBackoff.

Module LinearBackoff.

Record t : Type := { BaseDelay : Z; MaxDelay : Z }.

Definition GetDelay (b : t) (attempt : Z) : Z :=
  let delay := Int64.mul (BaseDelay b) (Int64.add attempt 1) in
  if delay >? MaxDelay b then MaxDelay b else delay.

End LinearBackoff.

(** The [BackoffStrategy] interface and its three implementations. *)
Inductive BackoffStrategy : Type :=
| Fixed (b : FixedBackoff.t)
| Exponential (b : ExponentialBackoff.t)
| Linear (b : LinearBackoff.t).

Definition GetDelay (b : BackoffStrategy) (attempt : Z) : Z :=
  match b with
  | Fixed b => FixedBackoff.GetDelay b attempt
  | Exponential b => ExponentialBackoff.GetDelay b attempt
  | Linear b => LinearBackoff.GetDelay b attempt
  end.

(** ** Sequential Go code: state, panics and observable events *)

Module GoM.

(** What a caller can observe of a run: each invocation of the wrapped
    function with what it produced, and each [time.Sleep]. *)
Inductive event : Type :=
| EvCall (o : outcome error)
| EvSleep (d : Z).

(** A computation over the program state [St]: its outcome, the state
    it leaves (also when it panics) and the events it emitted. *)
Definition M (St A : Type) : Type := St -> outcome A * St * list event.

Definition ret {St A : Type} (a : A) : M St A :=
  fun s => (Returns a, s, []).

Definition bind {St A B : Type} (m : M St A) (k : A -> M St B) : M St B :=
  fun s =>
    match m s with
    | (Returns a, s1, t1) =>
        let '(o, s2, t2) := k a s1 in (o, s2, t1 ++ t2)
    | (Panics v, s1, t1) => (Panics v, s1, t1)
    end.

Definition gets {St A : Type} (f : St -> A) : M St A :=
  fun s => (Returns (f s), s, []).

Definition modify {St : Type} (f : St -> St) : M St unit :=
  fun s => (Returns tt, f s, []).

Definition sleep {St : Type} (d : Z) : M St unit :=
  fun s => (Returns tt, s, [EvSleep d]).

(** Calling a function value [fn func() error]: the closure runs on the
    program state and either returns an error value or panics. *)
Definition call {St : Type} (fn : St -> outcome error * St) : M St error :=
  fun s => let (o, s') := fn s in (o, s', [EvCall o]).

Definition calls (t : list event) : list (outcome error) :=
  flat_map (fun e => match e with EvCall o => [o] | EvSleep _ => [] end) t.

Definition sleeps (t : list event) : list Z :=
  flat_map (fun e => match e with EvSleep d => [d] | EvCall _ => [] end) t.

End GoM.

Declare Scope gom_scope.
Delimit Scope gom_scope with gom.
Notation "x <- m ;; k" := (GoM.bind m (fun x => k))
  (at level 61, m at next level, right associativity) : gom_scope.
Notation "m ;;; k" := (GoM.bind m (fun _ => k))
  (at level 61, right associativity) : gom_scope.

(** ** Retry *)

Module Retry.

Import GoM.
Local Open Scope gom_scope.

(** The [executor] field only matters to [ExecuteAsync] and is left out. *)
Record t : Type := {
  maxAttempts : Z;
  delay : Z;
  backoff : BackoffStrategy
}.

Definition NewRetry (maxAttempts delay : Z) (backoff : option BackoffStrategy) : t :=
  {| maxAttempts := maxAttempts;
     delay := delay;
     backoff := match backoff with
                | Some b => b
                | None => Fixed {| FixedBackoff.Delay := delay |}
                end |}.

Definition retry_failed : string := "retry failed after %d attempts: %w".

Section Execute.

Context {St : Type}.
Variable r : t.
Variable fn : St -> outcome error * St.

(** The body of [for attempt := 0; attempt < r.maxAttempts; attempt++],
    with [n] iterations left. *)
Fixpoint attempts (n : nat) (attempt : Z) (lastErr : error) : M St error :=
  match n with
  | O => ret (Errorf retry_failed (maxAttempts r) lastErr)
  | S n' =>
      err <- call fn ;;
      if is_nil err then ret ErrNil
      else
        (if attempt <? Int64.sub (maxAttempts r) 1
         then sleep (GetDelay (backoff r) attempt)
         else ret tt) ;;;
        attempts n' (Int64.add attempt 1) err
  end.

Definition Execute : M St error :=
  attempts (Z.to_nat (maxAttempts r)) 0 ErrNil.

End Execute.

End Retry.

(** ** Circuit breaker *)

Module CircuitBreaker.

Import GoM.
Local Open Scope gom_scope.

Inductive CircuitState : Type := StateClosed | StateOpen | StateHalfOpen.

Definition state_eqb (a b : CircuitState) : bool :=
  match a, b with
  | StateClosed, StateClosed | StateOpen, StateOpen
  | StateHalfOpen, StateHalfOpen => true
  | _, _ => false
  end.

Record t : Type := {
  failureCount : Z;
  successCount : Z;
  maxFailures : Z;
  resetTimeout : Z;
  state : CircuitState;
  lastFailureTime : Z
}.

(** The zero [time.Time] (1 January of year 1) in Unix nanoseconds. *)
Definition zero_Time : Z := -62135596800 * Second.

Definition NewCircuitBreaker (maxFailures resetTimeout : Z) : t :=
  {| failureCount := 0;
     successCount := 0;
     maxFailures := maxFailures;
     resetTimeout := resetTimeout;
     state := StateClosed;
     lastFailureTime := zero_Time |}.

Definition set_state (s : CircuitState) (cb : t) : t :=
  {| failureCount := failureCount cb;
     successCount := successCount cb;
     maxFailures := maxFailures cb;
     resetTimeout := resetTimeout cb;
     state := s;
     lastFailureTime := lastFailureTime cb |}.

(** The locked update after a failed call. *)
Definition record_failure (now : Z) (cb : t) : t :=
  let failures := Int64.add (failureCount cb) 1 in
  {| failureCount := failures;
     successCount := successCount cb;
     maxFailures := maxFailures cb;
     resetTimeout := resetTimeout cb;
     state := if failures >=? maxFailures cb then StateOpen else state cb;
     lastFailureTime := now |}.

(** The locked update after a successful call. *)
Definition record_success (cb : t) : t :=
  let half := state_eqb (state cb) StateHalfOpen in
  {| failureCount := if half then 0 else failureCount cb;
     successCount := Int64.add (successCount cb) 1;
     maxFailures := maxFailures cb;
     resetTimeout := resetTimeout cb;
     state := if half then StateClosed else state cb;
     lastFailureTime := lastFailureTime cb |}.

Definition Reset (cb : t) : t :=
  {| failureCount := 0;
     successCount := 0;
     maxFailures := maxFailures cb;
     resetTimeout := resetTimeout cb;
     state := StateClosed;
     lastFailureTime := lastFailureTime cb |}.

Definition GetState (cb : t) : CircuitState := state cb.

Definition GetStats (cb : t) : Z * Z := (failureCount cb, successCount cb).

Definition circuit_open : error := ErrNew "circuit breaker is open".

Section Execute.

(** The program in which the breaker lives: [U] is the part of its state
    the wrapped function works on, [clock] what [time.Now] reads there. *)
Context {U : Type}.
Variable clock : U -> Z.

Record world : Type := { breaker : t; user : U }.

Definition on_breaker (f : t -> t) (w : world) : world :=
  {| breaker := f (breaker w); user := user w |}.

(** The wrapped function runs on the user part only. *)
Definition on_user (fn : U -> outcome error * U) (w : world)
  : outcome error * world :=
  let (o, u) := fn (user w) in (o, {| breaker := breaker w; user := u |}).

Definition time_Now : M world Z := gets (fun w => clock (user w)).

(** [time.Since t]: the saturated difference. *)
Definition time_Since (t0 : Z) : M world Z :=
  now <- time_Now ;; ret (Int64.saturate (now - t0)).

(** The [switch state] at the head of [Execute]: whether the call goes
    through. *)
Definition check_state : M world bool :=
  st <- gets (fun w => state (breaker w)) ;;
  match st with
  | StateOpen =>
      last <- gets (fun w => lastFailureTime (breaker w)) ;;
      timeout <- gets (fun w => resetTimeout (breaker w)) ;;
      elapsed <- time_Since last ;;
      if elapsed >? timeout
      then modify (on_breaker (set_state StateHalfOpen)) ;;; ret true
      else ret false
  | StateHalfOpen => ret true
  | StateClosed => ret true
  end.

(** The call itself and the locked bookkeeping that follows it. *)
Definition attempt (fn : U -> outcome error * U) : M world error :=
  err <- call (on_user fn) ;;
  (if is_nil err
   then modify (on_breaker record_success)
   else now <- time_Now ;; modify (on_breaker (record_failure now))) ;;;
  ret err.

Definition Execute (fn : U -> outcome error * U) : M world error :=
  ok <- check_state ;;
  if ok then attempt fn else ret circuit_open.

(** What a single caller does with the breaker, one call after the
    other; a panic of the wrapped function reaches the caller, who may
    go on using the breaker. Between two calls the caller does other
    things, during which time passes ([OpCaller]). *)
Inductive op : Type :=
| OpExecute (fn : U -> outcome error * U)
| OpReset
| OpCaller (f : U -> U).

Definition do_op (o : op) (w : world) : world * list event :=
  match o with
  | OpExecute fn => let '(_, w', t) := Execute fn w in (w', t)
  | OpReset => (on_breaker Reset w, [])
  | OpCaller f => ({| breaker := breaker w; user := f (user w) |}, [])
  end.

Fixpoint run (ops : list op) (w : world) : world * list event :=
  match ops with
  | [] => (w, [])
  | o :: ops' =>
      let (w1, t1) := do_op o w in
      let (w2, t2) := run ops' w1 in
      (w2, t1 ++ t2)
  end.

End Execute.

Arguments world : clear implicits.

End CircuitBreaker.

(** *** Vocabulary for statements about [Retry.Execute] *)

Module RetrySpec.

Import GoM.

(** The wrapped function fails at every invocation, whatever the state. *)
Definition always_fails {St : Type} (fn : St -> outcome error * St) : Prop :=
  forall s, exists e s', fn s = (Returns e, s') /\ is_nil e = false.

(** Failed attempts with a sleep between each two consecutive ones, the
    first sleep being the one of attempt index [attempt]. *)
Fixpoint failed_attempts (b : BackoffStrategy) (errs : list error) (attempt : Z)
  : list event :=
  match errs with
  | [] => []
  | e :: rest =>
      EvCall (Returns e) ::
      match rest with
      | [] => []
      | _ :: _ => EvSleep (GetDelay b attempt) :: failed_attempts b rest (attempt + 1)
      end
  end.

End RetrySpec.

(** *** Vocabulary for statements about the circuit breaker *)

Module CircuitSpec.

Import GoM.

Definition failed (o : outcome error) : bool :=
  match o with
  | Returns e => negb (is_nil e)
  | Panics _ => false
  end.

(** How many invocations returned a non-nil error. *)
Definition failures (t : list event) : Z :=
  Z.of_nat (length (filter failed (calls t))).

(** The longest run of consecutive failed invocations: [cur] is the run
    in progress, [best] the longest seen. *)
Fixpoint longest_run (os : list (outcome error)) (cur best : Z) : Z :=
  match os with
  | [] => Z.max cur best
  | o :: os' =>
      if failed o then longest_run os' (cur + 1) best
      else longest_run os' 0 (Z.max cur best)
  end.

Definition longest_failure_run (t : list event) : Z :=
  longest_run (calls t) 0 0.

(** What holds of a breaker that has served at most [n] operations. *)
Definition breaker_inv (n : Z) (cb : CircuitBreaker.t) : Prop :=
  0 <= CircuitBreaker.failureCount cb <= n
  /\ (CircuitBreaker.state cb <> CircuitBreaker.StateClosed ->
      CircuitBreaker.maxFailures cb <= CircuitBreaker.failureCount cb).

End CircuitSpec.

(** *** Programs used in the examples *)

(** The state is the number of invocations so far, which is also what
    the clock reads, in milliseconds. *)
Definition tick_clock (s : nat) : Z := Z.of_nat s * Millisecond.

(** Counts its invocations and fails until [failures] of them happened. *)
Definition flaky (failures : nat) (s : nat) : outcome error * nat :=
  (Returns (if (s <? failures)%nat then ErrNew "boom" else ErrNil), S s).

Definition failing (s : nat) : outcome error * nat :=
  (Returns (ErrNew "boom"), S s).

Definition succeeding (s : nat) : outcome error * nat :=
  (Returns ErrNil, S s).

(** Takes [d] milliseconds and succeeds. *)
Definition slow_success (d : nat) (s : nat) : outcome error * nat :=
  (Returns ErrNil, (s + d)%nat).

(** ** Channels *)

(** A Go channel as far as this package uses one: the buffer, its
    capacity, whether the channel is closed, and how many goroutines are
    parked in a receive on it. No goroutine ever parks in a send on the
    channels of this package: they are only sent to inside a [select]
    with a [default], or while there is room. *)
Module Chan.

Section Chan.

Context {A : Type}.

Record t : Type := {
  buf : list A;
  cap : nat;
  closed : bool;
  recvq : nat
}.

Definition make (n : nat) : t :=
  {| buf := []; cap := n; closed := false; recvq := 0 |}.

(** [len(c)] *)
Definition len (c : t) : Z := Z.of_nat (length (buf c)).

Definition well_formed (c : t) : Prop :=
  (length (buf c) <= cap c)%nat
  /\ ((0 < recvq c)%nat -> buf c = [] /\ closed c = false).

(** A send that does not park ([select { case c <- v: ... default: ... }]):
    the value is handed to a parked receiver if there is one, else
    appended to the buffer if there is room. *)
Inductive send_result : Type :=
| Sent (c' : t) (handed_over : bool)
| SendWouldBlock
| SendOnClosed.

Definition try_send (c : t) (v : A) : send_result :=
  if closed c then SendOnClosed
  else if (0 <? recvq c)%nat then
    Sent {| buf := buf c; cap := cap c; closed := false;
            recvq := Nat.pred (recvq c) |} true
  else if (length (buf c) <? cap c)%nat then
    Sent {| buf := buf c ++ [v]; cap := cap c; closed := false;
            recvq := recvq c |} false
  else SendWouldBlock.

(** A receive that does not park ([select { case v := <-c: ... default: ... }]).
    A closed and drained channel delivers the zero value ([None]). *)
Inductive recv_result : Type :=
| Received (v : option A) (c' : t)
| RecvWouldBlock.

Definition try_recv (c : t) : recv_result :=
  match buf c with
  | v :: rest =>
      Received (Some v)
        {| buf := rest; cap := cap c; closed := closed c; recvq := recvq c |}
  | [] => if closed c then Received None c else RecvWouldBlock
  end.

(** A goroutine parks in [<-c]. *)
Definition park_receiver (c : t) : t :=
  {| buf := buf c; cap := cap c; closed := closed c; recvq := S (recvq c) |}.

(** [close(c)]: parked receivers are woken up. *)
Definition close (c : t) : outcome t :=
  if closed c then Panics (VRuntimeError "close of closed channel")
  else Returns {| buf := buf c; cap := cap c; closed := true; recvq := 0 |}.

End Chan.

Arguments t : clear implicits.
Arguments send_result : clear implicits.
Arguments recv_result : clear implicits.

End Chan.

Definition send_on_closed : value := VRuntimeError "send on closed channel".

(** ** Rate limiter *)

Module RateLimiter.

(** [ticker] is the period of the refill ticker. The [executor] field
    only starts the refill goroutine, whose iterations are [refill]. *)
Record t : Type := {
  limit : Z;
  interval : Z;
  tokens : Chan.t unit;
  ticker : Z;
  ticker_stopped : bool
}.

(** What a constructor call can come to. The initial fill sends with a
    plain [rl.tokens <- struct{}{}], which would park for ever on a full
    channel. *)
Inductive created : Type :=
| Created (rl : t)
| CreatePanics (v : value)
| CreateParks.

(** [for i := 0; i < limit; i++ { rl.tokens <- struct{}{} }], with [n]
    iterations left. *)
Fixpoint fill (n : nat) (c : Chan.t unit) : option (Chan.t unit) :=
  match n with
  | O => Some c
  | S n' =>
      match Chan.try_send c tt with
      | Chan.Sent c' _ => fill n' c'
      | _ => None
      end
  end.

Definition NewRateLimiter (limit interval : Z) : created :=
  if limit <? 0 then CreatePanics (VRuntimeError "makechan: size out of range")
  else
    match fill (Z.to_nat limit) (Chan.make (Z.to_nat limit)) with
    | None => CreateParks
    | Some tokens =>
        if limit =? 0
        then CreatePanics (VRuntimeError "integer divide by zero")
        else
          let period := Int64.quot interval limit in
          if period <=? 0
          then CreatePanics (VError "non-positive interval for NewTicker")
          else Created {| limit := limit; interval := interval;
                          tokens := tokens; ticker := period;
                          ticker_stopped := false |}
    end.

Definition with_tokens (c : Chan.t unit) (rl : t) : t :=
  {| limit := limit rl; interval := interval rl; tokens := c;
     ticker := ticker rl; ticker_stopped := ticker_stopped rl |}.

Definition Allow (rl : t) : bool * t :=
  match Chan.try_recv (tokens rl) with
  | Chan.Received _ c' => (true, with_tokens c' rl)
  | Chan.RecvWouldBlock => (false, rl)
  end.

(** One iteration of the refill goroutine, at a tick. *)
Definition refill (rl : t) : t :=
  match Chan.try_send (tokens rl) tt with
  | Chan.Sent c' _ => with_tokens c' rl
  | _ => rl
  end.

Definition Stop (rl : t) : t :=
  {| limit := limit rl; interval := interval rl; tokens := tokens rl;
     ticker := ticker rl; ticker_stopped := true |}.

Definition GetAvailableTokens (rl : t) : Z := Chan.len (tokens rl).

(** [n] calls of [Allow] in a row, nothing happening in between. *)
Fixpoint allow_times (n : nat) (rl : t) : list bool * t :=
  match n with
  | O => ([], rl)
  | S n' =>
      let (b, rl1) := Allow rl in
      let (bs, rl2) := allow_times n' rl1 in
      (b :: bs, rl2)
  end.

End RateLimiter.

(** ** Worker pool (pool.go) *)

Module Pool.

(** A [SimpleJob]. [Fn] is what running the closure comes to: the error
    it returns, or a panic. *)
Record Job : Type := {
  ID : string;
  Timeout : Z;
  Fn : outcome error
}.

Record PoolStats : Type := {
  TotalJobs : Z;
  CompletedJobs : Z;
  FailedJobs : Z;
  ActiveWorkers : Z;
  QueuedJobs : Z;
  LastJobTime : Z;
  AverageJobTime : Z
}.

Record PoolConfig : Type := {
  MaxWorkers : Z;
  QueueSize : Z;
  WorkerTimeout : Z;
  JobTimeout : Z
}.

Definition DefaultPoolConfig : PoolConfig :=
  {| MaxWorkers := 10;
     QueueSize := 1000;
     WorkerTimeout := 30 * 60 * Second;
     JobTimeout := 5 * 60 * Second |}.

(** The worker channels and the executor are left out: workers show up
    through the events [EvWorkerStart], [EvWorkerExit] and [EvJobDone]. *)
Record t : Type := {
  maxWorkers : Z;
  workerCount : Z;
  jobQueue : Chan.t Job;
  quit : Chan.t bool;
  stats : PoolStats
}.

Definition zero_stats : PoolStats :=
  {| TotalJobs := 0; CompletedJobs := 0; FailedJobs := 0; ActiveWorkers := 0;
     QueuedJobs := 0; LastJobTime := CircuitBreaker.zero_Time;
     AverageJobTime := 0 |}.

(** [make] panics on a negative size; memory limits are not modelled. *)
Definition NewPool (config : option PoolConfig) : outcome t :=
  let config := match config with
                | Some c => c
                | None => DefaultPoolConfig
                end in
  if (QueueSize config <? 0) || (MaxWorkers config <? 0)
  then Panics (VRuntimeError "makechan: size out of range")
  else Returns {| maxWorkers := MaxWorkers config;
                  workerCount := 0;
                  jobQueue := Chan.make (Z.to_nat (QueueSize config));
                  quit := Chan.make 0;
                  stats := zero_stats |}.

Definition ErrPoolFull : error := ErrNew "pool is full".

Definition with_jobQueue (q : Chan.t Job) (p : t) : t :=
  {| maxWorkers := maxWorkers p; workerCount := workerCount p;
     jobQueue := q; quit := quit p; stats := stats p |}.

Definition with_quit (q : Chan.t bool) (p : t) : t :=
  {| maxWorkers := maxWorkers p; workerCount := workerCount p;
     jobQueue := jobQueue p; quit := q; stats := stats p |}.

Definition with_stats (st : PoolStats) (p : t) : t :=
  {| maxWorkers := maxWorkers p; workerCount := workerCount p;
     jobQueue := jobQueue p; quit := quit p; stats := st |}.

Definition Submit (p : t) (job : Job) : outcome error * t :=
  match Chan.try_send (jobQueue p) job with
  | Chan.Sent q _ => (Returns ErrNil, with_jobQueue q p)
  | Chan.SendWouldBlock => (Returns ErrPoolFull, p)
  | Chan.SendOnClosed => (Panics send_on_closed, p)
  end.

Definition SubmitFunc (p : t) (id : string) (fn : outcome error)
  : outcome error * t :=
  Submit p {| ID := id; Timeout := 0; Fn := fn |}.

Definition SubmitWithTimeout (p : t) (id : string) (fn : outcome error)
    (timeout : Z) : outcome error * t :=
  Submit p {| ID := id; Timeout := timeout; Fn := fn |}.

(** The dispatcher takes the next job off the queue ([None] is the nil
    job a closed queue delivers) and updates the statistics; it parks
    when there is nothing to take. *)
Definition dispatch (now : Z) (p : t) : option (option Job * t) :=
  match Chan.try_recv (jobQueue p) with
  | Chan.Received j q =>
      let st := stats p in
      Some (j,
            {| maxWorkers := maxWorkers p; workerCount := workerCount p;
               jobQueue := q; quit := quit p;
               stats :=
                 {| TotalJobs := Int64.add (TotalJobs st) 1;
                    CompletedJobs := CompletedJobs st;
                    FailedJobs := FailedJobs st;
                    ActiveWorkers := ActiveWorkers st;
                    QueuedJobs := Chan.len q;
                    LastJobTime := now;
                    AverageJobTime := AverageJobTime st |} |})
  | Chan.RecvWouldBlock => None
  end.

(** The statistics update of [executeJob], once [job.Execute] has
    returned [err] after [jobTime]. *)
Definition record_job (err : error) (jobTime : Z) (st : PoolStats) : PoolStats :=
  let failed := if is_nil err then FailedJobs st
                else Int64.add (FailedJobs st) 1 in
  let completed := if is_nil err then Int64.add (CompletedJobs st) 1
                   else CompletedJobs st in
  let totalJobs := Int64.add completed failed in
  {| TotalJobs := TotalJobs st;
     CompletedJobs := completed;
     FailedJobs := failed;
     ActiveWorkers := ActiveWorkers st;
     QueuedJobs := QueuedJobs st;
     LastJobTime := LastJobTime st;
     AverageJobTime :=
       if totalJobs >? 0
       then Int64.quot
              (Int64.add (Int64.mul (AverageJobTime st) totalJobs) jobTime)
              (Int64.add totalJobs 1)
       else AverageJobTime st |}.

Definition GetStats (p : t) : PoolStats :=
  let st := stats p in
  {| TotalJobs := TotalJobs st;
     CompletedJobs := CompletedJobs st;
     FailedJobs := FailedJobs st;
     ActiveWorkers := workerCount p;
     QueuedJobs := Chan.len (jobQueue p);
     LastJobTime := LastJobTime st;
     AverageJobTime := AverageJobTime st |}.

(** [Stop] closes [quit] (and sleeps). *)
Definition Stop (p : t) : outcome t :=
  match Chan.close (quit p) with
  | Returns q => Returns (with_quit q p)
  | Panics v => Panics v
  end.

(** [StopGracefully] first closes the job queue, then waits while the
    other goroutines go on, then closes [quit] like [Stop]. *)
Definition StopGracefully_close (p : t) : outcome t :=
  match Chan.close (jobQueue p) with
  | Returns q => Returns (with_jobQueue q p)
  | Panics v => Panics v
  end.

Definition StopGracefully_quit (p : t) : outcome t := Stop p.

Definition worker_delta (d : Z) (p : t) : t :=
  let st := stats p in
  {| maxWorkers := maxWorkers p;
     workerCount := Int64.add (workerCount p) d;
     jobQueue := jobQueue p; quit := quit p;
     stats :=
       {| TotalJobs := TotalJobs st; CompletedJobs := CompletedJobs st;
          FailedJobs := FailedJobs st;
          ActiveWorkers := Int64.add (ActiveWorkers st) d;
          QueuedJobs := QueuedJobs st; LastJobTime := LastJobTime st;
          AverageJobTime := AverageJobTime st |} |}.

(** What the goroutines around a pool do to it, one atomic action at a
    time. *)
Inductive event : Type :=
| EvSubmit (job : Job)
| EvDispatch (now : Z)
| EvDispatcherParks
| EvWorkerStart
| EvWorkerExit
| EvJobDone (err : error) (jobTime : Z)
| EvStop
| EvStopGracefullyClose
| EvStopGracefullyQuit.

Definition or_unchanged (p : t) (o : outcome t) : t :=
  match o with
  | Returns p' => p'
  | Panics _ => p
  end.

(** The pool after an event; a call that panics, or an action that
    cannot take place, leaves it as it is. *)
Definition step (p : t) (e : event) : t :=
  match e with
  | EvSubmit job => snd (Submit p job)
  | EvDispatch now =>
      match dispatch now p with
      | Some (_, p') => p'
      | None => p
      end
  | EvDispatcherParks =>
      match Chan.try_recv (jobQueue p) with
      | Chan.RecvWouldBlock =>
          with_jobQueue (Chan.park_receiver (jobQueue p)) p
      | Chan.Received _ _ => p
      end
  | EvWorkerStart => worker_delta 1 p
  | EvWorkerExit => worker_delta (-1) p
  | EvJobDone err jobTime => with_stats (record_job err jobTime (stats p)) p
  | EvStop => or_unchanged p (Stop p)
  | EvStopGracefullyClose => or_unchanged p (StopGracefully_close p)
  | EvStopGracefullyQuit => or_unchanged p (StopGracefully_quit p)
  end.

Definition run (evs : list event) (p : t) : t := fold_left step evs p.

End Pool.

(** ** Safe executor *)

Module SafeExecutor.

Record Stats : Type := {
  TotalGoroutines : Z;
  ActiveGoroutines : Z;
  PanicCount : Z;
  CompletedCount : Z;
  LastPanicTime : Z;
  LastPanicGoroutine : string
}.

Definition zero_Stats : Stats :=
  {| TotalGoroutines := 0; ActiveGoroutines := 0; PanicCount := 0;
     CompletedCount := 0; LastPanicTime := CircuitBreaker.zero_Time;
     LastPanicGoroutine := "" |}.

(** [func(panicValue interface{}, stack []byte, goroutineID string)]: a
    handler is user code and may itself panic. *)
Definition RecoverHandler : Type := value -> string -> string -> outcome unit.

Definition defaultRecoverHandler : RecoverHandler := fun _ _ _ => Returns tt.

(** What calling the spawned [fn func()] comes to. *)
Inductive behaviour : Type :=
| FnReturns
| FnPanics (v : value).

(** What [recover] yields after [panic(v)]: since Go 1.21 (the module
    asks for 1.23) [panic(nil)] raises a [*runtime.PanicNilError]. *)
Definition raised (v : value) : value :=
  match v with
  | VNil => VPanicNilError
  | _ => v
  end.

Definition value_is_nil (v : value) : bool :=
  match v with VNil => true | _ => false end.

(** [getGoroutineID]: the text of [runtime.Stack] (its first 64 bytes)
    up to the first space, or "unknown" when there is no space. *)
Fixpoint before_space (s : string) : option string :=
  match s with
  | EmptyString => None
  | String c rest =>
      if Ascii.eqb c " "%char then Some EmptyString
      else match before_space rest with
           | Some p => Some (String c p)
           | None => None
           end
  end.

Definition getGoroutineID (stack : string) : string :=
  match before_space (substring 0 64 stack) with
  | Some id => id
  | None => "unknown"
  end.

Inductive log_arg : Type :=
| ArgValue (v : value)
| ArgText (s : string).

(** What a goroutine started by the executor does that others can see:
    the calls it makes and the counters it moves. *)
Inductive event : Type :=
| EvWarnf (format : string)
| EvRan (b : behaviour)
| EvActiveDecremented
| EvCompletedIncremented
| EvPanicIncremented
| EvErrorf (format : string) (arg : log_arg)
| EvHandler (panicValue : value) (stack : string) (goroutineID : string)
            (o : outcome unit).

(** Where a goroutine is in the function literal of [GoWithContext]:
    created; body over and deferred function entered; [ActiveGoroutines]
    decremented; panic counted by [handlePanic]; gone. *)
Inductive pc : Type := Spawned | Deferred | Decremented | Counted | Finished.

(** A goroutine: whether its context is done when the body looks at it,
    what [fn] comes to, the text of its stack trace, the handler captured
    when it was spawned, where it is, and what it has done. *)
Record goroutine : Type := {
  g_ctx_done : bool;
  g_fn : behaviour;
  g_stack : string;
  g_handler : option RecoverHandler;
  g_pc : pc;
  g_events : list event
}.

(** What [recover()] returns in the deferred function. *)
Definition recovered (g : goroutine) : value :=
  if g_ctx_done g then VNil
  else match g_fn g with
       | FnReturns => VNil
       | FnPanics v => raised v
       end.

(** The executor with the goroutines it has started; [crashed] is the
    panic that brought the process down, if one did. *)
Record t : Type := {
  recoverHandler : option RecoverHandler;
  stats : Stats;
  goroutines : list goroutine;
  crashed : option value
}.

Definition NewSafeExecutor : t :=
  {| recoverHandler := Some defaultRecoverHandler;
     stats := zero_Stats;
     goroutines := [];
     crashed := None |}.

Definition SetRecoverHandler (h : option RecoverHandler) (se : t) : t :=
  {| recoverHandler := h; stats := stats se;
     goroutines := goroutines se; crashed := crashed se |}.

Definition GetStats (se : t) : Stats := stats se.

Definition ResetStats (se : t) : t :=
  {| recoverHandler := recoverHandler se; stats := zero_Stats;
     goroutines := goroutines se; crashed := crashed se |}.

Definition on_stats (f : Stats -> Stats) (se : t) : t :=
  {| recoverHandler := recoverHandler se; stats := f (stats se);
     goroutines := goroutines se; crashed := crashed se |}.

Definition spawned (st : Stats) : Stats :=
  {| TotalGoroutines := Int64.add (TotalGoroutines st) 1;
     ActiveGoroutines := Int64.add (ActiveGoroutines st) 1;
     PanicCount := PanicCount st;
     CompletedCount := CompletedCount st;
     LastPanicTime := LastPanicTime st;
     LastPanicGoroutine := LastPanicGoroutine st |}.

Definition active_decremented (st : Stats) : Stats :=
  {| TotalGoroutines := TotalGoroutines st;
     ActiveGoroutines := Int64.sub (ActiveGoroutines st) 1;
     PanicCount := PanicCount st;
     CompletedCount := CompletedCount st;
     LastPanicTime := LastPanicTime st;
     LastPanicGoroutine := LastPanicGoroutine st |}.

Definition completed (st : Stats) : Stats :=
  {| TotalGoroutines := TotalGoroutines st;
     ActiveGoroutines := ActiveGoroutines st;
     PanicCount := PanicCount st;
     CompletedCount := Int64.add (CompletedCount st) 1;
     LastPanicTime := LastPanicTime st;
     LastPanicGoroutine := LastPanicGoroutine st |}.

Definition panicked (now : Z) (id : string) (st : Stats) : Stats :=
  {| TotalGoroutines := TotalGoroutines st;
     ActiveGoroutines := ActiveGoroutines st;
     PanicCount := Int64.add (PanicCount st) 1;
     CompletedCount := CompletedCount st;
     LastPanicTime := now;
     LastPanicGoroutine := id |}.

(** [GoWithContext]: the handler is read, the counters are moved, the
    goroutine is created. *)
Definition GoWithContext (ctx_done : bool) (fn : behaviour) (stack : string)
    (se : t) : t :=
  {| recoverHandler := recoverHandler se;
     stats := spawned (stats se);
     goroutines :=
       goroutines se
       ++ [{| g_ctx_done := ctx_done; g_fn := fn; g_stack := stack;
              g_handler := recoverHandler se; g_pc := Spawned;
              g_events := [] |}];
     crashed := crashed se |}.

Definition Go (fn : behaviour) (stack : string) (se : t) : t :=
  GoWithContext false fn stack se.

(** [GoWithTimeout] cancels its context as it returns; [expired] is
    whether the goroutine sees that before it calls [fn]. *)
Definition GoWithTimeout (fn : behaviour) (expired : bool) (stack : string)
    (se : t) : t :=
  GoWithContext expired fn stack se.

(** [GoWithDelay] spawns [func() { time.Sleep(delay); fn() }], which
    comes to what [fn] comes to. *)
Definition GoWithDelay (fn : behaviour) (stack : string) (se : t) : t :=
  Go fn stack se.

Definition cancelled_format : string := "Goroutine cancelled due to context: %v".
Definition recovered_format : string := "Goroutine panic recovered: %v".
Definition id_format : string := "Goroutine ID: %s".
Definition stack_format : string :=
  "Stack trace:" ++ String (Ascii.ascii_of_nat 10) "%s".

(** The body of the goroutine, up to the deferred function. *)
Definition body_events (g : goroutine) : list event :=
  if g_ctx_done g then [EvWarnf cancelled_format] else [EvRan (g_fn g)].

(** The second half of [handlePanic]: the three log lines and the call
    of the handler, if there is one. *)
Definition report_events (g : goroutine) : list event :=
  let id := getGoroutineID (g_stack g) in
  [EvErrorf recovered_format (ArgValue (recovered g));
   EvErrorf id_format (ArgText id);
   EvErrorf stack_format (ArgText (g_stack g))]
  ++ match g_handler g with
     | Some h =>
         [EvHandler (recovered g) (g_stack g) id (h (recovered g) (g_stack g) id)]
     | None => []
     end.

(** The panic of the handler, if it is called and panics. *)
Definition handler_panic (g : goroutine) : option value :=
  match g_handler g with
  | Some h =>
      match h (recovered g) (g_stack g) (getGoroutineID (g_stack g)) with
      | Panics v => Some v
      | Returns _ => None
      end
  | None => None
  end.

Definition advance (p : pc) (evs : list event) (g : goroutine) : goroutine :=
  {| g_ctx_done := g_ctx_done g; g_fn := g_fn g; g_stack := g_stack g;
     g_handler := g_handler g; g_pc := p; g_events := g_events g ++ evs |}.

Fixpoint set_nth {A : Type} (i : nat) (x : A) (l : list A) : list A :=
  match l, i with
  | [], _ => []
  | _ :: l', O => x :: l'
  | y :: l', S i' => y :: set_nth i' x l'
  end.

Definition put (i : nat) (g : goroutine) (st : Stats) (c : option value)
    (se : t) : t :=
  {| recoverHandler := recoverHandler se; stats := st;
     goroutines := set_nth i g (goroutines se); crashed := c |}.

(** The next atomic step of goroutine [i]; [now] is what [time.Now]
    reads if the step asks. A goroutine that is gone has no step. *)
Definition step (i : nat) (now : Z) (se : t) : option t :=
  match nth_error (goroutines se) i with
  | None => None
  | Some g =>
      match g_pc g with
      | Spawned =>
          Some (put i (advance Deferred (body_events g) g)
                  (stats se) (crashed se) se)
      | Deferred =>
          Some (put i (advance Decremented [EvActiveDecremented] g)
                  (active_decremented (stats se)) (crashed se) se)
      | Decremented =>
          if value_is_nil (recovered g)
          then Some (put i (advance Finished [EvCompletedIncremented] g)
                       (completed (stats se)) (crashed se) se)
          else Some (put i (advance Counted [EvPanicIncremented] g)
                       (panicked now (getGoroutineID (g_stack g)) (stats se))
                       (crashed se) se)
      | Counted =>
          Some (put i (advance Finished (report_events g) g)
                  (stats se)
                  (match handler_panic g with
                   | Some v => Some v
                   | None => crashed se
                   end) se)
      | Finished => None
      end
  end.

(** What happens around an executor. Once the process has crashed
    nothing happens any more. *)
Inductive label : Type :=
| LGo (ctx_done : bool) (fn : behaviour) (stack : string)
| LStep (i : nat) (now : Z)
| LSetRecoverHandler (h : option RecoverHandler)
| LResetStats.

Definition apply_label (se : t) (l : label) : option t :=
  match crashed se with
  | Some _ => None
  | None =>
      match l with
      | LGo ctx_done fn stack => Some (GoWithContext ctx_done fn stack se)
      | LStep i now => step i now se
      | LSetRecoverHandler h => Some (SetRecoverHandler h se)
      | LResetStats => Some (ResetStats se)
      end
  end.

Definition apply_opt (ose : option t) (l : label) : option t :=
  match ose with
  | Some se => apply_label se l
  | None => None
  end.

Definition run (ls : list label) (se : t) : option t :=
  fold_left apply_opt ls (Some se).

End SafeExecutor.

(** *** Vocabulary for statements about the executor *)

Module ExecutorSpec.

Import SafeExecutor.

(** The handler calls among the events, with their three arguments. *)
Definition handler_calls (evs : list event) : list (value * string * string) :=
  flat_map (fun e => match e with
                     | EvHandler v stack id _ => [(v, stack, id)]
                     | _ => []
                     end) evs.

Definition completed_increments (evs : list event) : nat :=
  length (filter (fun e => match e with
                           | EvCompletedIncremented => true
                           | _ => false
                           end) evs).

Definition panic_increments (evs : list event) : nat :=
  length (filter (fun e => match e with
                           | EvPanicIncremented => true
                           | _ => false
                           end) evs).

(** What a goroutine has done when it is at [g_pc g], read off the code
    of [GoWithContext] and [handlePanic]. *)
Definition history (g : goroutine) : list event :=
  match g_pc g with
  | Spawned => []
  | Deferred => body_events g
  | Decremented => body_events g ++ [EvActiveDecremented]
  | Counted => body_events g ++ [EvActiveDecremented] ++ [EvPanicIncremented]
  | Finished =>
      body_events g ++ [EvActiveDecremented]
      ++ (if value_is_nil (recovered g)
          then [EvCompletedIncremented]
          else [EvPanicIncremented] ++ report_events g)
  end.

Definition coherent (g : goroutine) : Prop :=
  g_events g = history g
  /\ (g_pc g = Counted -> value_is_nil (recovered g) = false).

Definition is_finished (g : goroutine) : bool :=
  match g_pc g with Finished => true | _ => false end.

(** Goroutines that still count as active, and goroutines that have
    been counted as completed or panicked. *)
Definition active_weight (g : goroutine) : Z :=
  match g_pc g with Spawned | Deferred => 1 | _ => 0 end.

Definition counted_weight (g : goroutine) : Z :=
  match g_pc g with Counted | Finished => 1 | _ => 0 end.

Definition sumZ (f : goroutine -> Z) (l : list goroutine) : Z :=
  fold_right (fun g acc => f g + acc) 0 l.

(** No spawned goroutine is unfinished. *)
Definition idle (se : t) : bool := forallb is_finished (goroutines se).

(** How many goroutines were spawned since the last [ResetStats]. *)
Definition count_spawn (n : Z) (l : label) : Z :=
  match l with
  | LGo _ _ _ => n + 1
  | LResetStats => 0
  | _ => n
  end.

Definition spawned_since_reset (ls : list label) : Z :=
  fold_left count_spawn ls 0.

Definition reset_allowed (l : label) (se : t) : Prop :=
  match l with
  | LResetStats => idle se = true
  | _ => True
  end.

(** [ResetStats] is only called while the executor is idle. *)
Fixpoint resets_when_idle (ls : list label) (se : t) : Prop :=
  match ls with
  | [] => True
  | l :: ls' =>
      reset_allowed l se
      /\ match apply_label se l with
         | Some se' => resets_when_idle ls' se'
         | None => True
         end
  end.

(** What the counters say of an executor whose first [k] goroutines
    were all gone at the last reset. *)
Definition stats_inv (k : nat) (se : t) : Prop :=
  let st := stats se in
  let gs := goroutines se in
  (k <= length gs)%nat
  /\ forallb is_finished (firstn k gs) = true
  /\ TotalGoroutines st = Z.of_nat (length gs) - Z.of_nat k
  /\ ActiveGoroutines st = sumZ active_weight gs
  /\ 0 <= CompletedCount st
  /\ 0 <= PanicCount st
  /\ CompletedCount st + PanicCount st = sumZ counted_weight gs - Z.of_nat k.



End ExecutorSpec.

(** A stack trace as the runtime prints it, and the handler of the
    examples. *)
Definition example_stack : string :=
  "goroutine 18 [running]:" ++ String (Ascii.ascii_of_nat 10) "main.work()".


(** *** More vocabulary for the circuit breaker *)

Module BreakerSpec.

Import GoM.

Definition succeeded (o : outcome error) : bool :=
  match o with
  | Returns e => is_nil e
  | Panics _ => false
  end.

(** How many invocations returned [nil]. *)
Definition successes (t : list event) : Z :=
  Z.of_nat (length (filter succeeded (calls t))).

Definition is_reset {U : Type} (o : @CircuitBreaker.op U) : bool :=
  match o with
  | CircuitBreaker.OpReset => true
  | _ => false
  end.

(** The closed state is the state with fewer than [mf] counted
    failures. *)
Definition closed_inv (mf n : Z) (cb : CircuitBreaker.t) : Prop :=
  CircuitBreaker.maxFailures cb = mf
  /\ CircuitSpec.breaker_inv n cb
  /\ (CircuitBreaker.state cb = CircuitBreaker.StateClosed ->
      CircuitBreaker.failureCount cb < mf).

(** A function that panics where the breaker calls it. *)
Definition panicking (v : value) (d : nat) (s : nat) : outcome error * nat :=
  (Panics v, (s + d)%nat).

End BreakerSpec.

(** *** The rate limiter and its refill goroutine *)

Module RateLimiterRun.

(** The limiter together with its refill goroutine, which is either
    waiting in [for range rl.ticker.C] or has taken a tick ([pending])
    and is about to offer a token. *)
Record state : Type := {
  limiter : RateLimiter.t;
  pending : bool
}.

Inductive event : Type :=
| EvAllow
| EvTickArrives
| EvRefill
| EvStop.

(** A stopped ticker sends no more ticks. The booleans are the answers
    of the [Allow] calls. *)
Definition step (st : state) (e : event) : state * list bool :=
  match e with
  | EvAllow =>
      let (b, rl) := RateLimiter.Allow (limiter st) in
      ({| limiter := rl; pending := pending st |}, [b])
  | EvTickArrives =>
      if RateLimiter.ticker_stopped (limiter st) then (st, [])
      else ({| limiter := limiter st; pending := true |}, [])
  | EvRefill =>
      if pending st
      then ({| limiter := RateLimiter.refill (limiter st); pending := false |}, [])
      else (st, [])
  | EvStop =>
      ({| limiter := RateLimiter.Stop (limiter st); pending := pending st |}, [])
  end.

Fixpoint run (evs : list event) (st : state) : state * list bool :=
  match evs with
  | [] => (st, [])
  | e :: evs' =>
      let (st1, b1) := step st e in
      let (st2, b2) := run evs' st1 in
      (st2, b1 ++ b2)
  end.

Definition start (rl : RateLimiter.t) : state :=
  {| limiter := rl; pending := false |}.

(** How many [Allow] calls answered [true]; how many ticks arrived. *)
Definition allowed (bs : list bool) : Z :=
  Z.of_nat (length (filter (fun b => b) bs)).

Definition ticks (evs : list event) : Z :=
  Z.of_nat (length (filter (fun e => match e with
                                     | EvTickArrives => true
                                     | _ => false
                                     end) evs)).

(** The tokens in the bucket, plus the one a pending tick may add. *)
Definition potential (st : state) : Z :=
  RateLimiter.GetAvailableTokens (limiter st)
  + (if pending st then 1 else 0).

Definition bucket_ok (st : state) : Prop :=
  let c := RateLimiter.tokens (limiter st) in
  Chan.closed c = false /\ Chan.recvq c = 0%nat
  /\ (length (Chan.buf c) <= Chan.cap c)%nat.

End RateLimiterRun.

(** *** The dispatcher and the workers of a pool *)

Module PoolDispatch.

(** Where the dispatcher goroutine of [startDispatcher] is: at its
    [select]; woken up with a job that [Submit] handed to it, the
    statistics not yet updated; at [<-p.workerQueue] with a job ([None]
    is the nil job of a closed queue); at [workerJobQueue <- job];
    returned; ended by a panic (which the executor recovers). *)
Inductive dispatcher : Type :=
| Selecting
| Woken (job : Pool.Job)
| NeedWorker (job : option Pool.Job)
| Sending (job : option Pool.Job) (worker : nat)
| Exited
| Crashed (v : value).

(** A pool with its dispatcher and workers. The workers are numbered in
    the order of the [startWorker] calls, and the channel each one makes
    is named by the number of its worker: [workerQueue] is the content
    of [p.workerQueue], [closed_workers] lists the worker channels
    closed so far, and [received] tells which worker received which job
    from its channel, in the order of the receives. *)
Record t : Type := {
  pool : Pool.t;
  workerQueue : list nat;
  disp : dispatcher;
  received : list (nat * option Pool.Job);
  closed_workers : list nat
}.

Definition with_pool (p : Pool.t) (d : t) : t :=
  {| pool := p; workerQueue := workerQueue d; disp := disp d;
     received := received d; closed_workers := closed_workers d |}.

Definition with_disp (x : dispatcher) (d : t) : t :=
  {| pool := pool d; workerQueue := workerQueue d; disp := x;
     received := received d; closed_workers := closed_workers d |}.

(** [startDispatcher]: the dispatcher goroutine is started, then
    [startWorker] is called [maxWorkers] times; each call sends the
    channel of the new worker to [workerQueue], once. *)
Definition start (p : Pool.t) : t :=
  {| pool := p;
     workerQueue := seq 0 (Z.to_nat (Pool.maxWorkers p));
     disp := Selecting;
     received := [];
     closed_workers := [] |}.

(** The dispatcher is parked in its [select]. *)
Definition parked (d : t) : bool :=
  match disp d with
  | Selecting => (0 <? Chan.recvq (Pool.jobQueue (pool d)))%nat
  | _ => false
  end.

(** The parked dispatcher leaves the receive queue of [jobQueue]. *)
Definition unpark (p : Pool.t) : Pool.t :=
  let q := Pool.jobQueue p in
  Pool.with_jobQueue
    {| Chan.buf := Chan.buf q; Chan.cap := Chan.cap q;
       Chan.closed := Chan.closed q; Chan.recvq := 0 |} p.

(** What the dispatcher does with the statistics once it has a job. *)
Definition count_job (now : Z) (p : Pool.t) : Pool.t :=
  let st := Pool.stats p in
  Pool.with_stats
    {| Pool.TotalJobs := Int64.add (Pool.TotalJobs st) 1;
       Pool.CompletedJobs := Pool.CompletedJobs st;
       Pool.FailedJobs := Pool.FailedJobs st;
       Pool.ActiveWorkers := Pool.ActiveWorkers st;
       Pool.QueuedJobs := Chan.len (Pool.jobQueue p);
       Pool.LastJobTime := now;
       Pool.AverageJobTime := Pool.AverageJobTime st |} p.

(** A worker whose [executeJob] was given the nil job has panicked and
    is gone. *)
Definition worker_crashed (d : t) (w : nat) : bool :=
  existsb (fun r => (fst r =? w)%nat
                    && match snd r with None => true | Some _ => false end)
          (received d).

Definition mem (w : nat) (l : list nat) : bool :=
  existsb (Nat.eqb w) l.

Inductive event : Type :=
| EvSubmit (job : Pool.Job)
| EvPark
| EvTake (now : Z)
| EvCount (now : Z)
| EvPickWorker
| EvHandOver
| EvDispatcherQuit
| EvWorkerQuit (w : nat)
| EvWorkerStart
| EvWorkerExit
| EvJobDone (err : error) (jobTime : Z)
| EvStop
| EvStopGracefullyClose
| EvStopGracefullyQuit.

(** [close(p.quit)]: a dispatcher parked in its [select] is woken up by
    it and returns. *)
Definition close_quit (d : t) : t :=
  match Pool.Stop (pool d) with
  | Returns p' =>
      if parked d
      then {| pool := unpark p'; workerQueue := workerQueue d;
              disp := Exited; received := received d;
              closed_workers := closed_workers d |}
      else with_pool p' d
  | Panics _ => d
  end.

(** One atomic action of one of the goroutines; an action that cannot
    take place where they are leaves everything as it is. *)
Definition step (d : t) (e : event) : t :=
  match e with
  | EvSubmit job =>
      match Chan.try_send (Pool.jobQueue (pool d)) job with
      | Chan.Sent _ true =>
          {| pool := snd (Pool.Submit (pool d) job);
             workerQueue := workerQueue d;
             disp := match disp d with
                     | Selecting => Woken job
                     | x => x
                     end;
             received := received d;
             closed_workers := closed_workers d |}
      | _ => with_pool (snd (Pool.Submit (pool d) job)) d
      end
  | EvPark =>
      match disp d with
      | Selecting =>
          if (Chan.recvq (Pool.jobQueue (pool d)) =? 0)%nat
             && negb (Chan.closed (Pool.quit (pool d)))
          then with_pool (Pool.step (pool d) Pool.EvDispatcherParks) d
          else d
      | _ => d
      end
  | EvTake now =>
      match disp d, Pool.dispatch now (pool d) with
      | Selecting, Some (j, p') =>
          {| pool := p'; workerQueue := workerQueue d;
             disp := NeedWorker j; received := received d;
             closed_workers := closed_workers d |}
      | _, _ => d
      end
  | EvCount now =>
      match disp d with
      | Woken job =>
          {| pool := count_job now (pool d); workerQueue := workerQueue d;
             disp := NeedWorker (Some job); received := received d;
             closed_workers := closed_workers d |}
      | _ => d
      end
  | EvPickWorker =>
      match disp d, workerQueue d with
      | NeedWorker j, w :: rest =>
          {| pool := pool d; workerQueue := rest;
             disp := Sending j w; received := received d;
             closed_workers := closed_workers d |}
      | _, _ => d
      end
  | EvHandOver =>
      match disp d with
      | Sending j w =>
          if mem w (closed_workers d)
          then with_disp (Crashed send_on_closed) d
          else {| pool := pool d; workerQueue := workerQueue d;
                  disp := Selecting; received := received d ++ [(w, j)];
                  closed_workers := closed_workers d |}
      | _ => d
      end
  | EvDispatcherQuit =>
      match disp d with
      | Selecting =>
          if Chan.closed (Pool.quit (pool d))
          then {| pool := unpark (pool d); workerQueue := workerQueue d;
                  disp := Exited; received := received d;
                  closed_workers := closed_workers d |}
          else d
      | _ => d
      end
  | EvWorkerQuit w =>
      if Chan.closed (Pool.quit (pool d))
         && (Z.of_nat w <? Pool.maxWorkers (pool d))
         && negb (mem w (closed_workers d))
         && negb (worker_crashed d w)
      then {| pool := pool d; workerQueue := workerQueue d;
              disp := disp d; received := received d;
              closed_workers := w :: closed_workers d |}
      else d
  | EvWorkerStart => with_pool (Pool.step (pool d) Pool.EvWorkerStart) d
  | EvWorkerExit => with_pool (Pool.step (pool d) Pool.EvWorkerExit) d
  | EvJobDone err jobTime =>
      with_pool (Pool.step (pool d) (Pool.EvJobDone err jobTime)) d
  | EvStop => close_quit d
  | EvStopGracefullyClose =>
      with_pool (Pool.step (pool d) Pool.EvStopGracefullyClose) d
  | EvStopGracefullyQuit => close_quit d
  end.

Definition run (evs : list event) (d : t) : t := fold_left step evs d.

(** The job for which [Submit] returns [nil] in an event. *)
Definition accepted1 (d : t) (e : event) : list Pool.Job :=
  match e with
  | EvSubmit job =>
      match fst (Pool.Submit (pool d) job) with
      | Returns ErrNil => [job]
      | _ => []
      end
  | _ => []
  end.

(** The jobs for which [Submit] returned [nil] during a run, in the
    order of the calls. *)
Fixpoint accepted (evs : list event) (d : t) : list Pool.Job :=
  match evs with
  | [] => []
  | e :: evs' => accepted1 d e ++ accepted evs' (step d e)
  end.

Definition jobs_of (l : list (option Pool.Job)) : list Pool.Job :=
  flat_map (fun j => match j with Some job => [job] | None => [] end) l.

(** The jobs the workers received, in the order of the receives. *)
Definition executed (d : t) : list Pool.Job :=
  jobs_of (map snd (received d)).

(** The job the dispatcher holds. *)
Definition held (d : t) : list Pool.Job :=
  match disp d with
  | Woken job => [job]
  | NeedWorker j | Sending j _ => jobs_of [j]
  | _ => []
  end.

Definition crashed (d : t) : bool :=
  match disp d with
  | Crashed _ => true
  | _ => false
  end.

(** The workers that have been, are being, or can still be given a
    job. *)
Definition workers (d : t) : list nat :=
  map fst (received d)
  ++ match disp d with
     | Sending _ w => [w]
     | _ => []
     end
  ++ workerQueue d.

Definition close_of_closed : value := VRuntimeError "close of closed channel".

(** The workers that can get a job are distinct workers of the pool. *)
Definition workers_ok (n : nat) (d : t) : Prop :=
  NoDup (workers d) /\ forall w, In w (workers d) -> (w < n)%nat.

(** The dispatcher is the only receiver of [jobQueue], and it is parked
    there only while it is in its [select] and the queue is empty and
    open. *)
Definition queue_ok (d : t) : Prop :=
  let q := Pool.jobQueue (pool d) in
  Chan.recvq q = 0%nat
  \/ (Chan.recvq q = 1%nat /\ disp d = Selecting
      /\ Chan.buf q = [] /\ Chan.closed q = false).

(** The jobs [l] accepted so far are those the workers received, then
    the job in the hands of the dispatcher (the job it holds, or the one
    it had when it panicked), then the content of the queue. *)
Definition in_order (l : list Pool.Job) (d : t) : Prop :=
  exists hand,
    l = executed d ++ hand ++ Chan.buf (Pool.jobQueue (pool d))
    /\ (length hand <= 1)%nat
    /\ (crashed d = false -> hand = held d).

(** The job queue has capacity [c] and holds no more. *)
Definition queue_fits (c : nat) (d : t) : Prop :=
  Chan.cap (Pool.jobQueue (pool d)) = c
  /\ (length (Chan.buf (Pool.jobQueue (pool d))) <= c)%nat.

Definition config_of (cfg : option Pool.PoolConfig) : Pool.PoolConfig :=
  match cfg with
  | Some c => c
  | None => Pool.DefaultPoolConfig
  end.

(** The pool of the basic example: three workers, a queue of ten. *)
Definition example_config : Pool.PoolConfig :=
  {| Pool.MaxWorkers := 3; Pool.QueueSize := 10;
     Pool.WorkerTimeout := 0; Pool.JobTimeout := 5 * Second |}.

Definition example_job (id : string) : Pool.Job :=
  {| Pool.ID := id; Pool.Timeout := 0; Pool.Fn := Returns ErrNil |}.

(** A job is submitted, taken by the dispatcher and handed to the next
    worker. *)
Definition serve (id : string) : list event :=
  [EvSubmit (example_job id); EvTake 0; EvPickWorker; EvHandOver].

End PoolDispatch.

(** *** More vocabulary for the executor *)

Module ExecutorMore.

Import SafeExecutor.

(** The text has no space in it. *)
Fixpoint no_space (s : string) : bool :=
  match s with
  | EmptyString => true
  | String c rest => negb (Ascii.eqb c " "%char) && no_space rest
  end.


(** What a goroutine is made of when it is spawned; no step changes
    it. *)
Definition same_task (g g' : goroutine) : Prop :=
  g_ctx_done g' = g_ctx_done g /\ g_fn g' = g_fn g
  /\ g_stack g' = g_stack g /\ g_handler g' = g_handler g.

(** A handler that records nothing and panics. *)
Definition panicking_handler : RecoverHandler :=
  fun _ _ _ => Panics (VString "handler failed").

End ExecutorMore.

(** ** WaitGroup *)

Module Int32.

Definition min_int : Z := - 2 ^ 31.
Definition max_int : Z := 2 ^ 31 - 1.

(** Two's-complement wrap-around of a 32-bit signed integer. *)
Definition wrap (z : Z) : Z := (z + 2 ^ 31) mod 2 ^ 32 - 2 ^ 31.

End Int32.

Module WaitGroup.

(** The wrapper with the executor it starts goroutines on. Of the
    [sync.WaitGroup] inside it the counter is kept (an [int32]); its
    count of waiters is left out, as a waiter is only registered while
    the counter is positive. [members] lists the goroutines started
    through the wrapper, by their place in the executor. *)
Record t : Type := {
  se : SafeExecutor.t;
  counter : Z;
  done : bool;
  members : list nat
}.

Definition NewWaitGroup (e : SafeExecutor.t) : t :=
  {| se := e; counter := 0; done := false; members := [] |}.

Definition add_after_wait : value :=
  VString "WaitGroup: Add called after Wait".

Definition negative_counter : value :=
  VString "sync: negative WaitGroup counter".

(** [sync.WaitGroup.Add]: the counter is moved, then checked. *)
Definition sync_Add (delta : Z) (wg : t) : outcome unit * t :=
  let v := Int32.wrap (counter wg + delta) in
  (if v <? 0 then Panics negative_counter else Returns tt,
   {| se := se wg; counter := v; done := done wg; members := members wg |}).

Definition Add (delta : Z) (wg : t) : outcome unit * t :=
  if done wg then (Panics add_after_wait, wg) else sync_Add delta wg.

Definition Done (wg : t) : outcome unit * t := sync_Add (-1) wg.

(** [Wait] sets [done], then blocks until the counter is zero. *)
Definition Wait_begin (wg : t) : t :=
  {| se := se wg; counter := counter wg; done := true;
     members := members wg |}.

Definition Wait_returns (wg : t) : bool := counter wg =? 0.

(** [GoWithContext]: [Add(1)], then the executor is given
    [func() { defer wg.Done(); fn() }]. *)
Definition GoWithContext (ctx_done : bool) (fn : SafeExecutor.behaviour)
    (stack : string) (wg : t) : outcome unit * t :=
  match Add 1 wg with
  | (Returns _, wg') =>
      (Returns tt,
       {| se := SafeExecutor.GoWithContext ctx_done fn stack (se wg');
          counter := counter wg';
          done := done wg';
          members :=
            members wg' ++ [length (SafeExecutor.goroutines (se wg'))] |})
  | (Panics v, wg') => (Panics v, wg')
  end.

Definition Go (fn : SafeExecutor.behaviour) (stack : string) (wg : t)
  : outcome unit * t :=
  GoWithContext false fn stack wg.

Definition is_member (i : nat) (wg : t) : bool :=
  existsb (Nat.eqb i) (members wg).

Definition with_se (e : SafeExecutor.t) (wg : t) : t :=
  {| se := e; counter := counter wg; done := done wg;
     members := members wg |}.

(** The goroutine calls [fn] and the deferred [wg.Done()] next. *)
Definition runs_wrapper (i : nat) (wg : t) : bool :=
  match nth_error (SafeExecutor.goroutines (se wg)) i with
  | Some g =>
      is_member i wg
      && negb (SafeExecutor.g_ctx_done g)
      && match SafeExecutor.g_pc g with
         | SafeExecutor.Spawned => true
         | _ => false
         end
  | None => false
  end.

(** What the function given to the executor comes to once its deferred
    [wg.Done()] has panicked with [v], whatever [fn] did. *)
Definition wrapper_panics (i : nat) (v : value) (e : SafeExecutor.t)
  : SafeExecutor.t :=
  match nth_error (SafeExecutor.goroutines e) i with
  | Some g =>
      {| SafeExecutor.recoverHandler := SafeExecutor.recoverHandler e;
         SafeExecutor.stats := SafeExecutor.stats e;
         SafeExecutor.goroutines :=
           SafeExecutor.set_nth i
             {| SafeExecutor.g_ctx_done := SafeExecutor.g_ctx_done g;
                SafeExecutor.g_fn := SafeExecutor.FnPanics v;
                SafeExecutor.g_stack := SafeExecutor.g_stack g;
                SafeExecutor.g_handler := SafeExecutor.g_handler g;
                SafeExecutor.g_pc := SafeExecutor.g_pc g;
                SafeExecutor.g_events := SafeExecutor.g_events g |}
             (SafeExecutor.goroutines e);
         SafeExecutor.crashed := SafeExecutor.crashed e |}
  | None => e
  end.

(** The next step of goroutine [i]. A goroutine started through the
    wrapper whose context is not done runs [fn] and the deferred
    [wg.Done()] in the step that takes it out of [Spawned]. *)
Definition step (i : nat) (now : Z) (wg : t) : option t :=
  if runs_wrapper i wg then
    match Done wg with
    | (Returns _, wg') =>
        option_map (fun e => with_se e wg')
          (SafeExecutor.apply_label (se wg') (SafeExecutor.LStep i now))
    | (Panics v, wg') =>
        option_map (fun e => with_se e wg')
          (SafeExecutor.apply_label (wrapper_panics i v (se wg'))
             (SafeExecutor.LStep i now))
    end
  else
    option_map (fun e => with_se e wg)
      (SafeExecutor.apply_label (se wg) (SafeExecutor.LStep i now)).

(** What happens around a wait group: calls of its methods (a call
    that panics leaves the rest to its caller), and whatever happens
    around its executor. *)
Inductive event : Type :=
| EvGo (ctx_done : bool) (fn : SafeExecutor.behaviour) (stack : string)
| EvWait
| EvAdd (delta : Z)
| EvDone
| EvExecutor (l : SafeExecutor.label).

Definition apply_event (wg : t) (e : event) : option t :=
  match SafeExecutor.crashed (se wg) with
  | Some _ => None
  | None =>
      match e with
      | EvGo ctx_done fn stack => Some (snd (GoWithContext ctx_done fn stack wg))
      | EvWait => Some (Wait_begin wg)
      | EvAdd delta => Some (snd (Add delta wg))
      | EvDone => Some (snd (Done wg))
      | EvExecutor (SafeExecutor.LStep i now) => step i now wg
      | EvExecutor l =>
          option_map (fun e => with_se e wg) (SafeExecutor.apply_label (se wg) l)
      end
  end.

Definition apply_opt (owg : option t) (e : event) : option t :=
  match owg with
  | Some wg => apply_event wg e
  | None => None
  end.

Definition run (evs : list event) (wg : t) : option t :=
  fold_left apply_opt evs (Some wg).

(** The counter is only moved by [Go] and [GoWithContext] and by the
    goroutines they start. *)
Definition through_go (e : event) : bool :=
  match e with
  | EvAdd _ | EvDone => false
  | _ => true
  end.

(** A goroutine that has not yet called [wg.Done()], or, its context
    being done, never will. *)
Definition waiting (g : SafeExecutor.goroutine) : bool :=
  SafeExecutor.g_ctx_done g
  || match SafeExecutor.g_pc g with
     | SafeExecutor.Spawned => true
     | _ => false
     end.

(** How many of the goroutines from place [k] on are members and
    waiting. *)
Fixpoint count_from (ms : list nat) (k : nat)
    (gs : list SafeExecutor.goroutine) : Z :=
  match gs with
  | [] => 0
  | g :: gs' =>
      (if existsb (Nat.eqb k) ms && waiting g then 1 else 0)
      + count_from ms (S k) gs'
  end.

Definition outstanding (wg : t) : Z :=
  count_from (members wg) 0 (SafeExecutor.goroutines (se wg)).

Definition weight (ms : list nat) (j : nat) (g : SafeExecutor.goroutine) : Z :=
  if existsb (Nat.eqb j) ms && waiting g then 1 else 0.

(** The counter is the number of waiting members, and the members are
    goroutines of the executor. *)
Definition counter_ok (wg : t) : Prop :=
  counter wg = outstanding wg
  /\ Forall (fun i => (i < length (SafeExecutor.goroutines (se wg)))%nat)
            (members wg).

End WaitGroup.

(** ** Batch *)

Module Batch.

Record BatchResult : Type := {
  Index : Z;
  Value : value;
  Error : error
}.

(** The function literal [Add] gives to the wait group: the index it
    has captured, what [fn] comes to, and the place of its goroutine in
    the executor. *)
Record task : Type := {
  t_place : nat;
  t_index : Z;
  t_fn : outcome (value * error)
}.

Record t : Type := {
  wg : WaitGroup.t;
  results : list BatchResult;
  errors : list error;
  tasks : list task
}.

(** [NewBatch(executor)]; a nil executor stands for [GlobalExecutor]. *)
Definition NewBatch (executor : SafeExecutor.t) : t :=
  {| wg := WaitGroup.NewWaitGroup executor;
     results := []; errors := []; tasks := [] |}.

(** What the function literal comes to as a [func()]. *)
Definition task_behaviour (fn : outcome (value * error))
  : SafeExecutor.behaviour :=
  match fn with
  | Returns _ => SafeExecutor.FnReturns
  | Panics v => SafeExecutor.FnPanics v
  end.

(** [Add]: the index is the number of results at the time of the call. *)
Definition Add (fn : outcome (value * error)) (stack : string) (b : t)
  : outcome unit * t :=
  let index := Z.of_nat (length (results b)) in
  match WaitGroup.Go (task_behaviour fn) stack (wg b) with
  | (Returns _, wg') =>
      (Returns tt,
       {| wg := wg'; results := results b; errors := errors b;
          tasks :=
            tasks b
            ++ [{| t_place :=
                     length (SafeExecutor.goroutines (WaitGroup.se (wg b)));
                   t_index := index; t_fn := fn |}] |})
  | (Panics v, wg') =>
      (Panics v,
       {| wg := wg'; results := results b; errors := errors b;
          tasks := tasks b |})
  end.

(** The body of the function literal, once [fn] has returned. *)
Definition record_result (index : Z) (r : value * error) (b : t) : t :=
  {| wg := wg b;
     results :=
       results b ++ [{| Index := index; Value := fst r; Error := snd r |}];
     errors := if is_nil (snd r) then errors b else errors b ++ [snd r];
     tasks := tasks b |}.

Definition task_at (i : nat) (b : t) : option task :=
  find (fun k => (t_place k =? i)%nat) (tasks b).

(** The next step of goroutine [i]: the step that takes the goroutine
    of a task out of [Spawned] runs the function literal. *)
Definition step (i : nat) (now : Z) (b : t) : option t :=
  let b1 :=
    if WaitGroup.runs_wrapper i (wg b) then
      match task_at i b with
      | Some k =>
          match t_fn k with
          | Returns r => record_result (t_index k) r b
          | Panics _ => b
          end
      | None => b
      end
    else b in
  option_map (fun w => {| wg := w; results := results b1;
                          errors := errors b1; tasks := tasks b1 |})
             (WaitGroup.step i now (wg b)).

(** [Wait] is [wg.Wait()], then the two slices are returned. *)
Definition Wait_begin (b : t) : t :=
  {| wg := WaitGroup.Wait_begin (wg b); results := results b;
     errors := errors b; tasks := tasks b |}.

Definition Wait_returns (b : t) : option (list BatchResult * list error) :=
  if WaitGroup.Wait_returns (wg b) then Some (results b, errors b) else None.


Inductive event : Type :=
| EvAdd (fn : outcome (value * error)) (stack : string)
| EvStep (i : nat) (now : Z)
| EvWait.

Definition apply_event (b : t) (e : event) : option t :=
  match SafeExecutor.crashed (WaitGroup.se (wg b)) with
  | Some _ => None
  | None =>
      match e with
      | EvAdd fn stack => Some (snd (Add fn stack b))
      | EvStep i now => step i now b
      | EvWait => Some (Wait_begin b)
      end
  end.

Definition apply_opt (ob : option t) (e : event) : option t :=
  match ob with
  | Some b => apply_event b e
  | None => None
  end.

Definition run (evs : list event) (b : t) : option t :=
  fold_left apply_opt evs (Some b).



(** Several calls of [Add] in a row. *)
Definition add_all (fns : list (outcome (value * error) * string)) (b : t)
  : t :=
  fold_left (fun b f => snd (Add (fst f) (snd f) b)) fns b.

Definition example_value : value := VString "done".

End Batch.

(** *** Jobs finishing one after the other *)

Module PoolAverage.

(** The statistics after the jobs of a list have finished, each with
    its error and the time it took. *)
Definition finish_all (jobs : list (error * Z)) (st : Pool.PoolStats)
  : Pool.PoolStats :=
  fold_left (fun st j => Pool.record_job (fst j) (snd j) st) jobs st.

(** [n] jobs have been counted and the average is below [T]. *)
Definition average_below (T : Z) (n : Z) (st : Pool.PoolStats) : Prop :=
  0 <= Pool.CompletedJobs st
  /\ 0 <= Pool.FailedJobs st
  /\ Pool.CompletedJobs st + Pool.FailedJobs st = n
  /\ 0 <= Pool.AverageJobTime st < T.

End PoolAverage.

(** *** The two counters of finished goroutines *)

Module ExecutorCounts.

Import SafeExecutor ExecutorSpec.

(** A goroutine that has counted a panic, and one that has counted its
    completion. *)
Definition panic_weight (g : goroutine) : Z :=
  match g_pc g with
  | Counted | Finished => if value_is_nil (recovered g) then 0 else 1
  | _ => 0
  end.

Definition completed_weight (g : goroutine) : Z :=
  match g_pc g with
  | Finished => if value_is_nil (recovered g) then 1 else 0
  | _ => 0
  end.

Definition no_reset (l : label) : bool :=
  match l with
  | LResetStats => false
  | _ => true
  end.

Definition counts_ok (se : t) : Prop :=
  Forall coherent (goroutines se)
  /\ PanicCount (stats se) = sumZ panic_weight (goroutines se)
  /\ CompletedCount (stats se) = sumZ completed_weight (goroutines se).

(** Whether calling [fn] ends in a panic. *)
Definition fn_panics (g : goroutine) : bool :=
  negb (g_ctx_done g)
  && match g_fn g with FnPanics _ => true | FnReturns => false end.

Definition count (f : goroutine -> bool) (gs : list goroutine) : Z :=
  Z.of_nat (length (filter f gs)).

End ExecutorCounts.

(** * Part II: properties *)

(** ** Machine integers *)

Section Int64Facts.

Import Int64.

Lemma wrap_in_range (x : Z) : in_range (wrap x).
Proof.
  unfold in_range, wrap, min_int, max_int, modulus.
  pose proof (Z.mod_pos_bound (x + 2 ^ 63) (2 ^ 64) ltac:(lia)). lia.
Qed.

Lemma wrap_id (x : Z) : in_range x -> wrap x = x.
Proof.
  unfold in_range, wrap, min_int, max_int, modulus. intros H.
  rewrite Z.mod_small by lia. lia.
Qed.

Lemma add_id (x y : Z) : in_range (x + y) -> add x y = x + y.
Proof. apply wrap_id. Qed.

Lemma mul_id (x y : Z) : in_range (x * y) -> mul x y = x * y.
Proof. apply wrap_id. Qed.

End Int64Facts.

(** *** Properties of the backoff strategies *)

Section BackoffFacts.

Import ExponentialBackoff.

Lemma exponential_loop_min (b : t) (n : nat) :
  2 * MaxDelay b <= Int64.max_int ->
  forall d : Z,
    d <= MaxDelay b ->
    Int64.min_int <= d * 2 ^ Z.of_nat n ->
    loop b n d = Z.min (d * 2 ^ Z.of_nat n) (MaxDelay b).
Proof.
  unfold Int64.min_int, Int64.max_int.
  intros Hmax. induction n as [|n IH]; intros d Hd Hlow.
  - simpl. rewrite Z.mul_1_r. lia.
  - assert (Hpow : 2 ^ Z.of_nat (S n) = 2 * 2 ^ Z.of_nat n).
    { rewrite Nat2Z.inj_succ, Z.pow_succ_r by lia. reflexivity. }
    assert (Hpos : 1 <= 2 ^ Z.of_nat n).
    { pose proof (Z.pow_pos_nonneg 2 (Z.of_nat n) ltac:(lia) ltac:(lia)). lia. }
    rewrite Hpow in *.
    assert (Hd2 : Int64.in_range (d * 2)).
    { unfold Int64.in_range, Int64.min_int, Int64.max_int. split; [nia | lia]. }
    cbn [loop]. unfold double_capped.
    rewrite (mul_id _ _ Hd2).
    destruct (d * 2 >? MaxDelay b) eqn:Hcap.
    + apply Z.gtb_lt in Hcap.
      rewrite IH; [| lia | nia].
      rewrite !Z.min_r; [reflexivity | nia | nia].
    + assert (d * 2 <= MaxDelay b).
      { destruct (Z.gtb_spec (d * 2) (MaxDelay b)); [discriminate | lia]. }
      rewrite IH; [| lia | nia].
      f_equal. ring.
Qed.

End BackoffFacts.

(** C8 (as stated) fails: an exponential backoff whose base exceeds its
    cap answers the uncapped base at attempt 0, and a linear backoff
    whose product leaves the 64-bit range answers a negative delay. *)
Lemma backoff_not_always_capped :
  ExponentialBackoff.GetDelay
    {| ExponentialBackoff.BaseDelay := 10 * Second;
       ExponentialBackoff.MaxDelay := 5 * Second |} 0
    <> Z.min (10 * Second * 2 ^ 0) (5 * Second)
  /\ LinearBackoff.GetDelay
       {| LinearBackoff.BaseDelay := Second;
          LinearBackoff.MaxDelay := 30 * Second |} 9223372036
     <> Z.min (Second * (9223372036 + 1)) (30 * Second).
Proof. split; vm_compute; discriminate. Qed.

(** C8 (amended): the fixed delay is constant; the linear delay is
    [min (base * (attempt+1)) maxDelay] whenever that product fits in 64
    bits; the exponential delay is [min (base * 2^attempt) maxDelay]
    whenever the base does not exceed the cap and no doubling leaves the
    64-bit range. *)
Theorem backoff_delays (attempt : Z) :
  0 <= attempt ->
  (forall b : FixedBackoff.t,
      GetDelay (Fixed b) attempt = FixedBackoff.Delay b)
  /\ (forall b : LinearBackoff.t,
        attempt < Int64.max_int ->
        Int64.in_range (LinearBackoff.BaseDelay b * (attempt + 1)) ->
        GetDelay (Linear b) attempt
        = Z.min (LinearBackoff.BaseDelay b * (attempt + 1))
                (LinearBackoff.MaxDelay b))
  /\ (forall b : ExponentialBackoff.t,
        ExponentialBackoff.BaseDelay b <= ExponentialBackoff.MaxDelay b ->
        2 * ExponentialBackoff.MaxDelay b <= Int64.max_int ->
        Int64.min_int <= ExponentialBackoff.BaseDelay b * 2 ^ attempt ->
        GetDelay (Exponential b) attempt
        = Z.min (ExponentialBackoff.BaseDelay b * 2 ^ attempt)
                (ExponentialBackoff.MaxDelay b)).
Proof.
  intros Hatt. split; [| split].
  - reflexivity.
  - intros b Hlt Hrange. cbn [GetDelay]. unfold LinearBackoff.GetDelay.
    rewrite add_id
      by (unfold Int64.in_range, Int64.min_int, Int64.max_int in *; lia).
    rewrite mul_id by assumption.
    destruct (Z.gtb_spec (LinearBackoff.BaseDelay b * (attempt + 1))
                (LinearBackoff.MaxDelay b)); lia.
  - intros b Hle Hmax Hlow. cbn [GetDelay].
    unfold ExponentialBackoff.GetDelay.
    rewrite exponential_loop_min; rewrite ?Z2Nat.id; auto.
Qed.

Lemma backoff_delays_witness :
  GetDelay (Fixed {| FixedBackoff.Delay := 10 * Millisecond |}) 3
  = 10 * Millisecond
  /\ GetDelay (Linear {| LinearBackoff.BaseDelay := Second;
                         LinearBackoff.MaxDelay := 30 * Second |}) 3
     = 4 * Second
  /\ GetDelay (Exponential {| ExponentialBackoff.BaseDelay := Second;
                              ExponentialBackoff.MaxDelay := 5 * Second |}) 3
     = 5 * Second.
Proof.
  destruct (backoff_delays 3 ltac:(lia)) as (Hf & Hl & He).
  split; [| split].
  - apply (Hf {| FixedBackoff.Delay := 10 * Millisecond |}).
  - apply (Hl {| LinearBackoff.BaseDelay := Second;
                 LinearBackoff.MaxDelay := 30 * Second |});
      vm_compute; try split; congruence.
  - apply (He {| ExponentialBackoff.BaseDelay := Second;
                 ExponentialBackoff.MaxDelay := 5 * Second |});
      vm_compute; congruence.
Defined.

(** ** The monad of sequential code *)

Section GoMFacts.

Import GoM.

Context {St A B : Type}.

Lemma bind_returns (m : M St A) (k : A -> M St B) s a s1 t1 :
  m s = (Returns a, s1, t1) ->
  bind m k s = (let '(o, s2, t2) := k a s1 in (o, s2, t1 ++ t2)).
Proof. intros H. unfold bind. rewrite H. reflexivity. Qed.

Lemma bind_panics (m : M St A) (k : A -> M St B) s v s1 t1 :
  m s = (Panics v, s1, t1) ->
  bind m k s = (Panics v, s1, t1).
Proof. intros H. unfold bind. rewrite H. reflexivity. Qed.

Lemma bind_eq (m : M St A) (k : A -> M St B) s o s' t :
  bind m k s = (o, s', t) ->
  (exists a s1 t1 t2,
      m s = (Returns a, s1, t1) /\ k a s1 = (o, s', t2) /\ t = t1 ++ t2)
  \/ (exists v, m s = (Panics v, s', t) /\ o = Panics v).
Proof.
  unfold bind. destruct (m s) as [[[a | v] s1] t1].
  - destruct (k a s1) as [[o2 s2] t2] eqn:Hk. intros H. inversion H; subst.
    left. exists a, s1, t1, t2. auto.
  - intros H. inversion H; subst. right. exists v. auto.
Qed.

End GoMFacts.

(** ** Retry *)

Section RetryFacts.

Import GoM Retry RetrySpec.

Context {St : Type}.
Variable r : Retry.t.
Variable fn : St -> outcome error * St.

Lemma call_eq (s : St) o s' :
  fn s = (o, s') -> call fn s = (o, s', [EvCall o]).
Proof. intros H. unfold call. rewrite H. reflexivity. Qed.

Lemma last_cons (x : error) (l : list error) (d : error) :
  last (x :: l) d = last l x.
Proof.
  revert x d. induction l as [|y l IH]; intros x d; [reflexivity |].
  change (last (y :: l) d = last (y :: l) x). rewrite !IH. reflexivity.
Qed.

Lemma attempts_always_failing (n : nat) :
  always_fails fn ->
  forall (attempt : Z) (lastErr : error) (s : St),
    0 <= attempt ->
    attempt + Z.of_nat n = maxAttempts r ->
    maxAttempts r <= Int64.max_int ->
    exists (errs : list error) (s' : St),
      attempts r fn n attempt lastErr s
      = (Returns (Errorf retry_failed (maxAttempts r) (last errs lastErr)),
         s', failed_attempts (backoff r) errs attempt)
      /\ length errs = n
      /\ Forall (fun e => is_nil e = false) errs.
Proof.
  intros Hfail. induction n as [|n IH]; intros attempt lastErr s H0 Hsum Hmax.
  - exists [], s. repeat split; constructor.
  - destruct (Hfail s) as (e & s1 & Hfn & He).
    assert (Hsub : Int64.sub (maxAttempts r) 1 = maxAttempts r - 1).
    { apply wrap_id. unfold Int64.in_range, Int64.min_int, Int64.max_int in *. lia. }
    assert (Hadd : Int64.add attempt 1 = attempt + 1).
    { apply add_id. unfold Int64.in_range, Int64.min_int, Int64.max_int in *. lia. }
    destruct (IH (attempt + 1) e s1 ltac:(lia) ltac:(lia) Hmax)
      as (errs & s' & Hrun & Hlen & Hall).
    exists (e :: errs), s'. repeat split.
    + cbn [attempts]. rewrite (bind_returns _ _ _ _ _ _ (call_eq _ _ _ Hfn)).
      rewrite He, Hsub, Hadd.
      destruct (Z.ltb_spec attempt (maxAttempts r - 1)) as [Hlt | Hge].
      * destruct errs as [|e' errs']; [simpl in Hlen; lia |].
        rewrite (bind_returns _ _ s1 tt s1 [EvSleep (GetDelay (backoff r) attempt)])
          by reflexivity.
        rewrite Hrun, (last_cons e). reflexivity.
      * destruct errs as [|e' errs']; [| simpl in Hlen; lia].
        rewrite (bind_returns _ _ s1 tt s1 []) by reflexivity.
        rewrite Hrun. reflexivity.
    + simpl. lia.
    + constructor; assumption.
Qed.

Lemma failed_attempts_calls (b : BackoffStrategy) (errs : list error) :
  forall attempt, calls (failed_attempts b errs attempt) = map Returns errs.
Proof.
  induction errs as [|e [|e' rest] IH]; intros attempt; try reflexivity.
  change (Returns e :: calls (failed_attempts b (e' :: rest) (attempt + 1))
          = Returns e :: map Returns (e' :: rest)).
  rewrite IH. reflexivity.
Qed.

Lemma failed_attempts_sleeps (b : BackoffStrategy) (errs : list error) :
  forall k : nat,
    sleeps (failed_attempts b errs (Z.of_nat k))
    = map (fun i => GetDelay b (Z.of_nat i)) (seq k (length errs - 1)).
Proof.
  induction errs as [|e [|e' rest] IH]; intros k; try reflexivity.
  change (GetDelay b (Z.of_nat k)
            :: sleeps (failed_attempts b (e' :: rest) (Z.of_nat k + 1))
          = map (fun i => GetDelay b (Z.of_nat i))
                (seq k (S (length rest)))).
  replace (Z.of_nat k + 1) with (Z.of_nat (S k)) by lia.
  rewrite IH. simpl. rewrite ?Nat.sub_0_r. reflexivity.
Qed.

Lemma attempts_stop_at_nil (n : nat) :
  forall (attempt : Z) (lastErr : error) (s s' : St)
         (o : outcome error) (t pre post : list event),
    attempts r fn n attempt lastErr s = (o, s', t) ->
    t = pre ++ EvCall (Returns ErrNil) :: post ->
    post = [] /\ o = Returns ErrNil.
Proof.
  induction n as [|n IH]; intros attempt lastErr s s' o t pre post Hrun Ht.
  - cbn in Hrun. inversion Hrun; subst. destruct pre; discriminate.
  - cbn [attempts] in Hrun.
    apply bind_eq in Hrun as [(e & s1 & t1 & t2 & Hcall & Hk & Happ) | (v & Hcall & Ho)];
      unfold call in Hcall; destruct (fn s) as [o1 s1'] eqn:Hfn;
      injection Hcall as Ho1 Hs1 Ht1.
    + rewrite Happ, <- Ht1 in Ht. clear Happ Ht1. subst o1.
      destruct (is_nil e) eqn:He.
      * destruct e; try discriminate. injection Hk as <- _ <-.
        destruct pre as [|x pre]; cbn in Ht.
        -- injection Ht as <-. split; reflexivity.
        -- injection Ht as _ Hnil. destruct pre; discriminate.
      * assert (Hne : e <> ErrNil) by (intros ->; discriminate).
        destruct pre as [|x pre]; cbn in Ht; [congruence |].
        injection Ht as _ Ht.
        apply bind_eq in Hk as [(u & s2 & t3 & t4 & Hsl & Hk & Happ) | (v & Hsl & _)].
        -- rewrite Happ in Ht. clear Happ.
           destruct (attempt <? Int64.sub (maxAttempts r) 1);
             injection Hsl as _ <- <-.
           ++ destruct pre as [|y pre]; cbn in Ht; [discriminate |].
              injection Ht as _ Ht. eapply IH; eauto.
           ++ eapply IH; eauto.
        -- destruct (attempt <? Int64.sub (maxAttempts r) 1); discriminate.
    + rewrite <- Ht1, Ho1 in Ht.
      destruct pre as [|x pre]; cbn in Ht; [discriminate |].
      injection Ht as _ Ht. destruct pre; discriminate.
Qed.

End RetryFacts.

Lemma failing_always_fails : RetrySpec.always_fails failing.
Proof. intros s. exists (ErrNew "boom"), (S s). split; reflexivity. Qed.

(** Scenario D of the specification: three attempts with a fixed 10ms
    backoff around a function that fails twice, then succeeds. *)
Example retry_scenario_D :
  Retry.Execute
    (Retry.NewRetry 3 (10 * Millisecond)
       (Some (Fixed {| FixedBackoff.Delay := 10 * Millisecond |})))
    (flaky 2) 0%nat
  = (Returns ErrNil, 3%nat,
     [GoM.EvCall (Returns (ErrNew "boom")); GoM.EvSleep (10 * Millisecond);
      GoM.EvCall (Returns (ErrNew "boom")); GoM.EvSleep (10 * Millisecond);
      GoM.EvCall (Returns ErrNil)]).
Proof. reflexivity. Qed.

(** C7: with [maxAttempts = N >= 1] and a function that always fails,
    [Execute] invokes it exactly [N] times, sleeps
    [backoff.GetDelay attempt] between attempt [attempt] and the next
    one, and returns an error that wraps the last failure and carries
    [N]; and whenever an invocation returns [nil], nothing follows it
    and [Execute] returns [nil]. *)
Theorem retry_execute {St : Type} (r : Retry.t)
    (fn : St -> outcome error * St) (s : St) :
  1 <= Retry.maxAttempts r <= Int64.max_int ->
  (RetrySpec.always_fails fn ->
   exists (errs : list error) (s' : St) (t : list GoM.event),
     Retry.Execute r fn s
     = (Returns (Errorf Retry.retry_failed (Retry.maxAttempts r)
                        (last errs ErrNil)), s', t)
     /\ t = RetrySpec.failed_attempts (Retry.backoff r) errs 0
     /\ GoM.calls t = map Returns errs
     /\ Z.of_nat (length errs) = Retry.maxAttempts r
     /\ Forall (fun e => is_nil e = false) errs
     /\ GoM.sleeps t
        = map (fun i => GetDelay (Retry.backoff r) (Z.of_nat i))
              (seq 0 (Z.to_nat (Retry.maxAttempts r) - 1)))
  /\ (forall o s' t pre post,
        Retry.Execute r fn s = (o, s', t) ->
        t = pre ++ GoM.EvCall (Returns ErrNil) :: post ->
        post = [] /\ o = Returns ErrNil).
Proof.
  intros [Hlo Hhi]. split.
  - intros Hfail.
    destruct (attempts_always_failing r fn (Z.to_nat (Retry.maxAttempts r))
                Hfail 0 ErrNil s ltac:(lia) ltac:(lia) Hhi)
      as (errs & s' & Hrun & Hlen & Hall).
    exists errs, s', (RetrySpec.failed_attempts (Retry.backoff r) errs 0).
    repeat split; auto.
    + apply failed_attempts_calls.
    + lia.
    + rewrite <- Hlen. apply (failed_attempts_sleeps _ _ 0%nat).
  - intros o s' t pre post. apply attempts_stop_at_nil.
Qed.

Lemma retry_execute_witness :
  exists (errs : list error) (s' : nat) (t : list GoM.event),
    Retry.Execute (Retry.NewRetry 3 (10 * Millisecond) None) failing 0%nat
    = (Returns (Errorf Retry.retry_failed 3 (last errs ErrNil)), s', t)
    /\ t = RetrySpec.failed_attempts
             (Fixed {| FixedBackoff.Delay := 10 * Millisecond |}) errs 0
    /\ GoM.calls t = map Returns errs
    /\ Z.of_nat (length errs) = 3
    /\ Forall (fun e => is_nil e = false) errs
    /\ GoM.sleeps t = [10 * Millisecond; 10 * Millisecond].
Proof.
  assert (H : 1 <= 3 <= Int64.max_int) by (vm_compute; split; discriminate).
  exact (proj1 (retry_execute (Retry.NewRetry 3 (10 * Millisecond) None)
                  failing 0%nat H) failing_always_fails).
Defined.

(** ** Circuit breaker *)

Section BreakerFacts.

Import GoM CircuitBreaker CircuitSpec.

Context {U : Type}.
Variable clock : U -> Z.

Lemma attempt_eq (fn : U -> outcome error * U) (w : world U) :
  attempt clock fn w
  = match fn (user w) with
    | (Returns e, u') =>
        (Returns e,
         {| breaker := if is_nil e then record_success (breaker w)
                       else record_failure (clock u') (breaker w);
            user := u' |},
         [EvCall (Returns e)])
    | (Panics v, u') =>
        (Panics v, {| breaker := breaker w; user := u' |}, [EvCall (Panics v)])
    end.
Proof.
  unfold attempt, bind, call, on_user.
  destruct (fn (user w)) as [[e | v] u']; [| reflexivity].
  destruct (is_nil e); reflexivity.
Qed.

Lemma Execute_eq (fn : U -> outcome error * U) (w : world U) :
  Execute clock fn w
  = match state (breaker w) with
    | StateOpen =>
        if Int64.saturate (clock (user w) - lastFailureTime (breaker w))
           >? resetTimeout (breaker w)
        then attempt clock fn (on_breaker (set_state StateHalfOpen) w)
        else (Returns circuit_open, w, [])
    | _ => attempt clock fn w
    end.
Proof.
  unfold Execute, check_state, time_Since, time_Now, bind, gets, modify, ret.
  destruct (state (breaker w)); cbn.
  - destruct (attempt clock fn w) as [[o s] t]. reflexivity.
  - destruct (_ >? _); cbn; [| reflexivity].
    destruct (attempt clock fn _) as [[o s] t]. reflexivity.
  - destruct (attempt clock fn w) as [[o s] t]. reflexivity.
Qed.

Lemma record_failure_inv (n now : Z) (cb : t) (s : CircuitState) :
  n < Int64.max_int ->
  breaker_inv n (set_state s cb) ->
  breaker_inv (n + 1) (record_failure now (set_state s cb)).
Proof.
  unfold breaker_inv, record_failure. cbn. intros Hn [Hfc Hst].
  rewrite add_id
    by (unfold Int64.in_range, Int64.min_int, Int64.max_int in *; lia).
  split; [lia |].
  destruct (Z.geb_spec (failureCount cb + 1) (maxFailures cb)); [lia |].
  intros Hs. specialize (Hst Hs). lia.
Qed.

Lemma record_success_inv (n : Z) (cb : t) :
  breaker_inv n cb -> breaker_inv (n + 1) (record_success cb).
Proof.
  unfold breaker_inv, record_success. cbn. intros [Hfc Hst].
  destruct (state cb) eqn:Es; cbn; (split; [lia |]); try congruence.
  intros Hs. apply Hst. discriminate.
Qed.

Lemma set_state_id (cb : t) : set_state (state cb) cb = cb.
Proof. destruct cb; reflexivity. Qed.

Lemma attempt_inv (n : Z) (fn : U -> outcome error * U) (w : world U) :
  n < Int64.max_int ->
  breaker_inv n (breaker w) ->
  breaker_inv (n + 1) (breaker (snd (fst (attempt clock fn w)))).
Proof.
  intros Hn Hinv. rewrite attempt_eq.
  destruct (fn (user w)) as [[e | v] u']; cbn.
  - destruct (is_nil e).
    + apply record_success_inv, Hinv.
    + rewrite <- (set_state_id (breaker w)) in Hinv |- *.
      apply record_failure_inv; assumption.
  - destruct Hinv as [Hfc Hst]. split; [lia | assumption].
Qed.



Lemma failures_app (t1 t2 : list event) :
  failures (t1 ++ t2) = failures t1 + failures t2.
Proof.
  unfold failures, calls.
  rewrite flat_map_app, filter_app, length_app. lia.
Qed.

Lemma calls_app (t1 t2 : list event) : calls (t1 ++ t2) = calls t1 ++ calls t2.
Proof. apply flat_map_app. Qed.

Lemma failures_nonneg (t : list event) : 0 <= failures t.
Proof. unfold failures. lia. Qed.

(** A breaker that is closed stays closed, counting every failed call,
    as long as the count stays below [maxFailures]. *)
Lemma run_closed (fns : list (U -> outcome error * U)) :
  forall (w : world U),
    state (breaker w) = StateClosed ->
    0 <= failureCount (breaker w) ->
    maxFailures (breaker w) <= Int64.max_int ->
    failureCount (breaker w) + failures (snd (run clock (map OpExecute fns) w))
      < maxFailures (breaker w) ->
    let w' := fst (run clock (map OpExecute fns) w) in
    state (breaker w') = StateClosed
    /\ failureCount (breaker w')
       = failureCount (breaker w)
         + failures (snd (run clock (map OpExecute fns) w))
    /\ maxFailures (breaker w') = maxFailures (breaker w)
    /\ length (calls (snd (run clock (map OpExecute fns) w))) = length fns.
Proof.
  induction fns as [|fn fns IH]; intros w Hst Hfc Hmax Hlt.
  - cbn. repeat split; auto. unfold failures. cbn. lia.
  - cbn [map run] in *. cbn [do_op] in *. rewrite Execute_eq, Hst, attempt_eq in *.
    destruct (fn (user w)) as [[e | v] u'] eqn:Hfn.
    + destruct (is_nil e) eqn:He.
      * set (w1 := {| breaker := record_success (breaker w); user := u' |}) in *.
        assert (H1 : state (breaker w1) = StateClosed)
          by (cbn; rewrite Hst; reflexivity).
        assert (H2 : failureCount (breaker w1) = failureCount (breaker w))
          by (cbn; rewrite Hst; reflexivity).
        assert (H3 : maxFailures (breaker w1) = maxFailures (breaker w))
          by reflexivity.
        specialize (IH w1). rewrite H1, H2, H3 in IH.
        destruct (run clock (map OpExecute fns) w1) as [w2 t2].
        cbn [fst snd] in *. rewrite failures_app, calls_app, length_app in *.
        assert (Hz : failures [EvCall (Returns e)] = 0)
          by (unfold failures; cbn; rewrite He; reflexivity).
        rewrite Hz in *. cbn [calls flat_map app length] in *.
        destruct (IH eq_refl Hfc Hmax ltac:(lia)) as (? & ? & ? & ?).
        repeat split; auto; lia.
      * set (w1 := {| breaker := record_failure (clock u') (breaker w);
                      user := u' |}) in *.
        assert (Hone : failures [EvCall (Returns e)] = 1)
          by (unfold failures; cbn; rewrite He; reflexivity).
        assert (Hadd : Int64.add (failureCount (breaker w)) 1
                       = failureCount (breaker w) + 1).
        { match type of Hlt with
          | _ + failures ?t < _ => pose proof (failures_nonneg t)
          end.
          apply add_id.
          unfold Int64.in_range, Int64.min_int, Int64.max_int in *. lia. }
        assert (H3 : maxFailures (breaker w1) = maxFailures (breaker w))
          by reflexivity.
        assert (H2 : failureCount (breaker w1) = failureCount (breaker w) + 1)
          by (cbn; exact Hadd).
        specialize (IH w1). rewrite H2, H3 in IH.
        destruct (run clock (map OpExecute fns) w1) as [w2 t2] eqn:Hrun.
        cbn [fst snd] in *. rewrite failures_app, calls_app, length_app in *.
        rewrite Hone in *. cbn [calls flat_map app length] in *.
        pose proof (failures_nonneg t2).
        assert (H1 : state (breaker w1) = StateClosed).
        { cbn. rewrite Hadd, Hst.
          destruct (Z.geb_spec (failureCount (breaker w) + 1)
                      (maxFailures (breaker w))); [lia | reflexivity]. }
        destruct (IH H1 ltac:(lia) Hmax ltac:(lia)) as (? & ? & ? & ?).
        repeat split; auto; lia.
    + set (w1 := {| breaker := breaker w; user := u' |}) in *.
      specialize (IH w1). cbn [breaker w1] in IH.
      destruct (run clock (map OpExecute fns) w1) as [w2 t2].
      cbn [fst snd] in *. rewrite failures_app, calls_app, length_app in *.
      assert (Hz : failures [EvCall (Panics v)] = 0) by reflexivity.
      rewrite Hz in *. cbn [calls flat_map app length] in *.
      destruct (IH Hst Hfc Hmax ltac:(lia)) as (? & ? & ? & ?).
      repeat split; auto; lia.
Qed.

End BreakerFacts.

(** Scenario B of the specification: [maxFailures = 3],
    [resetTimeout = 200ms]. Three failing calls open the breaker; a
    fourth call at once is rejected without invoking the function; 250ms
    later a successful call closes the breaker. *)
Example breaker_scenario_B :
  let w0 := {| CircuitBreaker.breaker :=
                 CircuitBreaker.NewCircuitBreaker 3 (200 * Millisecond);
               CircuitBreaker.user := 0%nat |} in
  let three := [CircuitBreaker.OpExecute failing;
                CircuitBreaker.OpExecute failing;
                CircuitBreaker.OpExecute failing] in
  let w3 := fst (CircuitBreaker.run tick_clock three w0) in
  CircuitBreaker.state (CircuitBreaker.breaker w3) = CircuitBreaker.StateOpen
  /\ CircuitBreaker.Execute tick_clock succeeding w3
     = (Returns CircuitBreaker.circuit_open, w3, [])
  /\ CircuitBreaker.state
       (CircuitBreaker.breaker
          (fst (CircuitBreaker.run tick_clock
                  [CircuitBreaker.OpCaller (fun s => (s + 250)%nat);
                   CircuitBreaker.OpExecute succeeding] w3)))
     = CircuitBreaker.StateClosed.
Proof. vm_compute. repeat split. Qed.

(** C3 (as stated) fails: with [maxFailures = 3] the calls fail, fail,
    succeed, fail never contain more than two failures in a row, and yet
    the breaker is open after them. *)
Lemma breaker_opens_without_consecutive_failures :
  let w0 := {| CircuitBreaker.breaker :=
                 CircuitBreaker.NewCircuitBreaker 3 (200 * Millisecond);
               CircuitBreaker.user := 0%nat |} in
  let r := CircuitBreaker.run tick_clock
             (map CircuitBreaker.OpExecute
                  [failing; failing; succeeding; failing]) w0 in
  CircuitSpec.longest_failure_run (snd r) = 2
  /\ 2 < CircuitBreaker.maxFailures (CircuitBreaker.breaker w0)
  /\ CircuitBreaker.state (CircuitBreaker.breaker (fst r))
     <> CircuitBreaker.StateClosed
  /\ CircuitBreaker.state (CircuitBreaker.breaker (fst r))
     = CircuitBreaker.StateOpen.
Proof. vm_compute. repeat split; discriminate. Qed.

(** C3 (amended): starting from the initial closed breaker with
    [maxFailures >= 1], the failure counter counts every failed call,
    successes in between do not reset it: the breaker stays closed while
    fewer than [maxFailures] calls have failed in total, and the failed
    call that brings the total to [maxFailures] opens it and records the
    time of that failure. *)
Theorem breaker_opens_on_cumulative_failures {U : Type} (clock : U -> Z)
    (maxFailures resetTimeout : Z)
    (fns : list (U -> outcome error * U)) (u : U) :
  1 <= maxFailures <= Int64.max_int ->
  let w0 := {| CircuitBreaker.breaker :=
                 CircuitBreaker.NewCircuitBreaker maxFailures resetTimeout;
               CircuitBreaker.user := u |} in
  let w := fst (CircuitBreaker.run clock (map CircuitBreaker.OpExecute fns) w0) in
  let t := snd (CircuitBreaker.run clock (map CircuitBreaker.OpExecute fns) w0) in
  (CircuitSpec.failures t < maxFailures ->
   CircuitBreaker.state (CircuitBreaker.breaker w) = CircuitBreaker.StateClosed
   /\ CircuitBreaker.failureCount (CircuitBreaker.breaker w)
      = CircuitSpec.failures t
   /\ length (GoM.calls t) = length fns)
  /\ (CircuitSpec.failures t = maxFailures - 1 ->
      forall fn e u',
        fn (CircuitBreaker.user w) = (Returns e, u') ->
        is_nil e = false ->
        exists cb',
          CircuitBreaker.Execute clock fn w
          = (Returns e,
             {| CircuitBreaker.breaker := cb'; CircuitBreaker.user := u' |},
             [GoM.EvCall (Returns e)])
          /\ CircuitBreaker.state cb' = CircuitBreaker.StateOpen
          /\ CircuitBreaker.lastFailureTime cb' = clock u'
          /\ CircuitBreaker.failureCount cb' = maxFailures).
Proof.
  intros [Hlo Hhi] w0 w t.
  assert (Hclosed :
    CircuitSpec.failures t < maxFailures ->
    CircuitBreaker.state (CircuitBreaker.breaker w) = CircuitBreaker.StateClosed
    /\ CircuitBreaker.failureCount (CircuitBreaker.breaker w)
       = CircuitSpec.failures t
    /\ length (GoM.calls t) = length fns).
  { intros Hlt.
    destruct (run_closed clock fns w0 eq_refl ltac:(cbn; lia) Hhi
                ltac:(cbn; fold t; lia)) as (H1 & H2 & _ & H4).
    fold w in H1, H2. fold t in H2, H4. cbn in H2. auto. }
  split; [exact Hclosed |].
  intros Heq fn e u' Hfn He.
  destruct (Hclosed ltac:(lia)) as (Hst & Hfc & _).
  assert (Hmf : CircuitBreaker.maxFailures (CircuitBreaker.breaker w) = maxFailures).
  { destruct (run_closed clock fns w0 eq_refl ltac:(cbn; lia) Hhi
                ltac:(cbn; fold t; lia)) as (_ & _ & H3 & _).
    exact H3. }
  rewrite Execute_eq, Hst, attempt_eq, Hfn, He.
  eexists. split; [reflexivity |].
  cbn. rewrite Hfc, Heq, Hmf.
  rewrite add_id
    by (unfold Int64.in_range, Int64.min_int, Int64.max_int in *; lia).
  replace (maxFailures - 1 + 1) with maxFailures by lia.
  rewrite Z.geb_leb, Z.leb_refl. auto.
Qed.

Lemma breaker_opens_on_cumulative_failures_witness :
  let w0 := {| CircuitBreaker.breaker :=
                 CircuitBreaker.NewCircuitBreaker 3 (200 * Millisecond);
               CircuitBreaker.user := 0%nat |} in
  let r := CircuitBreaker.run tick_clock
             (map CircuitBreaker.OpExecute [failing; succeeding; failing]) w0 in
  exists cb',
    CircuitBreaker.Execute tick_clock failing (fst r)
    = (Returns (ErrNew "boom"),
       {| CircuitBreaker.breaker := cb'; CircuitBreaker.user := 4%nat |},
       [GoM.EvCall (Returns (ErrNew "boom"))])
    /\ CircuitBreaker.state cb' = CircuitBreaker.StateOpen
    /\ CircuitBreaker.lastFailureTime cb' = tick_clock 4
    /\ CircuitBreaker.failureCount cb' = 3.
Proof.
  assert (H : 1 <= 3 <= Int64.max_int) by (vm_compute; split; discriminate).
  exact (proj2 (breaker_opens_on_cumulative_failures tick_clock 3
                  (200 * Millisecond) [failing; succeeding; failing] 0%nat H)
           eq_refl failing (ErrNew "boom") 4%nat eq_refl eq_refl).
Defined.



(** ** Rate limiter *)

Section RateLimiterFacts.

Import RateLimiter.

Lemma fill_room (n : nat) :
  forall (c : Chan.t unit),
    Chan.closed c = false ->
    Chan.recvq c = 0%nat ->
    (length (Chan.buf c) + n <= Chan.cap c)%nat ->
    fill n c
    = Some {| Chan.buf := Chan.buf c ++ repeat tt n; Chan.cap := Chan.cap c;
              Chan.closed := false; Chan.recvq := 0 |}.
Proof.
  induction n as [|n IH]; intros c Hopen Hq Hroom.
  - cbn. rewrite app_nil_r. destruct c; cbn in *; subst. reflexivity.
  - cbn [fill]. unfold Chan.try_send. rewrite Hopen, Hq.
    change (0 <? 0)%nat with false. cbv iota.
    destruct (Nat.ltb_spec (length (Chan.buf c)) (Chan.cap c)); [| lia].
    rewrite IH; cbn [Chan.buf Chan.cap Chan.closed Chan.recvq];
      rewrite ?length_app; cbn [length]; try lia; auto.
    rewrite <- app_assoc. reflexivity.
Qed.

Lemma created_tokens (limit interval : Z) (rl : t) :
  NewRateLimiter limit interval = Created rl ->
  1 <= limit
  /\ tokens rl
     = {| Chan.buf := repeat tt (Z.to_nat limit); Chan.cap := Z.to_nat limit;
          Chan.closed := false; Chan.recvq := 0 |}.
Proof.
  unfold NewRateLimiter.
  destruct (Z.ltb_spec limit 0); [discriminate |].
  rewrite fill_room by (cbn; auto; lia). cbn [Chan.make Chan.buf Chan.cap app].
  destruct (Z.eqb_spec limit 0); [discriminate |].
  destruct (Int64.quot interval limit <=? 0); [discriminate |].
  intros Hrl. injection Hrl as <-. cbn. split; [lia | reflexivity].
Qed.

Lemma allow_times_burst (n : nat) :
  forall (rl : t) (k : nat),
    Chan.buf (tokens rl) = repeat tt k ->
    Chan.closed (tokens rl) = false ->
    fst (allow_times n rl)
    = repeat true (Nat.min n k) ++ repeat false (n - k).
Proof.
  induction n as [|n IH]; intros rl k Hbuf Hopen; [reflexivity |].
  cbn [allow_times]. unfold Allow, Chan.try_recv. rewrite Hbuf.
  destruct k as [|k]; cbn [repeat].
  - rewrite Hopen.
    specialize (IH rl 0%nat Hbuf Hopen).
    destruct (allow_times n rl) as [bs rl2]. cbn in *. rewrite IH.
    rewrite Nat.min_0_r, Nat.sub_0_r. reflexivity.
  - match goal with
    | |- context [allow_times n ?r] => specialize (IH r k eq_refl Hopen);
        destruct (allow_times n r) as [bs rl2]
    end.
    cbn in *. rewrite IH. reflexivity.
Qed.

End RateLimiterFacts.

(** A limiter is created whenever the limit is positive and the refill
    period [interval / limit] is. *)
Lemma rate_limiter_created (limit interval : Z) :
  1 <= limit -> 0 < Int64.quot interval limit ->
  exists rl, RateLimiter.NewRateLimiter limit interval = RateLimiter.Created rl.
Proof.
  intros Hl Hp. unfold RateLimiter.NewRateLimiter.
  destruct (Z.ltb_spec limit 0); [lia |].
  rewrite fill_room by (cbn; auto; lia).
  destruct (Z.eqb_spec limit 0); [lia |].
  destruct (Z.leb_spec (Int64.quot interval limit) 0); [lia |].
  eexists. reflexivity.
Qed.

(** C9: a freshly created limiter holds exactly [limit] tokens, so of
    [n] calls of [Allow] made before any refill the first [limit] answer
    [true] and all further ones [false]; with [limit = 3] five calls
    answer true, true, true, false, false. *)
Theorem rate_limiter_initial_burst (limit interval : Z) (rl : RateLimiter.t)
    (n : nat) :
  RateLimiter.NewRateLimiter limit interval = RateLimiter.Created rl ->
  RateLimiter.GetAvailableTokens rl = limit
  /\ fst (RateLimiter.allow_times n rl)
     = repeat true (Nat.min n (Z.to_nat limit))
       ++ repeat false (n - Z.to_nat limit)
  /\ (limit = 3 ->
      fst (RateLimiter.allow_times 5 rl) = [true; true; true; false; false]).
Proof.
  intros Hnew. destruct (created_tokens _ _ _ Hnew) as [Hpos Htok].
  assert (Hburst : forall m,
             fst (RateLimiter.allow_times m rl)
             = repeat true (Nat.min m (Z.to_nat limit))
               ++ repeat false (m - Z.to_nat limit)).
  { intros m. apply allow_times_burst; rewrite Htok; reflexivity. }
  split; [| split].
  - unfold RateLimiter.GetAvailableTokens, Chan.len. rewrite Htok. cbn.
    rewrite repeat_length. lia.
  - apply Hburst.
  - intros ->. rewrite Hburst. reflexivity.
Qed.

Lemma rate_limiter_initial_burst_witness :
  exists rl,
    RateLimiter.NewRateLimiter 3 Second = RateLimiter.Created rl
    /\ RateLimiter.GetAvailableTokens rl = 3
    /\ fst (RateLimiter.allow_times 5 rl) = [true; true; true; false; false].
Proof.
  eexists. split; [reflexivity |].
  pose proof (rate_limiter_initial_burst 3 Second _ 5 eq_refl) as (H1 & _ & H3).
  split; [exact H1 | exact (H3 eq_refl)].
Defined.

(** ** Worker pool *)

Section PoolFacts.

Import Pool.

Lemma step_keeps_closed (p : t) (e : event) :
  Chan.closed (jobQueue p) = true ->
  Chan.closed (jobQueue (step p e)) = true.
Proof.
  intros Hc. destruct e; cbn [step]; auto.
  - unfold Submit, Chan.try_send. rewrite Hc. exact Hc.
  - unfold dispatch, Chan.try_recv.
    destruct (Chan.buf (jobQueue p)); cbn; rewrite ?Hc; cbn; auto.
  - unfold Chan.try_recv.
    destruct (Chan.buf (jobQueue p)); cbn; rewrite ?Hc; cbn; auto.
  - unfold Stop. destruct (Chan.close (quit p)); cbn; auto.
  - unfold StopGracefully_close, Chan.close. rewrite Hc. cbn. exact Hc.
  - unfold StopGracefully_quit, Stop. destruct (Chan.close (quit p)); cbn; auto.
Qed.

Lemma run_keeps_closed (evs : list event) :
  forall p : t,
    Chan.closed (jobQueue p) = true ->
    Chan.closed (jobQueue (run evs p)) = true.
Proof.
  induction evs as [|e evs IH]; intros p Hc; [exact Hc |].
  cbn. apply IH, step_keeps_closed, Hc.
Qed.

Lemma close_closes (p p1 : t) :
  StopGracefully_close p = Returns p1 ->
  Chan.closed (jobQueue p1) = true.
Proof.
  unfold StopGracefully_close, Chan.close.
  destruct (Chan.closed (jobQueue p)); [discriminate |].
  intros H. injection H as <-. reflexivity.
Qed.

End PoolFacts.

(** The pool of the examples: two workers, a queue of two. *)
Example small_pool :
  Pool.NewPool (Some {| Pool.MaxWorkers := 2; Pool.QueueSize := 2;
                        Pool.WorkerTimeout := 0; Pool.JobTimeout := 0 |})
  = Returns {| Pool.maxWorkers := 2; Pool.workerCount := 0;
               Pool.jobQueue := Chan.make 2; Pool.quit := Chan.make 0;
               Pool.stats := Pool.zero_stats |}.
Proof. reflexivity. Qed.

(** C5 (as stated) fails twice: a queue that [StopGracefully] has closed
    makes [Submit] panic although it holds fewer than [QueueSize] jobs;
    and with [QueueSize = 0] the queue always holds [QueueSize] jobs,
    yet [Submit] returns [nil] when the dispatcher is parked on it. *)
Lemma submit_not_always_nil_or_full :
  let job := {| Pool.ID := "job"; Pool.Timeout := 0; Pool.Fn := Returns ErrNil |} in
  (exists p p1,
      Pool.NewPool (Some {| Pool.MaxWorkers := 2; Pool.QueueSize := 2;
                            Pool.WorkerTimeout := 0; Pool.JobTimeout := 0 |})
      = Returns p
      /\ Pool.StopGracefully_close p = Returns p1
      /\ Chan.len (Pool.jobQueue p1) < 2
      /\ fst (Pool.Submit p1 job) <> Returns ErrNil)
  /\ (exists p,
         Pool.NewPool (Some {| Pool.MaxWorkers := 2; Pool.QueueSize := 0;
                               Pool.WorkerTimeout := 0; Pool.JobTimeout := 0 |})
         = Returns p
         /\ let p1 := Pool.step p Pool.EvDispatcherParks in
            Chan.len (Pool.jobQueue p1) = 0
            /\ fst (Pool.Submit p1 job) <> Returns Pool.ErrPoolFull).
Proof.
  split.
  - eexists. eexists. split; [reflexivity |]. split; [reflexivity |].
    split; [reflexivity | discriminate].
  - eexists. split; [reflexivity |]. split; [reflexivity | discriminate].
Qed.

(** C5 (amended): on a job queue that has not been closed and has
    [QueueSize >= 1], [Submit] never parks: when the queue holds fewer
    than [QueueSize] jobs it returns [nil] and the job is accepted
    (appended to the queue, or handed to the dispatcher when that is
    parked on the empty queue); when the queue holds [QueueSize] jobs it
    returns [ErrPoolFull] and leaves the pool as it was. *)
Theorem submit_open_queue (p : Pool.t) (job : Pool.Job) :
  Chan.well_formed (Pool.jobQueue p) ->
  Chan.closed (Pool.jobQueue p) = false ->
  (1 <= Chan.cap (Pool.jobQueue p))%nat ->
  let q := Pool.jobQueue p in
  ((length (Chan.buf q) < Chan.cap q)%nat ->
   exists q',
     Pool.Submit p job = (Returns ErrNil, Pool.with_jobQueue q' p)
     /\ Chan.cap q' = Chan.cap q
     /\ Chan.closed q' = false
     /\ ((Chan.recvq q = 0%nat /\ Chan.recvq q' = 0%nat
          /\ Chan.buf q' = Chan.buf q ++ [job])
         \/ (Chan.recvq q = S (Chan.recvq q')
             /\ Chan.buf q = [] /\ Chan.buf q' = [])))
  /\ (length (Chan.buf q) = Chan.cap q ->
      Pool.Submit p job = (Returns Pool.ErrPoolFull, p)).
Proof.
  intros [Hlen Hq] Hopen Hcap q. subst q. split.
  - intros Hroom. unfold Pool.Submit, Chan.try_send. rewrite Hopen.
    destruct (Nat.ltb_spec 0 (Chan.recvq (Pool.jobQueue p))) as [Hwait | Hnone].
    + destruct (Hq Hwait) as [Hempty _].
      eexists. split; [reflexivity |]. cbn. repeat split.
      right. split; [lia | auto].
    + destruct (Nat.ltb_spec (length (Chan.buf (Pool.jobQueue p)))
                  (Chan.cap (Pool.jobQueue p))); [| lia].
      eexists. split; [reflexivity |]. cbn. repeat split.
      left. split; [lia |]. split; [lia | reflexivity].
  - intros Hfull. unfold Pool.Submit, Chan.try_send. rewrite Hopen.
    destruct (Nat.ltb_spec 0 (Chan.recvq (Pool.jobQueue p))) as [Hwait | Hnone].
    + destruct (Hq Hwait) as [Hempty _]. rewrite Hempty in Hfull.
      cbn in Hfull. lia.
    + destruct (Nat.ltb_spec (length (Chan.buf (Pool.jobQueue p)))
                  (Chan.cap (Pool.jobQueue p))); [lia | reflexivity].
Qed.

Lemma submit_open_queue_witness :
  let job := {| Pool.ID := "job"; Pool.Timeout := 0; Pool.Fn := Returns ErrNil |} in
  let p := {| Pool.maxWorkers := 2; Pool.workerCount := 0;
              Pool.jobQueue := Chan.make 2; Pool.quit := Chan.make 0;
              Pool.stats := Pool.zero_stats |} in
  let p2 := Pool.run [Pool.EvSubmit job; Pool.EvSubmit job] p in
  Pool.Submit p2 job = (Returns Pool.ErrPoolFull, p2).
Proof.
  intros job p p2.
  refine (proj2 (submit_open_queue p2 job _ eq_refl _) eq_refl).
  - split; [cbn; lia | intros H; cbn in H; lia].
  - cbn; lia.
Defined.

(** C10: once [StopGracefully] has closed the job queue, whatever the
    pool's goroutines and callers do afterwards, every [Submit] panics
    with "send on closed channel": it returns no error value, neither
    [ErrPoolFull] nor any other, the pool is left as it was, and the
    panic is the outcome of [Submit] itself in its caller. *)
Theorem submit_after_stop_gracefully (p p1 : Pool.t)
    (evs : list Pool.event) (job : Pool.Job) :
  Pool.StopGracefully_close p = Returns p1 ->
  Pool.Submit (Pool.run evs p1) job = (Panics send_on_closed, Pool.run evs p1)
  /\ (forall e : error,
         fst (Pool.Submit (Pool.run evs p1) job) <> Returns e).
Proof.
  intros Hclose.
  pose proof (run_keeps_closed evs p1 (close_closes p p1 Hclose)) as Hc.
  assert (Hsub : Pool.Submit (Pool.run evs p1) job
                 = (Panics send_on_closed, Pool.run evs p1)).
  { unfold Pool.Submit, Chan.try_send. rewrite Hc. reflexivity. }
  split; [exact Hsub |].
  intros e. rewrite Hsub. discriminate.
Qed.

Lemma submit_after_stop_gracefully_witness :
  let job := {| Pool.ID := "job"; Pool.Timeout := 0; Pool.Fn := Returns ErrNil |} in
  let p := {| Pool.maxWorkers := 2; Pool.workerCount := 0;
              Pool.jobQueue := Chan.make 2; Pool.quit := Chan.make 0;
              Pool.stats := Pool.zero_stats |} in
  let p1 := Pool.with_jobQueue
              {| Chan.buf := []; Chan.cap := 2; Chan.closed := true;
                 Chan.recvq := 0 |} p in
  let later := Pool.run [Pool.EvDispatch 5; Pool.EvStopGracefullyQuit] p1 in
  Pool.Submit later job = (Panics send_on_closed, later).
Proof.
  intros job p p1 later.
  exact (proj1 (submit_after_stop_gracefully p p1
                  [Pool.EvDispatch 5; Pool.EvStopGracefullyQuit] job eq_refl)).
Defined.

(** The running average divides by one more than the number of jobs
    finished so far *including* the job just finished: with [n] jobs
    averaged before, the update is [(avg * (n+1) + new) / (n+2)]. *)
Lemma record_job_average (err : error) (jobTime : Z) (st : Pool.PoolStats) :
  let n := Pool.CompletedJobs st + Pool.FailedJobs st in
  0 <= Pool.CompletedJobs st ->
  0 <= Pool.FailedJobs st ->
  n + 2 <= Int64.max_int ->
  Int64.in_range (Pool.AverageJobTime st * (n + 1)) ->
  Int64.in_range (Pool.AverageJobTime st * (n + 1) + jobTime) ->
  Pool.AverageJobTime (Pool.record_job err jobTime st)
  = Z.quot (Pool.AverageJobTime st * (n + 1) + jobTime) (n + 2).
Proof.
  intros n Hc Hf Hn Hmul Hsum. subst n. unfold Pool.record_job. cbn.
  assert (Hr : forall x, 0 <= x <= Int64.max_int -> Int64.in_range x).
  { unfold Int64.in_range, Int64.min_int, Int64.max_int. lia. }
  assert (Htot :
    Int64.add (if is_nil err then Int64.add (Pool.CompletedJobs st) 1
               else Pool.CompletedJobs st)
              (if is_nil err then Pool.FailedJobs st
               else Int64.add (Pool.FailedJobs st) 1)
    = Pool.CompletedJobs st + Pool.FailedJobs st + 1).
  { destruct (is_nil err).
    - rewrite (add_id (Pool.CompletedJobs st) 1) by (apply Hr; lia).
      rewrite add_id by (apply Hr; lia). lia.
    - rewrite (add_id (Pool.FailedJobs st) 1) by (apply Hr; lia).
      rewrite add_id by (apply Hr; lia). lia. }
  rewrite Htot.
  destruct (Z.gtb_spec (Pool.CompletedJobs st + Pool.FailedJobs st + 1) 0);
    [| lia].
  rewrite mul_id by assumption.
  rewrite add_id by assumption.
  rewrite add_id by (apply Hr; lia).
  replace (Pool.CompletedJobs st + Pool.FailedJobs st + 1 + 1)
    with (Pool.CompletedJobs st + Pool.FailedJobs st + 2) by lia.
  apply wrap_id.
  set (x := Pool.AverageJobTime st
            * (Pool.CompletedJobs st + Pool.FailedJobs st + 1) + jobTime) in *.
  set (d := Pool.CompletedJobs st + Pool.FailedJobs st + 2) in *.
  assert (Hd : 2 <= d) by (subst d; lia).
  pose proof (Z.quot_abs x d ltac:(lia)) as Habs.
  rewrite (Z.abs_eq d) in Habs by lia.
  pose proof (Z.mul_quot_le (Z.abs x) d ltac:(lia) ltac:(lia)) as Hle.
  pose proof (Z.quot_pos (Z.abs x) d ltac:(lia) ltac:(lia)) as Hpos.
  unfold Int64.in_range, Int64.min_int, Int64.max_int in *. nia.
Qed.

(** C6 (the code departs from it): the first job a pool finishes takes
    100ms; the claim's formula with no job averaged before gives
    [(0*0 + 100ms)/(0+1) = 100ms], the code stores 50ms, because it
    counts the job just finished among the jobs averaged before. Two
    jobs of 100ms leave an average of 66.67ms. *)
Theorem average_job_time_first_job :
  Pool.AverageJobTime
    (Pool.record_job ErrNil (100 * Millisecond) Pool.zero_stats)
  = 50 * Millisecond
  /\ Z.quot (Pool.AverageJobTime Pool.zero_stats * 0 + 100 * Millisecond) (0 + 1)
     = 100 * Millisecond
  /\ Pool.AverageJobTime
       (Pool.record_job ErrNil (100 * Millisecond)
          (Pool.record_job ErrNil (100 * Millisecond) Pool.zero_stats))
     = 66666666.
Proof. vm_compute. repeat split. Qed.

(** ** Safe executor *)

Section ListFacts.

Context {A : Type}.

Lemma length_set_nth (i : nat) (x : A) (l : list A) :
  length (SafeExecutor.set_nth i x l) = length l.
Proof.
  revert i. induction l as [|y l IH]; intros [|i]; cbn; auto.
Qed.

Lemma nth_error_set_nth_eq (i : nat) (x y : A) (l : list A) :
  nth_error l i = Some y ->
  nth_error (SafeExecutor.set_nth i x l) i = Some x.
Proof.
  revert i. induction l as [|z l IH]; intros [|i]; cbn; try discriminate; auto.
Qed.

Lemma nth_error_set_nth_ne (i j : nat) (x : A) (l : list A) :
  i <> j ->
  nth_error (SafeExecutor.set_nth i x l) j = nth_error l j.
Proof.
  revert i j.
  induction l as [|z l IH]; intros [|i] [|j] Hne; cbn; auto; congruence.
Qed.

Lemma Forall_set_nth (P : A -> Prop) (i : nat) (x : A) (l : list A) :
  Forall P l -> P x -> Forall P (SafeExecutor.set_nth i x l).
Proof.
  intros Hl Hx. revert i.
  induction Hl as [|y l Hy Hl IH]; intros [|i]; cbn; constructor; auto.
Qed.

Lemma firstn_set_nth (k i : nat) (x : A) (l : list A) :
  (k <= i)%nat ->
  firstn k (SafeExecutor.set_nth i x l) = firstn k l.
Proof.
  revert k i. induction l as [|y l IH]; intros [|k] [|i] Hle; cbn; auto.
  - lia.
  - f_equal. apply IH. lia.
Qed.

End ListFacts.

Section ExecutorTraces.

Import SafeExecutor ExecutorSpec.

Lemma advance_coherent (g : goroutine) (p : pc) (evs : list event) :
  coherent g ->
  history (advance p evs g) = history g ++ evs ->
  (p = Counted -> value_is_nil (recovered g) = false) ->
  coherent (advance p evs g).
Proof.
  intros [Hev _] Hhist Hc. split.
  - rewrite Hhist. cbn. rewrite Hev. reflexivity.
  - exact Hc.
Qed.

Lemma history_advance (g : goroutine) (p : pc) (evs : list event) :
  history (advance p evs g)
  = match p with
    | Spawned => []
    | Deferred => body_events g
    | Decremented => body_events g ++ [EvActiveDecremented]
    | Counted => body_events g ++ [EvActiveDecremented] ++ [EvPanicIncremented]
    | Finished =>
        body_events g ++ [EvActiveDecremented]
        ++ (if value_is_nil (recovered g)
            then [EvCompletedIncremented]
            else [EvPanicIncremented] ++ report_events g)
    end.
Proof. destruct p; reflexivity. Qed.

Lemma step_coherent (i : nat) (now : Z) (se se' : t) :
  Forall coherent (goroutines se) ->
  step i now se = Some se' ->
  Forall coherent (goroutines se').
Proof.
  intros Hall. unfold step.
  destruct (nth_error (goroutines se) i) as [g|] eqn:Hg; [| discriminate].
  assert (Hcg : coherent g).
  { rewrite Forall_forall in Hall. apply Hall. eapply nth_error_In, Hg. }
  destruct (g_pc g) eqn:Hpc.
  - intros H. injection H as <-. cbn [goroutines put].
    apply Forall_set_nth; auto.
    apply advance_coherent; auto; [| discriminate].
    rewrite history_advance. unfold history. rewrite Hpc. reflexivity.
  - intros H. injection H as <-. cbn [goroutines put].
    apply Forall_set_nth; auto.
    apply advance_coherent; auto; [| discriminate].
    rewrite history_advance. unfold history. rewrite Hpc. reflexivity.
  - destruct (value_is_nil (recovered g)) eqn:Hnil;
      intros H; injection H as <-; cbn [goroutines put];
      apply Forall_set_nth; auto;
      apply advance_coherent; auto; try discriminate;
      rewrite history_advance; unfold history; rewrite Hpc, ?Hnil;
      rewrite <- ?app_assoc; reflexivity.
  - intros H. injection H as <-. cbn [goroutines put].
    apply Forall_set_nth; auto.
    apply advance_coherent; auto; [| discriminate].
    destruct Hcg as [_ Hcounted]. specialize (Hcounted Hpc).
    rewrite history_advance. unfold history. rewrite Hpc, Hcounted.
    rewrite <- !app_assoc. reflexivity.
  - discriminate.
Qed.

Lemma apply_label_coherent (l : label) (se se' : t) :
  Forall coherent (goroutines se) ->
  apply_label se l = Some se' ->
  Forall coherent (goroutines se').
Proof.
  intros Hall. unfold apply_label.
  destruct (crashed se); [discriminate |].
  destruct l as [c fn stack | i now | h |].
  - intros H. injection H as <-. cbn. apply Forall_app. split; [exact Hall |].
    constructor; [| constructor]. split; [reflexivity | discriminate].
  - apply step_coherent, Hall.
  - intros H. injection H as <-. exact Hall.
  - intros H. injection H as <-. exact Hall.
Qed.

Lemma run_none (ls : list label) : fold_left apply_opt ls None = None.
Proof. induction ls; cbn; auto. Qed.

Lemma run_cons (l : label) (ls : list label) (se : t) :
  run (l :: ls) se
  = match apply_label se l with
    | Some se' => run ls se'
    | None => None
    end.
Proof.
  unfold run. cbn. destruct (apply_label se l); [reflexivity | apply run_none].
Qed.

Lemma run_coherent (ls : list label) :
  forall se se' : t,
    Forall coherent (goroutines se) ->
    run ls se = Some se' ->
    Forall coherent (goroutines se').
Proof.
  induction ls as [|l ls IH]; intros se se' Hall Hrun.
  - injection Hrun as <-. exact Hall.
  - rewrite run_cons in Hrun.
    destruct (apply_label se l) as [se1|] eqn:Hl; [| discriminate].
    eapply IH; [| exact Hrun]. eapply apply_label_coherent; eauto.
Qed.



End ExecutorTraces.

Section ExecutorProgress.

Import SafeExecutor ExecutorSpec.

Variable i : nat.
Variable now : Z.





End ExecutorProgress.

(** Every spawn variant is a [GoWithContext], that is an [LGo] step. *)
Lemma spawn_variants (fn : SafeExecutor.behaviour) (stack : string)
    (expired : bool) (se : SafeExecutor.t) :
  SafeExecutor.crashed se = None ->
  SafeExecutor.apply_label se (SafeExecutor.LGo false fn stack)
  = Some (SafeExecutor.Go fn stack se)
  /\ SafeExecutor.apply_label se (SafeExecutor.LGo expired fn stack)
     = Some (SafeExecutor.GoWithTimeout fn expired stack se)
  /\ SafeExecutor.apply_label se (SafeExecutor.LGo false fn stack)
     = Some (SafeExecutor.GoWithDelay fn stack se).
Proof.
  intros Hc. unfold SafeExecutor.apply_label. rewrite Hc. repeat split.
Qed.

(** The id the handler receives is what [getGoroutineID] cuts out of
    the stack text: its first word. *)
Example getGoroutineID_example :
  SafeExecutor.getGoroutineID example_stack = "goroutine"%string.
Proof. reflexivity. Qed.

Lemma finished_history (g : SafeExecutor.goroutine) :
  SafeExecutor.g_pc g = SafeExecutor.Finished ->
  SafeExecutor.g_events g = ExecutorSpec.history g ->
  let evs := SafeExecutor.g_events g in
  let r := SafeExecutor.recovered g in
  (ExecutorSpec.completed_increments evs
   + ExecutorSpec.panic_increments evs = 1)%nat
  /\ (SafeExecutor.value_is_nil r = true ->
      ExecutorSpec.completed_increments evs = 1%nat
      /\ ExecutorSpec.panic_increments evs = 0%nat
      /\ ExecutorSpec.handler_calls evs = [])
  /\ (SafeExecutor.value_is_nil r = false ->
      ExecutorSpec.panic_increments evs = 1%nat
      /\ ExecutorSpec.completed_increments evs = 0%nat
      /\ ExecutorSpec.handler_calls evs
         = match SafeExecutor.g_handler g with
           | Some _ =>
               [(r, SafeExecutor.g_stack g,
                 SafeExecutor.getGoroutineID (SafeExecutor.g_stack g))]
           | None => []
           end).
Proof.
  intros Hpc Hev evs r. subst evs r. rewrite Hev.
  unfold ExecutorSpec.history. rewrite Hpc.
  unfold SafeExecutor.body_events, SafeExecutor.report_events.
  destruct (SafeExecutor.g_ctx_done g);
    destruct (SafeExecutor.value_is_nil (SafeExecutor.recovered g));
    destruct (SafeExecutor.g_handler g);
    cbn; repeat split; intros; auto; discriminate.
Qed.



Section ExecutorStats.

Import SafeExecutor ExecutorSpec.

Lemma sub_id (x y : Z) : Int64.in_range (x - y) -> Int64.sub x y = x - y.
Proof. apply wrap_id. Qed.

Lemma sumZ_app (f : goroutine -> Z) (l1 l2 : list goroutine) :
  sumZ f (l1 ++ l2) = sumZ f l1 + sumZ f l2.
Proof.
  unfold sumZ. induction l1 as [|g l1 IH]; cbn; [reflexivity | rewrite IH; lia].
Qed.

Lemma sumZ_set_nth (f : goroutine -> Z) (i : nat) (g g' : goroutine)
    (l : list goroutine) :
  nth_error l i = Some g ->
  sumZ f (set_nth i g' l) = sumZ f l - f g + f g'.
Proof.
  unfold sumZ.
  revert i. induction l as [|x l IH]; intros [|i] H; cbn in *; try discriminate.
  - injection H as ->. lia.
  - rewrite (IH i H). lia.
Qed.

Lemma sumZ_bounds (f : goroutine -> Z) (l : list goroutine) :
  (forall g, 0 <= f g <= 1) ->
  0 <= sumZ f l <= Z.of_nat (length l).
Proof.
  intros Hf. induction l as [|g l IH]; cbn [sumZ fold_right length]; [lia |].
  fold (sumZ f l). pose proof (Hf g). lia.
Qed.

Lemma sumZ_member (f : goroutine -> Z) (i : nat) (g : goroutine)
    (l : list goroutine) :
  (forall g, 0 <= f g <= 1) ->
  nth_error l i = Some g ->
  f g <= sumZ f l <= Z.of_nat (length l) - (1 - f g).
Proof.
  intros Hf. revert i.
  induction l as [|x l IH]; intros [|i] H; cbn in H; try discriminate;
    cbn [sumZ fold_right length]; fold (sumZ f l).
  - injection H as ->. pose proof (sumZ_bounds f l Hf). lia.
  - specialize (IH i H). pose proof (Hf x). lia.
Qed.

Lemma active_weight_bounds (g : goroutine) : 0 <= active_weight g <= 1.
Proof. unfold active_weight. destruct (g_pc g); lia. Qed.

Lemma counted_weight_bounds (g : goroutine) : 0 <= counted_weight g <= 1.
Proof. unfold counted_weight. destruct (g_pc g); lia. Qed.

Lemma all_finished_sums (l : list goroutine) :
  forallb is_finished l = true ->
  sumZ active_weight l = 0
  /\ sumZ counted_weight l = Z.of_nat (length l).
Proof.
  unfold sumZ.
  induction l as [|g l IH]; cbn [forallb fold_right length]; [auto |].
  intros H. apply andb_true_iff in H as [Hg Hl].
  destruct (IH Hl) as [Ha Hc]. rewrite Ha, Hc.
  unfold is_finished in Hg. unfold active_weight, counted_weight.
  destruct (g_pc g); try discriminate. lia.
Qed.

Lemma finished_prefix_index (k i : nat) (g : goroutine) (l : list goroutine) :
  forallb is_finished (firstn k l) = true ->
  nth_error l i = Some g ->
  is_finished g = false ->
  (k <= i)%nat.
Proof.
  revert k i. induction l as [|x l IH]; intros [|k] [|i] Hall Hg Hnf;
    cbn in *; try discriminate; try lia.
  - injection Hg as ->. rewrite Hnf in Hall. discriminate.
  - apply andb_true_iff in Hall as [_ Hall].
    specialize (IH k i Hall Hg Hnf). lia.
Qed.

Lemma put_stats_inv (k i : nat) (g g' : goroutine) (st' : Stats)
    (c : option value) (se : t) :
  stats_inv k se ->
  nth_error (goroutines se) i = Some g ->
  is_finished g = false ->
  TotalGoroutines st' = TotalGoroutines (stats se) ->
  ActiveGoroutines st'
  = ActiveGoroutines (stats se) - active_weight g + active_weight g' ->
  0 <= CompletedCount st' ->
  0 <= PanicCount st' ->
  CompletedCount st' + PanicCount st'
  = CompletedCount (stats se) + PanicCount (stats se)
    - counted_weight g + counted_weight g' ->
  stats_inv k (put i g' st' c se).
Proof.
  intros (Hk & Hfin & Htot & Hact & Hc & Hp & Hsum) Hg Hnf Ht Ha Hc' Hp' Hs.
  pose proof (finished_prefix_index k i g _ Hfin Hg Hnf) as Hki.
  unfold stats_inv. cbn [stats goroutines put].
  rewrite length_set_nth, (firstn_set_nth k i) by exact Hki.
  rewrite !(sumZ_set_nth _ i g g') by exact Hg.
  repeat split; auto; lia.
Qed.

Lemma step_stats_inv (k i : nat) (now : Z) (se se' : t) :
  stats_inv k se ->
  Z.of_nat (length (goroutines se)) <= Int64.max_int ->
  step i now se = Some se' ->
  stats_inv k se'.
Proof.
  intros Hinv Hlen. unfold step.
  destruct (nth_error (goroutines se) i) as [g|] eqn:Hg; [| discriminate].
  pose proof Hinv as (Hk & Hfin & Htot & Hact & Hc & Hp & Hsum).
  pose proof (sumZ_member active_weight i g _ active_weight_bounds Hg) as Hma.
  pose proof (sumZ_member counted_weight i g _ counted_weight_bounds Hg) as Hmc.
  assert (Hr : forall x, 0 <= x <= Z.of_nat (length (goroutines se)) ->
                         Int64.in_range x).
  { unfold Int64.in_range, Int64.min_int, Int64.max_int in *. lia. }
  destruct (g_pc g) eqn:Hpc.
  - intros H. injection H as <-.
    apply (put_stats_inv k i g); auto;
      unfold is_finished, active_weight, counted_weight; cbn;
      rewrite ?Hpc; cbn; auto; lia.
  - intros H. injection H as <-.
    assert (Hw : active_weight g = 1) by (unfold active_weight; rewrite Hpc; reflexivity).
    rewrite Hw in Hma.
    apply (put_stats_inv k i g); auto;
      unfold is_finished, active_weight, counted_weight; cbn;
      rewrite ?Hpc; cbn; auto; try lia.
    rewrite sub_id by (apply Hr; lia). lia.
  - assert (Hw : counted_weight g = 0) by (unfold counted_weight; rewrite Hpc; reflexivity).
    rewrite Hw in Hmc.
    destruct (value_is_nil (recovered g)); intros H; injection H as <-;
      apply (put_stats_inv k i g); auto;
      unfold is_finished, active_weight, counted_weight; cbn;
      rewrite ?Hpc; cbn; auto;
      rewrite ?add_id by (apply Hr; lia); lia.
  - intros H. injection H as <-.
    apply (put_stats_inv k i g); auto;
      unfold is_finished, active_weight, counted_weight; cbn;
      rewrite ?Hpc; cbn; auto; lia.
  - discriminate.
Qed.

Lemma apply_label_stats_inv (k : nat) (l : label) (se se' : t) :
  stats_inv k se ->
  apply_label se l = Some se' ->
  reset_allowed l se ->
  Z.of_nat (length (goroutines se')) <= Int64.max_int ->
  exists k',
    stats_inv k' se'
    /\ Z.of_nat (length (goroutines se')) - Z.of_nat k'
       = count_spawn (Z.of_nat (length (goroutines se)) - Z.of_nat k) l.
Proof.
  intros Hinv. unfold apply_label.
  destruct (crashed se); [discriminate |].
  pose proof Hinv as (Hk & Hfin & Htot & Hact & Hc & Hp & Hsum).
  pose proof (sumZ_bounds active_weight (goroutines se) active_weight_bounds) as Hab.
  destruct l as [c fn stack | i now | h |]; cbn [count_spawn reset_allowed].
  - intros H _ Hlen. injection H as <-. cbn in Hlen.
    rewrite length_app in Hlen. cbn in Hlen.
    exists k. unfold stats_inv. cbn [stats goroutines GoWithContext spawned
      TotalGoroutines ActiveGoroutines PanicCount CompletedCount].
    rewrite length_app, !sumZ_app, firstn_app.
    replace (k - length (goroutines se))%nat with 0%nat by lia.
    cbn [firstn length]. rewrite app_nil_r.
    change (sumZ active_weight [_]) with 1.
    change (sumZ counted_weight [_]) with 0.
    rewrite !add_id
      by (unfold Int64.in_range, Int64.min_int, Int64.max_int in *; lia).
    repeat split; auto; lia.
  - intros Hstep _ Hlen.
    assert (Hsame : length (goroutines se') = length (goroutines se)).
    { revert Hstep. unfold step.
      destruct (nth_error (goroutines se) i) as [g|]; [| discriminate].
      destruct (g_pc g); try discriminate;
        try (destruct (value_is_nil (recovered g)));
        intros E; injection E as <-; cbn; apply length_set_nth. }
    exists k. split; [| rewrite Hsame; reflexivity].
    eapply step_stats_inv; eauto. rewrite <- Hsame. exact Hlen.
  - intros H _ _. injection H as <-. exists k. split; [exact Hinv | reflexivity].
  - intros H Hidle _. injection H as <-. unfold idle in Hidle.
    destruct (all_finished_sums _ Hidle) as [Ha Hd].
    exists (length (goroutines se)).
    unfold stats_inv.
    cbn [stats goroutines ResetStats zero_Stats TotalGoroutines
         ActiveGoroutines PanicCount CompletedCount].
    rewrite firstn_all, Ha, Hd.
    repeat split; auto; lia.
Qed.

Lemma apply_label_length (l : label) (se se' : t) :
  apply_label se l = Some se' ->
  (length (goroutines se) <= length (goroutines se'))%nat.
Proof.
  unfold apply_label. destruct (crashed se); [discriminate |].
  destruct l as [c fn stack | i now | h |];
    try (intros H; injection H as <-; cbn; rewrite ?length_app; lia).
  unfold step.
  destruct (nth_error (goroutines se) i) as [g|]; [| discriminate].
  destruct (g_pc g); try discriminate;
    try (destruct (value_is_nil (recovered g)));
    intros E; injection E as <-; cbn; rewrite length_set_nth; lia.
Qed.

Lemma run_length (ls : list label) :
  forall se se' : t,
    run ls se = Some se' ->
    (length (goroutines se) <= length (goroutines se'))%nat.
Proof.
  induction ls as [|l ls IH]; intros se se' Hrun.
  - injection Hrun as <-. lia.
  - rewrite run_cons in Hrun.
    destruct (apply_label se l) as [se1|] eqn:Hl; [| discriminate].
    pose proof (apply_label_length _ _ _ Hl). specialize (IH _ _ Hrun). lia.
Qed.

Lemma run_stats_inv (ls : list label) :
  forall (k : nat) (se se' : t),
    stats_inv k se ->
    run ls se = Some se' ->
    resets_when_idle ls se ->
    Z.of_nat (length (goroutines se')) <= Int64.max_int ->
    exists k',
      stats_inv k' se'
      /\ Z.of_nat (length (goroutines se')) - Z.of_nat k'
         = fold_left count_spawn ls
             (Z.of_nat (length (goroutines se)) - Z.of_nat k).
Proof.
  induction ls as [|l ls IH]; intros k se se' Hinv Hrun Hres Hlen.
  - injection Hrun as <-. exists k. split; [exact Hinv | reflexivity].
  - rewrite run_cons in Hrun. cbn [resets_when_idle] in Hres.
    destruct Hres as [Hallowed Hres].
    destruct (apply_label se l) as [se1|] eqn:Hl; [| discriminate].
    pose proof (run_length _ _ _ Hrun) as Hmono.
    destruct (apply_label_stats_inv k l se se1 Hinv Hl Hallowed ltac:(lia))
      as (k1 & Hinv1 & Hcount).
    destruct (IH k1 se1 se' Hinv1 Hrun Hres Hlen) as (k' & Hinv' & Hfold).
    exists k'. split; [exact Hinv' |]. cbn [fold_left]. rewrite <- Hcount.
    exact Hfold.
Qed.

End ExecutorStats.

(** C2 (as stated) fails: [ResetStats] while a spawned goroutine is
    still running zeroes the counters under it; when that goroutine
    finishes, [ActiveGoroutines] is -1 and [CompletedCount] exceeds
    [TotalGoroutines]. *)
Lemma reset_breaks_stats_invariant :
  let ls := [SafeExecutor.LGo false SafeExecutor.FnReturns example_stack;
             SafeExecutor.LResetStats;
             SafeExecutor.LStep 0 1; SafeExecutor.LStep 0 2;
             SafeExecutor.LStep 0 3] in
  exists se,
    SafeExecutor.run ls SafeExecutor.NewSafeExecutor = Some se
    /\ ExecutorSpec.idle se = true
    /\ SafeExecutor.ActiveGoroutines (SafeExecutor.GetStats se) = -1
    /\ SafeExecutor.TotalGoroutines (SafeExecutor.GetStats se) = 0
    /\ SafeExecutor.CompletedCount (SafeExecutor.GetStats se)
       + SafeExecutor.PanicCount (SafeExecutor.GetStats se) = 1
    /\ ~ (0 <= SafeExecutor.ActiveGoroutines (SafeExecutor.GetStats se))
    /\ ~ (SafeExecutor.CompletedCount (SafeExecutor.GetStats se)
          + SafeExecutor.PanicCount (SafeExecutor.GetStats se)
          <= SafeExecutor.TotalGoroutines (SafeExecutor.GetStats se)).
Proof.
  intros ls. eexists. split; [reflexivity |].
  vm_compute. repeat split; intros H; apply H; reflexivity.
Qed.

(** C2 (amended): in every run in which [ResetStats] is only called
    while no spawned goroutine is unfinished (and fewer than 2^63
    goroutines exist), the statistics satisfy at every point
    [ActiveGoroutines >= 0] and
    [CompletedCount + PanicCount <= TotalGoroutines]; and once all
    spawned goroutines have finished, [ActiveGoroutines = 0] and
    [CompletedCount + PanicCount = TotalGoroutines = N], where [N] is
    the number of goroutines spawned since the last reset. *)
Theorem executor_stats_invariant (ls : list SafeExecutor.label)
    (se : SafeExecutor.t) :
  SafeExecutor.run ls SafeExecutor.NewSafeExecutor = Some se ->
  ExecutorSpec.resets_when_idle ls SafeExecutor.NewSafeExecutor ->
  Z.of_nat (length (SafeExecutor.goroutines se)) <= Int64.max_int ->
  let st := SafeExecutor.GetStats se in
  0 <= SafeExecutor.ActiveGoroutines st
  /\ SafeExecutor.CompletedCount st + SafeExecutor.PanicCount st
     <= SafeExecutor.TotalGoroutines st
  /\ (ExecutorSpec.idle se = true ->
      SafeExecutor.ActiveGoroutines st = 0
      /\ SafeExecutor.CompletedCount st + SafeExecutor.PanicCount st
         = SafeExecutor.TotalGoroutines st
      /\ SafeExecutor.TotalGoroutines st = ExecutorSpec.spawned_since_reset ls).
Proof.
  intros Hrun Hres Hlen st. subst st. unfold SafeExecutor.GetStats.
  assert (H0 : ExecutorSpec.stats_inv 0 SafeExecutor.NewSafeExecutor).
  { unfold ExecutorSpec.stats_inv. cbn. repeat split; auto; lia. }
  destruct (run_stats_inv ls 0 _ se H0 Hrun Hres Hlen) as (k & Hinv & Hcount).
  destruct Hinv as (Hk & Hfin & Htot & Hact & Hc & Hp & Hsum).
  pose proof (sumZ_bounds ExecutorSpec.active_weight
                (SafeExecutor.goroutines se) active_weight_bounds) as Ha.
  pose proof (sumZ_bounds ExecutorSpec.counted_weight
                (SafeExecutor.goroutines se) counted_weight_bounds) as Hd.
  split; [lia |]. split; [lia |].
  intros Hidle. unfold ExecutorSpec.idle in Hidle.
  destruct (all_finished_sums _ Hidle) as [Ha0 Hd0].
  split; [lia |]. split; [lia |].
  unfold ExecutorSpec.spawned_since_reset.
  change (Z.of_nat (length (SafeExecutor.goroutines SafeExecutor.NewSafeExecutor))
          - Z.of_nat 0) with 0 in Hcount.
  rewrite <- Hcount. lia.
Qed.

Lemma executor_stats_invariant_witness :
  let ls := [SafeExecutor.LGo false SafeExecutor.FnReturns example_stack;
             SafeExecutor.LGo false (SafeExecutor.FnPanics (VString "test panic"))
               example_stack;
             SafeExecutor.LStep 1 1; SafeExecutor.LStep 0 2;
             SafeExecutor.LStep 0 3; SafeExecutor.LStep 1 4;
             SafeExecutor.LStep 1 5; SafeExecutor.LStep 0 6;
             SafeExecutor.LStep 1 7] in
  exists se,
    SafeExecutor.run ls SafeExecutor.NewSafeExecutor = Some se
    /\ ExecutorSpec.idle se = true
    /\ SafeExecutor.ActiveGoroutines (SafeExecutor.GetStats se) = 0
    /\ SafeExecutor.CompletedCount (SafeExecutor.GetStats se)
       + SafeExecutor.PanicCount (SafeExecutor.GetStats se)
       = SafeExecutor.TotalGoroutines (SafeExecutor.GetStats se)
    /\ SafeExecutor.TotalGoroutines (SafeExecutor.GetStats se) = 2.
Proof.
  intros ls. eexists. split; [reflexivity |]. split; [reflexivity |].
  assert (Hres : ExecutorSpec.resets_when_idle ls SafeExecutor.NewSafeExecutor).
  { vm_compute. repeat split. }
  assert (Hlen : Z.of_nat 2 <= Int64.max_int) by (vm_compute; discriminate).
  destruct (executor_stats_invariant ls _ eq_refl Hres Hlen) as (_ & _ & Hidle).
  destruct (Hidle eq_refl) as (Ha & Hs & Ht).
  split; [exact Ha |]. split; [exact Hs | exact Ht].
Defined.

(** * Part III: further properties of the package *)

(** ** Backoff strategies *)

Section BackoffBounds.

Lemma double_capped_le (b : ExponentialBackoff.t) (d : Z) :
  ExponentialBackoff.double_capped b d <= ExponentialBackoff.MaxDelay b.
Proof.
  unfold ExponentialBackoff.double_capped.
  destruct (Z.gtb_spec (Int64.mul d 2) (ExponentialBackoff.MaxDelay b)); lia.
Qed.

Lemma exponential_loop_le (b : ExponentialBackoff.t) (n : nat) :
  forall d, d <= ExponentialBackoff.MaxDelay b ->
            ExponentialBackoff.loop b n d <= ExponentialBackoff.MaxDelay b.
Proof.
  induction n as [|n IH]; intros d Hd; cbn; [exact Hd |].
  apply IH, double_capped_le.
Qed.

End BackoffBounds.

(** X1: whatever the base, the cap and the attempt (overflow included),
    the linear backoff never answers more than [MaxDelay]; nor does the
    exponential backoff from attempt 1 on. *)
Theorem backoff_upper_bound (attempt : Z) :
  (forall b : LinearBackoff.t,
      LinearBackoff.GetDelay b attempt <= LinearBackoff.MaxDelay b)
  /\ (forall b : ExponentialBackoff.t,
         1 <= attempt ->
         ExponentialBackoff.GetDelay b attempt <= ExponentialBackoff.MaxDelay b).
Proof.
  split.
  - intros b. unfold LinearBackoff.GetDelay.
    destruct (Z.gtb_spec
                (Int64.mul (LinearBackoff.BaseDelay b) (Int64.add attempt 1))
                (LinearBackoff.MaxDelay b)); lia.
  - intros b Hatt. unfold ExponentialBackoff.GetDelay.
    destruct (Z.to_nat attempt) as [|n] eqn:Hn; [lia |].
    cbn [ExponentialBackoff.loop]. apply exponential_loop_le, double_capped_le.
Qed.

Lemma backoff_upper_bound_witness :
  ExponentialBackoff.GetDelay
    {| ExponentialBackoff.BaseDelay := 10 * Second;
       ExponentialBackoff.MaxDelay := 5 * Second |} 1
  <= 5 * Second.
Proof.
  apply (proj2 (backoff_upper_bound 1)
           {| ExponentialBackoff.BaseDelay := 10 * Second;
              ExponentialBackoff.MaxDelay := 5 * Second |}).
  lia.
Defined.

(** X2: with [0 <= BaseDelay <= MaxDelay] and a cap below 2^62, the
    exponential delay never shrinks from one attempt to the next. *)
Theorem exponential_backoff_monotone (b : ExponentialBackoff.t) (attempt : Z) :
  0 <= ExponentialBackoff.BaseDelay b <= ExponentialBackoff.MaxDelay b ->
  2 * ExponentialBackoff.MaxDelay b <= Int64.max_int ->
  0 <= attempt ->
  ExponentialBackoff.GetDelay b attempt
  <= ExponentialBackoff.GetDelay b (attempt + 1).
Proof.
  intros [Hb Hle] Hmax Hatt. unfold ExponentialBackoff.GetDelay.
  assert (Hpow : 0 < 2 ^ attempt) by (apply Z.pow_pos_nonneg; lia).
  assert (Hlow : forall k, 0 <= k ->
                   Int64.min_int <= ExponentialBackoff.BaseDelay b * 2 ^ k).
  { intros k Hk. pose proof (Z.pow_pos_nonneg 2 k ltac:(lia) Hk).
    unfold Int64.min_int. nia. }
  rewrite (exponential_loop_min b (Z.to_nat attempt) Hmax _ Hle)
    by (rewrite Z2Nat.id by lia; apply Hlow; lia).
  rewrite (exponential_loop_min b (Z.to_nat (attempt + 1)) Hmax _ Hle)
    by (rewrite Z2Nat.id by lia; apply Hlow; lia).
  rewrite !Z2Nat.id by lia.
  rewrite Z.pow_add_r, Z.pow_1_r by lia.
  apply Z.min_le_compat_r. nia.
Qed.

Lemma exponential_backoff_monotone_witness :
  ExponentialBackoff.GetDelay
    {| ExponentialBackoff.BaseDelay := Second;
       ExponentialBackoff.MaxDelay := 5 * Second |} 2
  <= ExponentialBackoff.GetDelay
       {| ExponentialBackoff.BaseDelay := Second;
          ExponentialBackoff.MaxDelay := 5 * Second |} (2 + 1).
Proof.
  apply exponential_backoff_monotone; vm_compute; try split; congruence.
Defined.

(** ** Retry *)

Section RetryShape.

Import GoM Retry.

Context {St : Type}.
Variable r : Retry.t.
Variable fn : St -> outcome error * St.

(** One iteration of the loop of [Execute], spelled out. *)
Lemma attempts_step (n : nat) (attempt : Z) (lastErr : error) (s s' : St)
    (o : outcome error) (t : list event) :
  attempts r fn (S n) attempt lastErr s = (o, s', t) ->
  exists o1 s1,
    fn s = (o1, s1)
    /\ match o1 with
       | Panics v => o = Panics v /\ t = [EvCall o1] /\ s' = s1
       | Returns e =>
           if is_nil e
           then o = Returns ErrNil /\ t = [EvCall o1] /\ s' = s1
           else exists t',
               attempts r fn n (Int64.add attempt 1) e s1 = (o, s', t')
               /\ t = EvCall o1
                      :: (if attempt <? Int64.sub (maxAttempts r) 1
                          then [EvSleep (GetDelay (backoff r) attempt)]
                          else [])
                      ++ t'
       end.
Proof.
  intros Hrun. cbn [attempts] in Hrun.
  apply bind_eq in Hrun
    as [(e & s1 & t1 & t2 & Hcall & Hk & Happ) | (v & Hcall & Ho)];
    unfold call in Hcall; destruct (fn s) as [o1 s1'] eqn:Hfn;
    injection Hcall as Ho1 Hs1 Ht1; subst o1 s1'.
  - exists (Returns e), s1. split; [reflexivity |].
    destruct (is_nil e) eqn:He.
    + injection Hk as <- <- <-. subst t. rewrite <- Ht1. auto.
    + apply bind_eq in Hk
        as [(u & s2 & t3 & t4 & Hsl & Hk & Happ2) | (v & Hsl & _)].
      * exists t4. subst t t2. rewrite <- Ht1.
        destruct (attempt <? Int64.sub (maxAttempts r) 1);
          injection Hsl as _ <- <-; auto.
      * destruct (attempt <? Int64.sub (maxAttempts r) 1); discriminate.
  - exists (Panics v), s'. split; [reflexivity |]. subst t. auto.
Qed.

Lemma attempts_calls_bound (n : nat) :
  forall attempt lastErr s s' o t,
    attempts r fn n attempt lastErr s = (o, s', t) ->
    (length (calls t) <= n)%nat.
Proof.
  induction n as [|n IH]; intros attempt lastErr s s' o t Hrun.
  - injection Hrun as _ _ <-. cbn. lia.
  - apply attempts_step in Hrun as (o1 & s1 & _ & Hcase).
    destruct o1 as [e | v].
    + destruct (is_nil e).
      * destruct Hcase as (_ & -> & _). cbn. lia.
      * destruct Hcase as (t' & Hrest & ->). specialize (IH _ _ _ _ _ _ Hrest).
        cbn [calls flat_map]. rewrite !length_app. cbn [length].
        fold (calls t'). rewrite calls_app.
        destruct (attempt <? Int64.sub (maxAttempts r) 1); cbn; lia.
    + destruct Hcase as (_ & -> & _). cbn. lia.
Qed.

Lemma attempts_sleeps (n : nat) :
  forall attempt lastErr s s' o t,
    0 <= attempt ->
    attempt + Z.of_nat n = maxAttempts r ->
    maxAttempts r <= Int64.max_int ->
    attempts r fn n attempt lastErr s = (o, s', t) ->
    length (sleeps t) = Nat.pred (length (calls t)).
Proof.
  induction n as [|n IH]; intros attempt lastErr s s' o t H0 Hsum Hmax Hrun.
  - injection Hrun as _ _ <-. reflexivity.
  - assert (Hsub : Int64.sub (maxAttempts r) 1 = maxAttempts r - 1).
    { apply wrap_id. unfold Int64.in_range, Int64.min_int, Int64.max_int in *. lia. }
    assert (Hadd : Int64.add attempt 1 = attempt + 1).
    { apply add_id. unfold Int64.in_range, Int64.min_int, Int64.max_int in *. lia. }
    apply attempts_step in Hrun as (o1 & s1 & _ & Hcase).
    destruct o1 as [e | v].
    + destruct (is_nil e).
      * destruct Hcase as (_ & -> & _). reflexivity.
      * destruct Hcase as (t' & Hrest & ->). rewrite Hsub, Hadd in *.
        destruct (Z.ltb_spec attempt (maxAttempts r - 1)).
        -- specialize (IH (attempt + 1) e s1 s' o t' ltac:(lia) ltac:(lia)
                         Hmax Hrest).
           destruct n as [|n']; [lia |].
           apply attempts_step in Hrest as (o2 & s2 & _ & Hc2).
           assert (Hne : calls t' <> []).
           { destruct o2 as [e2 | v2];
               [destruct (is_nil e2) |];
               repeat match goal with
                      | H : _ /\ _ |- _ => destruct H
                      | H : exists _, _ |- _ => destruct H
                      end; subst; discriminate. }
           cbn. fold (sleeps t') (calls t'). rewrite IH.
           destruct (calls t'); [contradiction | reflexivity].
        -- destruct n as [|n']; [| lia].
           injection Hrest as _ _ <-. reflexivity.
    + destruct Hcase as (_ & -> & _). reflexivity.
Qed.

Lemma attempts_outcome (n : nat) :
  forall attempt lastErr s s' o t,
    attempts r fn (S n) attempt lastErr s = (o, s', t) ->
    exists cs c,
      calls t = cs ++ [c]
      /\ Forall (fun c' => exists e, c' = Returns e /\ is_nil e = false) cs
      /\ match c with
         | Panics v => o = Panics v
         | Returns e =>
             if is_nil e then o = Returns ErrNil
             else o = Returns (Errorf retry_failed (maxAttempts r) e)
                  /\ length (calls t) = S n
         end.
Proof.
  induction n as [|n IH]; intros attempt lastErr s s' o t Hrun;
    apply attempts_step in Hrun as (o1 & s1 & _ & Hcase);
    destruct o1 as [e | v].
  - destruct (is_nil e) eqn:He.
    + destruct Hcase as (-> & -> & _). exists [], (Returns e).
      rewrite He. repeat split; auto.
    + destruct Hcase as (t' & Hrest & ->). injection Hrest as <- _ <-.
      exists [], (Returns e). rewrite He. rewrite app_nil_r.
      destruct (attempt <? Int64.sub (maxAttempts r) 1); cbn; repeat split; auto.
  - destruct Hcase as (-> & -> & _). exists [], (Panics v). repeat split; auto.
  - destruct (is_nil e) eqn:He.
    + destruct Hcase as (-> & -> & _). exists [], (Returns e).
      rewrite He. repeat split; auto.
    + destruct Hcase as (t' & Hrest & ->).
      destruct (IH _ _ _ _ _ _ Hrest) as (cs & c & Hcalls & Hall & Hlast).
      exists (Returns e :: cs), c.
      assert (Hc : calls (EvCall (Returns e)
                          :: (if attempt <? Int64.sub (maxAttempts r) 1
                              then [EvSleep (GetDelay (backoff r) attempt)]
                              else []) ++ t')
                   = Returns e :: calls t').
      { change (EvCall (Returns e) :: ?x) with ([EvCall (Returns e)] ++ x).
        rewrite !calls_app.
        destruct (attempt <? Int64.sub (maxAttempts r) 1); reflexivity. }
      rewrite Hc, Hcalls. split; [reflexivity |]. split.
      * constructor; [exists e; auto | exact Hall].
      * destruct c as [e' | v']; [| exact Hlast].
        destruct (is_nil e'); [exact Hlast |].
        destruct Hlast as [Ho Hlen]. split; [exact Ho |].
        rewrite <- Hcalls. cbn [length]. rewrite Hlen. reflexivity.
  - destruct Hcase as (-> & -> & _). exists [], (Panics v). repeat split; auto.
Qed.

End RetryShape.

(** X3: with [maxAttempts <= 0] the function is never invoked and
    nothing sleeps; [Execute] returns at once the "retry failed" error,
    which then wraps no error at all. *)
Theorem retry_no_attempts {St : Type} (r : Retry.t)
    (fn : St -> outcome error * St) (s : St) :
  Retry.maxAttempts r <= 0 ->
  Retry.Execute r fn s
  = (Returns (Errorf Retry.retry_failed (Retry.maxAttempts r) ErrNil), s, []).
Proof.
  intros Hle. unfold Retry.Execute.
  replace (Z.to_nat (Retry.maxAttempts r)) with 0%nat by lia. reflexivity.
Qed.

Lemma retry_no_attempts_witness :
  Retry.Execute (Retry.NewRetry 0 Second None) failing 7%nat
  = (Returns (Errorf Retry.retry_failed 0 ErrNil), 7%nat, []).
Proof.
  apply (retry_no_attempts (Retry.NewRetry 0 Second None) failing 7%nat).
  cbn. lia.
Defined.

(** X4: whatever the function does, [Execute] invokes it at most
    [maxAttempts] times, and sleeps exactly once between two consecutive
    invocations: one time fewer than it invokes, never after the last
    attempt. *)
Theorem retry_calls_bounded {St : Type} (r : Retry.t)
    (fn : St -> outcome error * St) (s s' : St) (o : outcome error)
    (t : list GoM.event) :
  Retry.maxAttempts r <= Int64.max_int ->
  Retry.Execute r fn s = (o, s', t) ->
  (length (GoM.calls t) <= Z.to_nat (Retry.maxAttempts r))%nat
  /\ length (GoM.sleeps t) = Nat.pred (length (GoM.calls t)).
Proof.
  intros Hmax Hrun. unfold Retry.Execute in Hrun. split.
  - eapply attempts_calls_bound, Hrun.
  - destruct (Z.le_gt_cases (Retry.maxAttempts r) 0) as [Hle | Hgt].
    + replace (Z.to_nat (Retry.maxAttempts r)) with 0%nat in Hrun by lia.
      injection Hrun as _ _ <-. reflexivity.
    + eapply (attempts_sleeps r fn); [| | exact Hmax | exact Hrun]; lia.
Qed.

Lemma retry_calls_bounded_witness :
  (length (GoM.calls
             (snd (Retry.Execute (Retry.NewRetry 3 (10 * Millisecond) None)
                     (flaky 1) 0%nat)))
   <= 3)%nat
  /\ length (GoM.sleeps
               (snd (Retry.Execute (Retry.NewRetry 3 (10 * Millisecond) None)
                       (flaky 1) 0%nat)))
     = Nat.pred
         (length (GoM.calls
                    (snd (Retry.Execute (Retry.NewRetry 3 (10 * Millisecond) None)
                            (flaky 1) 0%nat)))).
Proof.
  assert (H : 3 <= Int64.max_int) by (vm_compute; discriminate).
  exact (retry_calls_bounded (Retry.NewRetry 3 (10 * Millisecond) None)
           (flaky 1) 0%nat _ _ _ H eq_refl).
Defined.

(** X5: with [maxAttempts >= 1], what [Execute] comes to is decided by
    the last invocation, all earlier ones having returned errors: if it
    returned [nil], so does [Execute]; if it panicked, [Execute] panics
    with the same value; if it returned an error, every one of the
    [maxAttempts] attempts was used and [Execute] returns that error
    wrapped, never the bare error. *)
Theorem retry_outcome {St : Type} (r : Retry.t)
    (fn : St -> outcome error * St) (s s' : St) (o : outcome error)
    (t : list GoM.event) :
  1 <= Retry.maxAttempts r ->
  Retry.Execute r fn s = (o, s', t) ->
  exists cs c,
    GoM.calls t = cs ++ [c]
    /\ Forall (fun c' => exists e, c' = Returns e /\ is_nil e = false) cs
    /\ match c with
       | Panics v => o = Panics v
       | Returns e =>
           if is_nil e then o = Returns ErrNil
           else o = Returns (Errorf Retry.retry_failed (Retry.maxAttempts r) e)
                /\ Z.of_nat (length (GoM.calls t)) = Retry.maxAttempts r
       end.
Proof.
  intros Hone Hrun. unfold Retry.Execute in Hrun.
  destruct (Z.to_nat (Retry.maxAttempts r)) as [|n] eqn:Hn; [lia |].
  destruct (attempts_outcome r fn n _ _ _ _ _ _ Hrun)
    as (cs & c & Hcalls & Hall & Hlast).
  exists cs, c. split; [exact Hcalls |]. split; [exact Hall |].
  destruct c as [e | v]; [| exact Hlast].
  destruct (is_nil e); [exact Hlast |].
  destruct Hlast as [Ho Hlen]. split; [exact Ho | lia].
Qed.

Lemma retry_outcome_witness :
  exists cs c,
    GoM.calls (snd (Retry.Execute (Retry.NewRetry 3 (10 * Millisecond) None)
                      (flaky 1) 0%nat))
    = cs ++ [c]
    /\ Forall (fun c' => exists e, c' = Returns e /\ is_nil e = false) cs
    /\ match c with
       | Panics v => Returns ErrNil = Panics v
       | Returns e =>
           if is_nil e then Returns ErrNil = Returns ErrNil
           else Returns ErrNil
                = Returns (Errorf Retry.retry_failed 3 e)
                /\ Z.of_nat
                     (length
                        (GoM.calls
                           (snd (Retry.Execute
                                   (Retry.NewRetry 3 (10 * Millisecond) None)
                                   (flaky 1) 0%nat))))
                   = 3
       end.
Proof.
  assert (H : 1 <= 3) by lia.
  exact (retry_outcome (Retry.NewRetry 3 (10 * Millisecond) None)
           (flaky 1) 0%nat _ _ _ H eq_refl).
Defined.

(** ** Circuit breaker *)

Section BreakerMore.

Import GoM CircuitBreaker CircuitSpec BreakerSpec.

Context {U : Type}.
Variable clock : U -> Z.

Lemma attempt_closed_inv (mf n : Z) (fn : U -> outcome error * U) (w : world U) :
  1 <= mf ->
  n < Int64.max_int ->
  maxFailures (breaker w) = mf ->
  breaker_inv n (breaker w) ->
  (state (breaker w) = StateClosed -> failureCount (breaker w) < mf) ->
  closed_inv mf (n + 1) (breaker (snd (fst (attempt clock fn w)))).
Proof.
  intros Hmf Hn Hmax Hinv Hclosed.
  split; [| split; [apply attempt_inv; assumption |]];
    rewrite attempt_eq; destruct (fn (user w)) as [[e | v] u']; cbn; auto;
    destruct Hinv as [Hfc Hst].
  - destruct (is_nil e); exact Hmax.
  - destruct (is_nil e); cbn.
    + destruct (state (breaker w)) eqn:Es; cbn; intros; auto; try discriminate.
      lia.
    + rewrite add_id
        by (unfold Int64.in_range, Int64.min_int, Int64.max_int in *; lia).
      rewrite Hmax.
      destruct (Z.geb_spec (failureCount (breaker w) + 1) mf);
        [discriminate | intros; lia].
Qed.

Lemma do_op_closed_inv (mf n : Z) (o : op) (w : world U) :
  1 <= mf ->
  n < Int64.max_int ->
  closed_inv mf n (breaker w) ->
  closed_inv mf (n + 1) (breaker (fst (do_op clock o w))).
Proof.
  intros Hmf Hn (Hmax & Hinv & Hclosed).
  destruct o as [fn | | f]; cbn [do_op].
  - pose proof (attempt_closed_inv mf n fn w Hmf Hn Hmax Hinv Hclosed) as Hw.
    rewrite Execute_eq.
    destruct (state (breaker w)) eqn:Es.
    + destruct (attempt clock fn w) as [[o s] t]. exact Hw.
    + clear Hw. destruct (_ >? _).
      * assert (Hh : closed_inv mf (n + 1)
                       (breaker (snd (fst (attempt clock fn
                          (on_breaker (set_state StateHalfOpen) w)))))).
        { apply attempt_closed_inv; auto; cbn; try discriminate.
          destruct Hinv as [Hfc Hst]. split; [exact Hfc |].
          intros _. apply Hst. congruence. }
        destruct (attempt clock fn (on_breaker (set_state StateHalfOpen) w))
          as [[o s] t]. exact Hh.
      * cbn. destruct Hinv as [Hfc Hst]. split; [exact Hmax |].
        split; [split; [lia | assumption] | congruence].
    + destruct (attempt clock fn w) as [[o s] t]. exact Hw.
  - destruct Hinv as [Hfc _]. cbn. split; [exact Hmax |].
    split; [split; cbn; [lia | congruence] |]. cbn. intros _. lia.
  - destruct Hinv as [Hfc Hst]. cbn. split; [exact Hmax |].
    split; [split; [lia | assumption] | exact Hclosed].
Qed.

Lemma run_closed_inv (mf : Z) (ops : list op) :
  forall (n : Z) (w : world U),
    1 <= mf ->
    0 <= n ->
    n + Z.of_nat (length ops) <= Int64.max_int ->
    closed_inv mf n (breaker w) ->
    closed_inv mf (n + Z.of_nat (length ops)) (breaker (fst (run clock ops w))).
Proof.
  induction ops as [|o ops IH]; intros n w Hmf Hn Hlen Hinv.
  - cbn. rewrite Z.add_0_r. exact Hinv.
  - cbn [run length] in *.
    pose proof (do_op_closed_inv mf n o w Hmf ltac:(lia) Hinv) as Hstep.
    destruct (do_op clock o w) as [w1 t1].
    specialize (IH (n + 1) w1 Hmf ltac:(lia) ltac:(lia) Hstep).
    destruct (run clock ops w1) as [w2 t2]. cbn in *.
    replace (n + Z.pos (Pos.of_succ_nat (length ops)))
      with (n + 1 + Z.of_nat (length ops)) by lia.
    exact IH.
Qed.

End BreakerMore.

Section BreakerCounts.

Import GoM CircuitBreaker CircuitSpec BreakerSpec.

Context {U : Type}.
Variable clock : U -> Z.

Lemma successes_app (t1 t2 : list event) :
  successes (t1 ++ t2) = successes t1 + successes t2.
Proof.
  unfold successes, calls.
  rewrite flat_map_app, filter_app, length_app. lia.
Qed.

Lemma attempt_success (fn : U -> outcome error * U) (w : world U) :
  0 <= successCount (breaker w) < Int64.max_int ->
  let r := attempt clock fn w in
  successCount (breaker (snd (fst r)))
  = successCount (breaker w) + successes (snd r)
  /\ 0 <= successes (snd r) <= 1.
Proof.
  intros Hc. cbn zeta. rewrite attempt_eq.
  destruct (fn (user w)) as [[e | v] u']; cbn [fst snd breaker].
  - unfold successes. cbn. destruct (is_nil e); cbn.
    + rewrite add_id
        by (unfold Int64.in_range, Int64.min_int, Int64.max_int in *; lia).
      lia.
    + lia.
  - unfold successes. cbn. lia.
Qed.

Lemma do_op_success (o : op) (w : world U) :
  is_reset o = false ->
  0 <= successCount (breaker w) < Int64.max_int ->
  let r := do_op clock o w in
  successCount (breaker (fst r)) = successCount (breaker w) + successes (snd r)
  /\ 0 <= successes (snd r) <= 1.
Proof.
  intros Hnr Hc. destruct o as [fn | | f]; [| discriminate |].
  - cbn [do_op]. rewrite Execute_eq.
    pose proof (attempt_success fn w Hc) as Hw.
    pose proof (attempt_success fn (on_breaker (set_state StateHalfOpen) w) Hc)
      as Hh.
    destruct (state (breaker w)).
    + destruct (attempt clock fn w) as [[o s] t]. exact Hw.
    + clear Hw. destruct (_ >? _).
      * destruct (attempt clock fn (on_breaker (set_state StateHalfOpen) w))
          as [[o s] t]. exact Hh.
      * cbn. unfold successes. cbn. lia.
    + destruct (attempt clock fn w) as [[o s] t]. exact Hw.
  - cbn. unfold successes. cbn. lia.
Qed.

Lemma run_success (ops : list op) :
  forall w : world U,
    forallb (fun o => negb (is_reset o)) ops = true ->
    0 <= successCount (breaker w) ->
    successCount (breaker w) + Z.of_nat (length ops) <= Int64.max_int ->
    let r := run clock ops w in
    successCount (breaker (fst r)) = successCount (breaker w) + successes (snd r)
    /\ 0 <= successes (snd r) <= Z.of_nat (length ops).
Proof.
  induction ops as [|o ops IH]; intros w Hnr H0 Hlen.
  - cbn. unfold successes. cbn. lia.
  - cbn [forallb] in Hnr. apply andb_true_iff in Hnr as [Ho Hnr].
    apply negb_true_iff in Ho. cbn [run length] in *.
    pose proof (do_op_success o w Ho ltac:(lia)) as [Hstep Hone].
    destruct (do_op clock o w) as [w1 t1]. cbn [fst snd] in *.
    specialize (IH w1 Hnr ltac:(lia) ltac:(lia)). cbn zeta in IH.
    destruct (run clock ops w1) as [w2 t2]. cbn [fst snd] in *.
    rewrite successes_app. lia.
Qed.

End BreakerCounts.

(** X6: on every breaker reached from [NewCircuitBreaker] with
    [maxFailures >= 1] by calls, resets and pauses, the state is closed
    exactly when the failure counter is below [maxFailures]; the counter
    is never negative. *)
Theorem breaker_closed_iff_below_threshold {U : Type} (clock : U -> Z)
    (maxFailures resetTimeout : Z) (ops : list (@CircuitBreaker.op U)) (u : U) :
  1 <= maxFailures ->
  Z.of_nat (length ops) <= Int64.max_int ->
  let cb := CircuitBreaker.breaker
              (fst (CircuitBreaker.run clock ops
                      {| CircuitBreaker.breaker :=
                           CircuitBreaker.NewCircuitBreaker maxFailures resetTimeout;
                         CircuitBreaker.user := u |})) in
  (CircuitBreaker.GetState cb = CircuitBreaker.StateClosed
   <-> CircuitBreaker.failureCount cb < maxFailures)
  /\ 0 <= CircuitBreaker.failureCount cb
  /\ CircuitBreaker.maxFailures cb = maxFailures.
Proof.
  intros Hmf Hlen cb.
  assert (H0 : BreakerSpec.closed_inv maxFailures 0
                 (CircuitBreaker.NewCircuitBreaker maxFailures resetTimeout)).
  { split; [reflexivity |]. split.
    - split; cbn; [lia | congruence].
    - cbn. lia. }
  pose proof (run_closed_inv clock maxFailures ops 0
                {| CircuitBreaker.breaker :=
                     CircuitBreaker.NewCircuitBreaker maxFailures resetTimeout;
                   CircuitBreaker.user := u |} Hmf ltac:(lia) ltac:(lia) H0)
    as (Hmax & [Hfc Hst] & Hclosed).
  fold cb in Hmax, Hfc, Hst, Hclosed. unfold CircuitBreaker.GetState.
  split; [| split; [lia | exact Hmax]].
  split; [exact Hclosed |].
  intros Hlt. destruct (CircuitBreaker.state cb) eqn:Es; auto.
  - rewrite Hmax in Hst. specialize (Hst ltac:(discriminate)). lia.
  - rewrite Hmax in Hst. specialize (Hst ltac:(discriminate)). lia.
Qed.

Lemma breaker_closed_iff_below_threshold_witness :
  let cb := CircuitBreaker.breaker
              (fst (CircuitBreaker.run tick_clock
                      [CircuitBreaker.OpExecute failing;
                       CircuitBreaker.OpExecute failing;
                       CircuitBreaker.OpExecute failing]
                      {| CircuitBreaker.breaker :=
                           CircuitBreaker.NewCircuitBreaker 3 (200 * Millisecond);
                         CircuitBreaker.user := 0%nat |})) in
  (CircuitBreaker.GetState cb = CircuitBreaker.StateClosed
   <-> CircuitBreaker.failureCount cb < 3)
  /\ 0 <= CircuitBreaker.failureCount cb
  /\ CircuitBreaker.maxFailures cb = 3.
Proof.
  apply (breaker_closed_iff_below_threshold tick_clock 3 (200 * Millisecond)
           [CircuitBreaker.OpExecute failing;
            CircuitBreaker.OpExecute failing;
            CircuitBreaker.OpExecute failing] 0%nat).
  - lia.
  - vm_compute. discriminate.
Defined.

(** X7: when the wrapped function panics, [Execute] panics with the
    same value and counts neither a failure nor a success; but a breaker
    that was open with its timeout elapsed has already been switched to
    half-open and stays there. *)
Theorem breaker_panic_passes_through {U : Type} (clock : U -> Z)
    (w : CircuitBreaker.world U) (fn : U -> outcome error * U)
    (v : value) (u' : U) :
  fn (CircuitBreaker.user w) = (Panics v, u') ->
  let cb := CircuitBreaker.breaker w in
  let elapsed :=
    Int64.saturate (clock (CircuitBreaker.user w)
                    - CircuitBreaker.lastFailureTime cb) in
  CircuitBreaker.state cb <> CircuitBreaker.StateOpen
  \/ CircuitBreaker.resetTimeout cb < elapsed ->
  exists cb',
    CircuitBreaker.Execute clock fn w
    = (Panics v,
       {| CircuitBreaker.breaker := cb'; CircuitBreaker.user := u' |},
       [GoM.EvCall (Panics v)])
    /\ CircuitBreaker.GetStats cb' = CircuitBreaker.GetStats cb
    /\ CircuitBreaker.lastFailureTime cb' = CircuitBreaker.lastFailureTime cb
    /\ CircuitBreaker.state cb'
       = match CircuitBreaker.state cb with
         | CircuitBreaker.StateOpen => CircuitBreaker.StateHalfOpen
         | st => st
         end.
Proof.
  intros Hfn cb elapsed Hadm. subst cb elapsed. rewrite Execute_eq.
  destruct (CircuitBreaker.state (CircuitBreaker.breaker w)) eqn:Es.
  - rewrite attempt_eq, Hfn. eexists. split; [reflexivity |]. rewrite Es. auto.
  - destruct Hadm as [Hne | Hgt]; [congruence |].
    destruct (Z.gtb_spec
                (Int64.saturate (clock (CircuitBreaker.user w)
                   - CircuitBreaker.lastFailureTime (CircuitBreaker.breaker w)))
                (CircuitBreaker.resetTimeout (CircuitBreaker.breaker w)));
      [| lia].
    rewrite attempt_eq. cbn [CircuitBreaker.on_breaker CircuitBreaker.user].
    rewrite Hfn. eexists. split; [reflexivity |]. cbn. auto.
  - rewrite attempt_eq, Hfn. eexists. split; [reflexivity |]. rewrite Es. auto.
Qed.

Lemma breaker_panic_passes_through_witness :
  let w := fst (CircuitBreaker.run tick_clock
                  [CircuitBreaker.OpExecute failing;
                   CircuitBreaker.OpExecute failing;
                   CircuitBreaker.OpExecute failing;
                   CircuitBreaker.OpCaller (fun s => (s + 250)%nat)]
                  {| CircuitBreaker.breaker :=
                       CircuitBreaker.NewCircuitBreaker 3 (200 * Millisecond);
                     CircuitBreaker.user := 0%nat |}) in
  exists cb',
    CircuitBreaker.Execute tick_clock
      (BreakerSpec.panicking (VString "boom") 1) w
    = (Panics (VString "boom"),
       {| CircuitBreaker.breaker := cb'; CircuitBreaker.user := 254%nat |},
       [GoM.EvCall (Panics (VString "boom"))])
    /\ CircuitBreaker.GetStats cb' = (3, 0)
    /\ CircuitBreaker.lastFailureTime cb' = tick_clock 3
    /\ CircuitBreaker.state cb' = CircuitBreaker.StateHalfOpen.
Proof.
  intros w.
  refine (breaker_panic_passes_through tick_clock w
            (BreakerSpec.panicking (VString "boom") 1) (VString "boom")
            254%nat eq_refl _).
  right. vm_compute. reflexivity.
Defined.

(** X8: [Reset] makes any breaker like new: closed, both counters at
    zero; and from there it again takes [maxFailures] failed calls to
    open it: while fewer calls have failed, every call is let through
    and the breaker stays closed. *)
Theorem breaker_reset_starts_over {U : Type} (clock : U -> Z)
    (w : CircuitBreaker.world U) (fns : list (U -> outcome error * U)) :
  1 <= CircuitBreaker.maxFailures (CircuitBreaker.breaker w) <= Int64.max_int ->
  let w1 := fst (CircuitBreaker.do_op clock CircuitBreaker.OpReset w) in
  let r := CircuitBreaker.run clock (map CircuitBreaker.OpExecute fns) w1 in
  CircuitBreaker.GetState (CircuitBreaker.breaker w1) = CircuitBreaker.StateClosed
  /\ CircuitBreaker.GetStats (CircuitBreaker.breaker w1) = (0, 0)
  /\ (CircuitSpec.failures (snd r)
      < CircuitBreaker.maxFailures (CircuitBreaker.breaker w) ->
      CircuitBreaker.GetState (CircuitBreaker.breaker (fst r))
      = CircuitBreaker.StateClosed
      /\ CircuitBreaker.failureCount (CircuitBreaker.breaker (fst r))
         = CircuitSpec.failures (snd r)
      /\ length (GoM.calls (snd r)) = length fns).
Proof.
  intros [Hlo Hhi] w1 r. subst r w1.
  cbn [CircuitBreaker.do_op fst].
  split; [reflexivity |]. split; [reflexivity |].
  intros Hlt.
  pose proof (run_closed clock fns
                (CircuitBreaker.on_breaker CircuitBreaker.Reset w) eq_refl) as H.
  cbn [CircuitBreaker.on_breaker CircuitBreaker.breaker CircuitBreaker.Reset
       CircuitBreaker.failureCount CircuitBreaker.maxFailures] in H.
  destruct (H ltac:(lia) Hhi ltac:(lia)) as (H1 & H2 & _ & H4).
  unfold CircuitBreaker.GetState. split; [exact H1 |].
  split; [rewrite H2; lia | exact H4].
Qed.

Lemma breaker_reset_starts_over_witness :
  let w := fst (CircuitBreaker.run tick_clock
                  [CircuitBreaker.OpExecute failing;
                   CircuitBreaker.OpExecute failing;
                   CircuitBreaker.OpExecute failing]
                  {| CircuitBreaker.breaker :=
                       CircuitBreaker.NewCircuitBreaker 3 (200 * Millisecond);
                     CircuitBreaker.user := 0%nat |}) in
  let w1 := fst (CircuitBreaker.do_op tick_clock CircuitBreaker.OpReset w) in
  let r := CircuitBreaker.run tick_clock
             (map CircuitBreaker.OpExecute [failing; succeeding; failing]) w1 in
  CircuitBreaker.GetState (CircuitBreaker.breaker (fst r))
  = CircuitBreaker.StateClosed
  /\ CircuitBreaker.failureCount (CircuitBreaker.breaker (fst r)) = 2
  /\ length (GoM.calls (snd r)) = 3%nat.
Proof.
  intros w w1 r.
  assert (H : 1 <= CircuitBreaker.maxFailures (CircuitBreaker.breaker w)
              <= Int64.max_int) by (vm_compute; split; discriminate).
  destruct (breaker_reset_starts_over tick_clock w
              [failing; succeeding; failing] H) as (_ & _ & Hrun).
  exact (Hrun eq_refl).
Defined.

(** X9: as long as [Reset] is not called, [successCount] is the number
    of invocations that returned [nil]: calls rejected while open,
    failed calls and panics are not counted, and going through half-open
    does not reset it. *)
Theorem breaker_success_count {U : Type} (clock : U -> Z)
    (maxFailures resetTimeout : Z) (ops : list (@CircuitBreaker.op U)) (u : U) :
  forallb (fun o => negb (BreakerSpec.is_reset o)) ops = true ->
  Z.of_nat (length ops) <= Int64.max_int ->
  let r := CircuitBreaker.run clock ops
             {| CircuitBreaker.breaker :=
                  CircuitBreaker.NewCircuitBreaker maxFailures resetTimeout;
                CircuitBreaker.user := u |} in
  snd (CircuitBreaker.GetStats (CircuitBreaker.breaker (fst r)))
  = BreakerSpec.successes (snd r).
Proof.
  intros Hnr Hlen r.
  pose proof (run_success clock ops
                {| CircuitBreaker.breaker :=
                     CircuitBreaker.NewCircuitBreaker maxFailures resetTimeout;
                   CircuitBreaker.user := u |} Hnr) as H.
  cbn [CircuitBreaker.breaker CircuitBreaker.NewCircuitBreaker
       CircuitBreaker.successCount] in H.
  destruct (H ltac:(lia) ltac:(lia)) as [Heq _].
  fold r in Heq. unfold CircuitBreaker.GetStats. cbn [snd]. rewrite Heq. lia.
Qed.

Lemma breaker_success_count_witness :
  let r := CircuitBreaker.run tick_clock
             [CircuitBreaker.OpExecute succeeding;
              CircuitBreaker.OpExecute failing;
              CircuitBreaker.OpExecute failing;
              CircuitBreaker.OpExecute failing;
              CircuitBreaker.OpExecute succeeding;
              CircuitBreaker.OpCaller (fun s => (s + 250)%nat);
              CircuitBreaker.OpExecute succeeding]
             {| CircuitBreaker.breaker :=
                  CircuitBreaker.NewCircuitBreaker 3 (200 * Millisecond);
                CircuitBreaker.user := 0%nat |} in
  snd (CircuitBreaker.GetStats (CircuitBreaker.breaker (fst r))) = 2
  /\ BreakerSpec.successes (snd r) = 2.
Proof.
  intros r. split; [| reflexivity].
  assert (Hlen : Z.of_nat 7 <= Int64.max_int) by (vm_compute; discriminate).
  exact (eq_trans
           (breaker_success_count tick_clock 3 (200 * Millisecond)
              [CircuitBreaker.OpExecute succeeding;
               CircuitBreaker.OpExecute failing;
               CircuitBreaker.OpExecute failing;
               CircuitBreaker.OpExecute failing;
               CircuitBreaker.OpExecute succeeding;
               CircuitBreaker.OpCaller (fun s => (s + 250)%nat);
               CircuitBreaker.OpExecute succeeding] 0%nat eq_refl Hlen)
           eq_refl).
Defined.

(** ** Rate limiter *)

Section RateLimiterRuns.

Import RateLimiterRun.

Lemma allowed_app (b1 b2 : list bool) :
  allowed (b1 ++ b2) = allowed b1 + allowed b2.
Proof. unfold allowed. rewrite filter_app, length_app. lia. Qed.

Lemma step_bucket (st : state) (e : event) :
  bucket_ok st ->
  let r := step st e in
  bucket_ok (fst r)
  /\ Chan.cap (RateLimiter.tokens (limiter (fst r)))
     = Chan.cap (RateLimiter.tokens (limiter st))
  /\ RateLimiter.ticker_stopped (limiter (fst r))
     = match e with
       | EvStop => true
       | _ => RateLimiter.ticker_stopped (limiter st)
       end
  /\ allowed (snd r) + potential (fst r)
     <= potential st
        + match e with
          | EvTickArrives =>
              if RateLimiter.ticker_stopped (limiter st) then 0 else 1
          | _ => 0
          end.
Proof.
  intros (Hopen & Hq & Hlen). destruct st as [[lim itv [buf cap cl rq] tk stp] p].
  cbn in Hopen, Hq, Hlen. subst cl rq.
  unfold potential, RateLimiter.GetAvailableTokens, Chan.len, bucket_ok, allowed.
  destruct e; cbn [step limiter pending].
  - unfold RateLimiter.Allow, Chan.try_recv.
    cbn [RateLimiter.tokens Chan.buf Chan.closed].
    destruct buf as [|x rest];
      cbn [fst snd limiter pending RateLimiter.tokens RateLimiter.with_tokens
           RateLimiter.ticker_stopped Chan.buf Chan.cap Chan.closed Chan.recvq
           length filter] in *;
      repeat split; auto; try lia; destruct p; lia.
  - cbn [RateLimiter.ticker_stopped].
    destruct stp;
      cbn [fst snd limiter pending RateLimiter.tokens
           RateLimiter.ticker_stopped Chan.buf Chan.cap Chan.closed Chan.recvq
           length filter];
      repeat split; auto; destruct p; lia.
  - destruct p.
    + unfold RateLimiter.refill, Chan.try_send.
      cbn [RateLimiter.tokens Chan.buf Chan.cap Chan.closed Chan.recvq].
      change (0 <? 0)%nat with false. cbv iota.
      destruct (Nat.ltb_spec (length buf) cap);
        cbn [fst snd limiter pending RateLimiter.tokens RateLimiter.with_tokens
             RateLimiter.ticker_stopped Chan.buf Chan.cap Chan.closed Chan.recvq
             length filter];
        rewrite ?length_app; cbn [length]; repeat split; auto; lia.
    + cbn [fst snd limiter pending RateLimiter.tokens
           RateLimiter.ticker_stopped Chan.buf Chan.cap Chan.closed Chan.recvq
           length filter].
      repeat split; auto; lia.
  - cbn [fst snd limiter pending RateLimiter.tokens RateLimiter.Stop
         RateLimiter.ticker_stopped Chan.buf Chan.cap Chan.closed Chan.recvq
         length filter].
    repeat split; auto. destruct p; lia.
Qed.

Lemma run_bucket (evs : list event) :
  forall st : state,
    bucket_ok st ->
    let r := run evs st in
    bucket_ok (fst r)
    /\ Chan.cap (RateLimiter.tokens (limiter (fst r)))
       = Chan.cap (RateLimiter.tokens (limiter st))
    /\ (RateLimiter.ticker_stopped (limiter st) = true ->
        RateLimiter.ticker_stopped (limiter (fst r)) = true)
    /\ allowed (snd r) + potential (fst r)
       <= potential st
          + (if RateLimiter.ticker_stopped (limiter st) then 0 else ticks evs).
Proof.
  induction evs as [|e evs IH]; intros st Hok.
  - cbn. repeat split; auto; try apply Hok.
    unfold allowed, ticks. cbn.
    destruct (RateLimiter.ticker_stopped (limiter st)); lia.
  - cbn [run]. pose proof (step_bucket st e Hok) as (Hok1 & Hcap1 & Hst1 & Hpot1).
    destruct (step st e) as [st1 b1]. cbn [fst snd] in *.
    specialize (IH st1 Hok1). cbn zeta in IH.
    destruct IH as (Hok2 & Hcap2 & Hst2 & Hpot2).
    destruct (run evs st1) as [st2 b2]. cbn [fst snd] in *.
    split; [exact Hok2 |]. split; [congruence |]. split.
    + intros Hs. apply Hst2. rewrite Hst1. destruct e; auto.
    + rewrite allowed_app.
      assert (Hticks : ticks (e :: evs)
                       = ticks evs + match e with EvTickArrives => 1 | _ => 0 end).
      { unfold ticks. destruct e; cbn [filter length]; lia. }
      assert (Hnn : 0 <= ticks evs) by (unfold ticks; lia).
      rewrite Hticks.
      destruct (RateLimiter.ticker_stopped (limiter st)) eqn:Hs.
      * rewrite Hst1 in Hpot2.
        destruct e; rewrite ?Hs in Hpot2; cbn in Hpot2; lia.
      * destruct e; rewrite Hst1 in Hpot2; rewrite ?Hs in Hpot2;
          destruct (RateLimiter.ticker_stopped (limiter st1)); lia.
Qed.

End RateLimiterRuns.

Lemma created_bucket_ok (limit interval : Z) (rl : RateLimiter.t) :
  RateLimiter.NewRateLimiter limit interval = RateLimiter.Created rl ->
  RateLimiterRun.bucket_ok (RateLimiterRun.start rl)
  /\ Chan.cap (RateLimiter.tokens rl) = Z.to_nat limit
  /\ RateLimiterRun.potential (RateLimiterRun.start rl) = limit
  /\ RateLimiter.ticker_stopped rl = false
  /\ 1 <= limit.
Proof.
  intros Hnew. destruct (created_tokens _ _ _ Hnew) as [Hpos Htok].
  unfold RateLimiterRun.bucket_ok, RateLimiterRun.potential,
    RateLimiter.GetAvailableTokens, Chan.len.
  cbn [RateLimiterRun.start RateLimiterRun.limiter RateLimiterRun.pending].
  rewrite Htok. cbn [Chan.buf Chan.cap Chan.closed Chan.recvq].
  rewrite repeat_length. repeat split; auto; try lia.
  revert Hnew. unfold RateLimiter.NewRateLimiter.
  destruct (limit <? 0); [discriminate |].
  destruct (RateLimiter.fill _ _); [| discriminate].
  destruct (limit =? 0); [discriminate |].
  destruct (_ <=? 0); [discriminate |].
  intros H. injection H as <-. reflexivity.
Qed.

(** X10: whatever [Allow] calls, ticks, refills and [Stop] calls follow
    the creation of a limiter, the bucket never holds fewer than zero or
    more than [limit] tokens: refills into a full bucket are dropped. *)
Theorem rate_limiter_tokens_bounded (limit interval : Z) (rl : RateLimiter.t)
    (evs : list RateLimiterRun.event) :
  RateLimiter.NewRateLimiter limit interval = RateLimiter.Created rl ->
  let st := fst (RateLimiterRun.run evs (RateLimiterRun.start rl)) in
  0 <= RateLimiter.GetAvailableTokens (RateLimiterRun.limiter st) <= limit.
Proof.
  intros Hnew st.
  destruct (created_bucket_ok _ _ _ Hnew) as (Hok & Hcap & _ & _ & Hpos).
  destruct (run_bucket evs _ Hok) as ((_ & _ & Hlen) & Hcap' & _).
  fold st in Hlen, Hcap'. cbn [RateLimiterRun.start RateLimiterRun.limiter] in Hcap'.
  unfold RateLimiter.GetAvailableTokens, Chan.len. lia.
Qed.

Lemma rate_limiter_tokens_bounded_witness :
  exists rl,
    RateLimiter.NewRateLimiter 3 Second = RateLimiter.Created rl
    /\ 0 <= RateLimiter.GetAvailableTokens
              (RateLimiterRun.limiter
                 (fst (RateLimiterRun.run
                         [RateLimiterRun.EvTickArrives; RateLimiterRun.EvRefill;
                          RateLimiterRun.EvAllow; RateLimiterRun.EvTickArrives;
                          RateLimiterRun.EvRefill; RateLimiterRun.EvTickArrives;
                          RateLimiterRun.EvRefill]
                         (RateLimiterRun.start rl))))
       <= 3.
Proof.
  eexists. split; [reflexivity |].
  exact (rate_limiter_tokens_bounded 3 Second _ _ eq_refl).
Defined.

(** X11: after the creation of a limiter, the number of [Allow] calls
    that answered [true] never exceeds [limit] plus the number of ticks
    the ticker has delivered. *)
Theorem rate_limiter_rate_bound (limit interval : Z) (rl : RateLimiter.t)
    (evs : list RateLimiterRun.event) :
  RateLimiter.NewRateLimiter limit interval = RateLimiter.Created rl ->
  RateLimiterRun.allowed (snd (RateLimiterRun.run evs (RateLimiterRun.start rl)))
  <= limit + RateLimiterRun.ticks evs.
Proof.
  intros Hnew.
  destruct (created_bucket_ok _ _ _ Hnew) as (Hok & _ & Hpot & Hrun & _).
  destruct (run_bucket evs _ Hok) as (_ & _ & _ & Hle).
  cbn [RateLimiterRun.start RateLimiterRun.limiter] in Hle.
  rewrite Hrun in Hle.
  change {| RateLimiterRun.limiter := rl; RateLimiterRun.pending := false |}
    with (RateLimiterRun.start rl) in Hle.
  rewrite Hpot in Hle.
  assert (0 <= RateLimiterRun.potential
                 (fst (RateLimiterRun.run evs (RateLimiterRun.start rl)))).
  { unfold RateLimiterRun.potential, RateLimiter.GetAvailableTokens, Chan.len.
    destruct (RateLimiterRun.pending _); lia. }
  lia.
Qed.

Lemma rate_limiter_rate_bound_witness :
  exists rl,
    RateLimiter.NewRateLimiter 2 Second = RateLimiter.Created rl
    /\ RateLimiterRun.allowed
         (snd (RateLimiterRun.run
                 [RateLimiterRun.EvAllow; RateLimiterRun.EvAllow;
                  RateLimiterRun.EvAllow; RateLimiterRun.EvTickArrives;
                  RateLimiterRun.EvRefill; RateLimiterRun.EvAllow;
                  RateLimiterRun.EvAllow]
                 (RateLimiterRun.start rl)))
       <= 2 + 1.
Proof.
  eexists. split; [reflexivity |].
  exact (rate_limiter_rate_bound 2 Second _
           [RateLimiterRun.EvAllow; RateLimiterRun.EvAllow;
            RateLimiterRun.EvAllow; RateLimiterRun.EvTickArrives;
            RateLimiterRun.EvRefill; RateLimiterRun.EvAllow;
            RateLimiterRun.EvAllow] eq_refl).
Defined.

(** X12: once [Stop] has been called, [Allow] only drains what is left:
    whatever follows, it answers [true] at most as many times as there
    were tokens in the bucket at the time of the [Stop], plus one if the
    refill goroutine had already taken a tick. *)
Theorem rate_limiter_after_stop (limit interval : Z) (rl : RateLimiter.t)
    (before after : list RateLimiterRun.event) :
  RateLimiter.NewRateLimiter limit interval = RateLimiter.Created rl ->
  let st := fst (RateLimiterRun.step
                   (fst (RateLimiterRun.run before (RateLimiterRun.start rl)))
                   RateLimiterRun.EvStop) in
  RateLimiterRun.allowed (snd (RateLimiterRun.run after st))
  <= RateLimiter.GetAvailableTokens (RateLimiterRun.limiter st)
     + (if RateLimiterRun.pending st then 1 else 0)
  /\ RateLimiter.GetAvailableTokens (RateLimiterRun.limiter st) <= limit.
Proof.
  intros Hnew st.
  destruct (created_bucket_ok _ _ _ Hnew) as (Hok & Hcap & _ & _ & Hpos).
  destruct (run_bucket before _ Hok) as (Hok1 & Hcap1 & _).
  pose proof (step_bucket _ RateLimiterRun.EvStop Hok1)
    as (Hok2 & Hcap2 & Hstop & _).
  fold st in Hok2, Hcap2, Hstop.
  destruct (run_bucket after st Hok2) as (_ & _ & _ & Hle).
  rewrite Hstop in Hle.
  assert (0 <= RateLimiterRun.potential (fst (RateLimiterRun.run after st))).
  { unfold RateLimiterRun.potential, RateLimiter.GetAvailableTokens, Chan.len.
    destruct (RateLimiterRun.pending _); lia. }
  split.
  - unfold RateLimiterRun.potential in Hle at 2. lia.
  - destruct Hok2 as (_ & _ & Hlen).
    cbn [RateLimiterRun.start RateLimiterRun.limiter] in Hcap1.
    unfold RateLimiter.GetAvailableTokens, Chan.len. lia.
Qed.

Lemma rate_limiter_after_stop_witness :
  exists rl,
    RateLimiter.NewRateLimiter 3 Second = RateLimiter.Created rl
    /\ let st := fst (RateLimiterRun.step
                        (fst (RateLimiterRun.run
                                [RateLimiterRun.EvAllow; RateLimiterRun.EvAllow]
                                (RateLimiterRun.start rl)))
                        RateLimiterRun.EvStop) in
       RateLimiterRun.allowed
         (snd (RateLimiterRun.run
                 [RateLimiterRun.EvTickArrives; RateLimiterRun.EvRefill;
                  RateLimiterRun.EvAllow; RateLimiterRun.EvAllow]
                 st))
       <= RateLimiter.GetAvailableTokens (RateLimiterRun.limiter st)
          + (if RateLimiterRun.pending st then 1 else 0).
Proof.
  eexists. split; [reflexivity |].
  exact (proj1 (rate_limiter_after_stop 3 Second _
                  [RateLimiterRun.EvAllow; RateLimiterRun.EvAllow]
                  [RateLimiterRun.EvTickArrives; RateLimiterRun.EvRefill;
                   RateLimiterRun.EvAllow; RateLimiterRun.EvAllow] eq_refl)).
Defined.

(** ** The pool's dispatcher and workers *)

Section PoolDispatchFacts.

Import PoolDispatch.

Lemma pd_run_app (evs1 evs2 : list event) (d : t) :
  run (evs1 ++ evs2) d = run evs2 (run evs1 d).
Proof. unfold run. apply fold_left_app. Qed.

Lemma close_quit_maxWorkers (d : t) :
  Pool.maxWorkers (pool (close_quit d)) = Pool.maxWorkers (pool d).
Proof.
  unfold close_quit, Pool.Stop.
  destruct (Chan.close (Pool.quit (pool d))); [| reflexivity].
  destruct (parked d); reflexivity.
Qed.

Lemma pd_step_maxWorkers (d : t) (e : event) :
  Pool.maxWorkers (pool (step d e)) = Pool.maxWorkers (pool d).
Proof.
  destruct e; cbn [step]; try apply close_quit_maxWorkers.
  - unfold Pool.Submit.
    destruct (Chan.try_send (Pool.jobQueue (pool d)) job) as [q [|]| |];
      reflexivity.
  - destruct (disp d); try reflexivity.
    destruct (_ && _); [| reflexivity].
    cbn. destruct (Chan.try_recv _); reflexivity.
  - unfold Pool.dispatch.
    destruct (disp d); try reflexivity;
      destruct (Chan.try_recv _); reflexivity.
  - destruct (disp d); reflexivity.
  - destruct (disp d); try reflexivity. destruct (workerQueue d); reflexivity.
  - destruct (disp d); try reflexivity.
    destruct (mem _ _); reflexivity.
  - destruct (disp d); try reflexivity.
    destruct (Chan.closed _); reflexivity.
  - destruct (_ && _); reflexivity.
  - reflexivity.
  - reflexivity.
  - reflexivity.
  - cbn. unfold Pool.StopGracefully_close.
    destruct (Chan.close _); reflexivity.
Qed.

Lemma close_quit_workers (d : t) :
  workerQueue (close_quit d) = workerQueue d
  /\ received (close_quit d) = received d
  /\ closed_workers (close_quit d) = closed_workers d
  /\ (disp (close_quit d) = disp d
      \/ disp d = Selecting /\ disp (close_quit d) = Exited).
Proof.
  unfold close_quit.
  destruct (Pool.Stop (pool d)); [| auto].
  destruct (parked d) eqn:Hp; cbn; auto.
  repeat split. right. split; [| reflexivity].
  unfold parked in Hp. destruct (disp d); try discriminate. reflexivity.
Qed.

(** A step leaves the workers that can get a job as they are, or drops
    the one the dispatcher was sending to. *)
Lemma step_workers (d : t) (e : event) :
  workers (step d e) = workers d
  \/ exists j w, disp d = Sending j w
                 /\ workers (step d e) = map fst (received d) ++ workerQueue d.
Proof.
  assert (Hq : workers (close_quit d) = workers d).
  { destruct (close_quit_workers d) as (H1 & H2 & _ & [H3 | [H3 H4]]);
      unfold workers; rewrite H1, H2; [rewrite H3 | rewrite H3, H4];
      reflexivity. }
  destruct e; cbn [step]; auto.
  - left. destruct (Chan.try_send _ _) as [q [|]| |]; try reflexivity.
    unfold workers; cbn. destruct (disp d); reflexivity.
  - left. destruct (disp d); try reflexivity.
    destruct (_ && _); reflexivity.
  - left. destruct (disp d) eqn:Hd; try reflexivity.
    destruct (Pool.dispatch now (pool d)) as [[j p']|]; [| reflexivity].
    unfold workers; cbn. rewrite Hd. reflexivity.
  - left. destruct (disp d) eqn:Hd; try reflexivity.
    unfold workers; cbn. rewrite Hd. reflexivity.
  - left. destruct (disp d) eqn:Hd; try reflexivity.
    destruct (workerQueue d) as [|w rest] eqn:Hw; [reflexivity |].
    unfold workers; cbn. rewrite Hd, Hw. reflexivity.
  - destruct (disp d) eqn:Hd; auto.
    destruct (mem worker (closed_workers d)).
    + right. exists job, worker. split; [reflexivity |].
      unfold workers; cbn. reflexivity.
    + left. unfold workers; cbn. rewrite Hd, map_app, <- app_assoc.
      reflexivity.
  - left. destruct (disp d) eqn:Hd; try reflexivity.
    destruct (Chan.closed _); [| reflexivity].
    unfold workers; cbn. rewrite Hd. reflexivity.
  - left. destruct (_ && _); reflexivity.
Qed.

Lemma step_workers_ok (n : nat) (d : t) (e : event) :
  workers_ok n d -> workers_ok n (step d e).
Proof.
  intros [Hnd Hlt]. unfold workers_ok.
  destruct (step_workers d e) as [-> | (j & w & Hd & ->)]; [split; auto |].
  unfold workers in Hnd, Hlt. rewrite Hd in Hnd, Hlt. cbn in Hnd, Hlt.
  split.
  - eapply NoDup_remove_1; exact Hnd.
  - intros x Hx. apply Hlt. apply in_app_iff in Hx. apply in_app_iff.
    destruct Hx; [left | right; right]; assumption.
Qed.

Lemma run_workers_ok (n : nat) (evs : list event) :
  forall d, workers_ok n d -> workers_ok n (run evs d).
Proof.
  induction evs as [|e evs IH]; intros d H; [exact H |].
  cbn. apply IH, step_workers_ok, H.
Qed.

Lemma start_workers_ok (p : Pool.t) :
  workers_ok (Z.to_nat (Pool.maxWorkers p)) (start p).
Proof.
  unfold workers_ok, workers; cbn. split.
  - apply seq_NoDup.
  - intros w Hw. apply in_seq in Hw. destruct Hw as [_ Hw]. exact Hw.
Qed.

Lemma workers_ok_length (n : nat) (d : t) :
  workers_ok n d -> (length (workers d) <= n)%nat.
Proof.
  intros [Hnd Hlt].
  rewrite <- (length_seq n 0).
  apply NoDup_incl_length; [exact Hnd |].
  intros w Hw. apply in_seq. specialize (Hlt w Hw). split; [apply Nat.le_0_l | exact Hlt].
Qed.

Lemma jobs_of_length (l : list (option Pool.Job)) :
  (length (jobs_of l) <= length l)%nat.
Proof.
  unfold jobs_of.
  induction l as [|[j|] l IH]; cbn [flat_map app length]; lia.
Qed.

Lemma NewPool_maxWorkers (cfg : option Pool.PoolConfig) (p : Pool.t) :
  Pool.NewPool cfg = Returns p -> 0 <= Pool.maxWorkers p.
Proof.
  unfold Pool.NewPool.
  destruct (_ || _) eqn:Hneg; [discriminate |].
  intros H. injection H as <-. cbn.
  apply orb_false_iff in Hneg. destruct Hneg as [_ Hneg].
  apply Z.ltb_ge in Hneg. exact Hneg.
Qed.

(** X13: every worker of a pool receives at most one job in the life of
    the pool, because [startWorker] puts the worker's channel into
    [workerQueue] once and nothing puts it back: whatever is submitted,
    the workers that received a job are distinct, and at most
    [MaxWorkers] jobs ever reach a worker. *)
Theorem pool_worker_gets_one_job (cfg : option Pool.PoolConfig) (p : Pool.t)
    (evs : list event) :
  Pool.NewPool cfg = Returns p ->
  let d := run evs (start p) in
  NoDup (map fst (received d))
  /\ Z.of_nat (length (received d)) <= Pool.maxWorkers p
  /\ Z.of_nat (length (executed d)) <= Pool.maxWorkers p.
Proof.
  intros Hnew d.
  pose proof (NewPool_maxWorkers _ _ Hnew) as Hpos.
  pose proof (run_workers_ok _ evs _ (start_workers_ok p)) as Hok.
  fold d in Hok.
  pose proof (workers_ok_length _ _ Hok) as Hlen.
  destruct Hok as [Hnd _].
  unfold workers in Hnd, Hlen. rewrite length_app, length_map in Hlen.
  assert (Hrec : Z.of_nat (length (received d)) <= Pool.maxWorkers p) by lia.
  split; [| split].
  - eapply NoDup_app_remove_r. exact Hnd.
  - exact Hrec.
  - pose proof (jobs_of_length (map snd (received d))) as Hj.
    rewrite length_map in Hj. unfold executed. lia.
Qed.

Lemma pool_worker_gets_one_job_witness :
  exists p,
    Pool.NewPool (Some example_config) = Returns p
    /\ let d := run (serve "a" ++ serve "b") (start p) in
       NoDup (map fst (received d))
       /\ Z.of_nat (length (received d)) <= Pool.maxWorkers p
       /\ Z.of_nat (length (executed d)) <= Pool.maxWorkers p.
Proof.
  eexists. split; [reflexivity |].
  exact (pool_worker_gets_one_job (Some example_config) _
           (serve "a" ++ serve "b") eq_refl).
Defined.

(** Only a hand-over adds to what the workers received. *)
Lemma step_received (d : t) (e : event) :
  received (step d e) = received d
  \/ exists j w, disp d = Sending j w
                 /\ received (step d e) = received d ++ [(w, j)].
Proof.
  destruct e; cbn [step];
    try (left; apply (close_quit_workers d)); auto.
  - left. destruct (Chan.try_send _ _) as [q [|]| |]; reflexivity.
  - left. destruct (disp d); try reflexivity.
    destruct (_ && _); reflexivity.
  - left. destruct (disp d); try reflexivity.
    destruct (Pool.dispatch now (pool d)) as [[j p']|]; reflexivity.
  - left. destruct (disp d); reflexivity.
  - left. destruct (disp d); try reflexivity.
    destruct (workerQueue d); reflexivity.
  - destruct (disp d) eqn:Hd; auto.
    destruct (mem worker (closed_workers d)); [left; reflexivity |].
    right. exists job, worker. split; reflexivity.
  - left. destruct (disp d); try reflexivity.
    destruct (Chan.closed _); reflexivity.
  - left. destruct (_ && _); reflexivity.
Qed.

(** A dispatcher that waits for a worker while [workerQueue] is empty
    waits on, whatever happens. *)
Lemma step_need_worker (d : t) (e : event) (j : option Pool.Job) :
  disp d = NeedWorker j -> workerQueue d = [] ->
  disp (step d e) = NeedWorker j /\ workerQueue (step d e) = [].
Proof.
  intros Hd Hw.
  assert (Hq : disp (close_quit d) = NeedWorker j
               /\ workerQueue (close_quit d) = []).
  { destruct (close_quit_workers d) as (H1 & _ & _ & [H3 | [H3 _]]);
      [rewrite H1, H3; auto | congruence]. }
  destruct e; cbn [step]; auto.
  - destruct (Chan.try_send _ _) as [q [|]| |]; cbn; rewrite ?Hd; auto.
  - rewrite Hd. auto.
  - rewrite Hd. auto.
  - rewrite Hd. auto.
  - rewrite Hd, Hw. auto.
  - rewrite Hd. auto.
  - rewrite Hd. auto.
  - destruct (_ && _); cbn; auto.
Qed.

(** When every worker has received a job, nobody is left to send to. *)
Lemma all_served (n : nat) (d : t) :
  workers_ok n d -> length (received d) = n ->
  workerQueue d = [] /\ forall j w, disp d <> Sending j w.
Proof.
  intros Hok Hlen. pose proof (workers_ok_length _ _ Hok) as Hle.
  unfold workers in Hle. rewrite !length_app, length_map, Hlen in Hle.
  split.
  - destruct (workerQueue d); [reflexivity |]. cbn in Hle. lia.
  - intros j w Hd. rewrite Hd in Hle. cbn in Hle. lia.
Qed.

Lemma run_all_served (n : nat) (evs : list event) :
  forall d,
    workers_ok n d -> length (received d) = n ->
    received (run evs d) = received d
    /\ forall j, disp d = NeedWorker j -> disp (run evs d) = NeedWorker j.
Proof.
  induction evs as [|e evs IH]; intros d Hok Hlen; [auto |].
  destruct (all_served _ _ Hok Hlen) as [Hw Hns].
  assert (Hrec : received (step d e) = received d).
  { destruct (step_received d e) as [H | (j & w & Hd & _)]; [exact H |].
    destruct (Hns _ _ Hd). }
  assert (Hlen' : length (received (step d e)) = n) by (rewrite Hrec; exact Hlen).
  destruct (IH _ (step_workers_ok _ _ e Hok) Hlen') as [IH1 IH2].
  change (run (e :: evs) d) with (run evs (step d e)). split.
  - rewrite IH1. exact Hrec.
  - intros j Hd. apply IH2. apply step_need_worker; assumption.
Qed.

(** X14: once [MaxWorkers] jobs have been handed to workers, no worker
    receives a job again, whatever happens afterwards; and a dispatcher
    that has taken a further job from the queue waits for a worker for
    ever: it does not return to its [select], and [Stop] does not end
    it. *)
Theorem pool_serves_no_more_than_workers (cfg : option Pool.PoolConfig)
    (p : Pool.t) (evs later : list event) :
  Pool.NewPool cfg = Returns p ->
  let d := run evs (start p) in
  Z.of_nat (length (received d)) = Pool.maxWorkers p ->
  let d' := run later d in
  received d' = received d
  /\ executed d' = executed d
  /\ forall j, disp d = NeedWorker j -> disp d' = NeedWorker j.
Proof.
  intros Hnew d Hfull d'.
  pose proof (run_workers_ok _ evs _ (start_workers_ok p)) as Hok.
  fold d in Hok.
  assert (Hlen : length (received d) = Z.to_nat (Pool.maxWorkers p)) by lia.
  destruct (run_all_served _ later _ Hok Hlen) as [H1 H2]. fold d' in H1, H2.
  split; [exact H1 | split; [| exact H2]].
  unfold executed. rewrite H1. reflexivity.
Qed.

Lemma pool_serves_no_more_than_workers_witness :
  exists p,
    Pool.NewPool (Some example_config) = Returns p
    /\ let d := run (serve "a" ++ serve "b" ++ serve "c"
                     ++ [EvSubmit (example_job "d"); EvTake 0]) (start p) in
       Z.of_nat (length (received d)) = Pool.maxWorkers p
       /\ let d' := run [EvPickWorker; EvHandOver; EvStop; EvDispatcherQuit]
                        d in
          received d' = received d
          /\ executed d' = executed d
          /\ forall j, disp d = NeedWorker j -> disp d' = NeedWorker j.
Proof.
  eexists. split; [reflexivity |]. split; [reflexivity |].
  exact (pool_serves_no_more_than_workers (Some example_config) _
           (serve "a" ++ serve "b" ++ serve "c"
            ++ [EvSubmit (example_job "d"); EvTake 0])
           [EvPickWorker; EvHandOver; EvStop; EvDispatcherQuit]
           eq_refl eq_refl).
Defined.

(** *** Order of the jobs *)

Lemma close_quit_queue (d : t) :
  Chan.buf (Pool.jobQueue (pool (close_quit d)))
  = Chan.buf (Pool.jobQueue (pool d))
  /\ Chan.closed (Pool.jobQueue (pool (close_quit d)))
     = Chan.closed (Pool.jobQueue (pool d))
  /\ (Chan.recvq (Pool.jobQueue (pool (close_quit d))) = 0%nat
      \/ (Chan.recvq (Pool.jobQueue (pool (close_quit d)))
          = Chan.recvq (Pool.jobQueue (pool d))
          /\ disp (close_quit d) = disp d)).
Proof.
  unfold close_quit, Pool.Stop.
  destruct (Chan.close (Pool.quit (pool d))); [| auto].
  destruct (parked d); cbn; auto.
Qed.

Lemma try_send_cases (c : Chan.t Pool.Job) (v : Pool.Job) :
  match Chan.try_send c v with
  | Chan.Sent c' true =>
      (0 < Chan.recvq c)%nat /\ Chan.buf c' = Chan.buf c
      /\ Chan.recvq c' = Nat.pred (Chan.recvq c)
  | Chan.Sent c' false =>
      Chan.recvq c = 0%nat /\ Chan.buf c' = Chan.buf c ++ [v]
      /\ Chan.recvq c' = 0%nat
  | _ => True
  end.
Proof.
  unfold Chan.try_send. destruct (Chan.closed c); [exact I |].
  destruct (Nat.ltb_spec 0 (Chan.recvq c)).
  - cbn. auto.
  - destruct (_ <? _)%nat; cbn; [| exact I].
    assert (Chan.recvq c = 0%nat) by lia. auto.
Qed.

Lemma step_queue_ok (d : t) (e : event) :
  queue_ok d -> queue_ok (step d e).
Proof.
  unfold queue_ok. intros H.
  assert (Hq : let q := Pool.jobQueue (pool (close_quit d)) in
               Chan.recvq q = 0%nat
               \/ (Chan.recvq q = 1%nat /\ disp (close_quit d) = Selecting
                   /\ Chan.buf q = [] /\ Chan.closed q = false)).
  { cbn zeta. destruct (close_quit_queue d) as (Hb & Hc & [Hr | [Hr Hd]]);
      [left; exact Hr |]. rewrite Hb, Hc, Hr, Hd. exact H. }
  destruct e; cbn [step]; auto.
  - unfold Pool.Submit.
    pose proof (try_send_cases (Pool.jobQueue (pool d)) job) as Hs.
    destruct (Chan.try_send _ _) as [q [|]| |]; cbn; auto.
    + destruct Hs as (Hpos & _ & Hr). left.
      destruct H as [H0 | (H1 & _)]; rewrite Hr; [rewrite H0 | rewrite H1];
        reflexivity.
    + left. apply Hs.
  - destruct (disp d) eqn:Hd; try (intuition congruence).
    destruct (_ && _) eqn:Hg; [| tauto].
    apply andb_true_iff in Hg. destruct Hg as [Hg _].
    apply Nat.eqb_eq in Hg. cbn.
    unfold Chan.try_recv.
    destruct (Chan.buf (Pool.jobQueue (pool d))) eqn:Hb; [| auto].
    destruct (Chan.closed (Pool.jobQueue (pool d))) eqn:Hc; [auto |].
    right. cbn. rewrite Hg, Hb, Hc, Hd. auto.
  - destruct (disp d) eqn:Hd; try (intuition congruence).
    unfold Pool.dispatch, Chan.try_recv.
    destruct H as [H0 | (H1 & _ & Hb & Hc)].
    + destruct (Chan.buf (Pool.jobQueue (pool d))); cbn; [| auto].
      destruct (Chan.closed _); cbn; auto.
    + rewrite Hb, Hc. right. rewrite Hd. auto.
  - destruct (disp d) eqn:Hd; intuition congruence.
  - destruct (disp d) eqn:Hd; try (intuition congruence).
    destruct (workerQueue d); intuition congruence.
  - destruct (disp d) eqn:Hd; try (intuition congruence).
    destruct (mem _ _); intuition congruence.
  - destruct (disp d) eqn:Hd; try (intuition congruence).
    destruct (Chan.closed (Pool.quit _)); [| intuition congruence].
    left. reflexivity.
  - destruct (_ && _); auto.
  - cbn. unfold Pool.StopGracefully_close, Chan.close.
    destruct (Chan.closed (Pool.jobQueue (pool d))); cbn; auto.
    intuition congruence.
Qed.

Lemma jobs_of_app (l1 l2 : list (option Pool.Job)) :
  jobs_of (l1 ++ l2) = jobs_of l1 ++ jobs_of l2.
Proof. unfold jobs_of. apply flat_map_app. Qed.

Lemma held_length (d : t) : (length (held d) <= 1)%nat.
Proof.
  unfold held. destruct (disp d) as [| |[j|]|[j|]| |]; cbn; lia.
Qed.

(** Once the dispatcher has panicked, the workers receive nothing more
    and the queue only grows. *)
Lemma step_crashed (d : t) (e : event) :
  crashed d = true -> queue_ok d ->
  crashed (step d e) = true
  /\ executed (step d e) = executed d
  /\ Chan.buf (Pool.jobQueue (pool (step d e)))
     = Chan.buf (Pool.jobQueue (pool d)) ++ accepted1 d e.
Proof.
  unfold crashed. intros Hc Hq. destruct (disp d) eqn:Hd; try discriminate.
  assert (H0 : Chan.recvq (Pool.jobQueue (pool d)) = 0%nat).
  { destruct Hq as [H0 | (_ & Hd' & _)]; [exact H0 | congruence]. }
  assert (Hstop : match disp (close_quit d) with
                  | Crashed _ => true
                  | _ => false
                  end = true
                  /\ executed (close_quit d) = executed d
                  /\ Chan.buf (Pool.jobQueue (pool (close_quit d)))
                     = Chan.buf (Pool.jobQueue (pool d)) ++ []).
  { destruct (close_quit_workers d) as (_ & H2 & _ & [H3 | [H3 _]]);
      [| congruence].
    unfold executed. rewrite H2, H3, Hd, app_nil_r.
    repeat split. apply close_quit_queue. }
  destruct e; cbn [step accepted1]; rewrite ?Hd;
    try (rewrite app_nil_r; cbn; rewrite ?Hd; auto; fail);
    try exact Hstop.
  - unfold Pool.Submit.
    pose proof (try_send_cases (Pool.jobQueue (pool d)) job) as Hs.
    destruct (Chan.try_send _ _) as [q [|]| |]; cbn [fst snd];
      try (rewrite app_nil_r; cbn; rewrite Hd; auto; fail).
    + destruct Hs as (Hpos & _). lia.
    + destruct Hs as (_ & Hbuf & _). cbn. rewrite Hd. auto.
  - rewrite app_nil_r. destruct (_ && _); cbn; rewrite ?Hd; auto.
  - rewrite app_nil_r. cbn. rewrite Hd. repeat split.
    unfold Pool.StopGracefully_close, Chan.close.
    destruct (Chan.closed (Pool.jobQueue (pool d))); reflexivity.
Qed.

Lemma step_in_order (l : list Pool.Job) (d : t) (e : event) :
  queue_ok d -> in_order l d -> in_order (l ++ accepted1 d e) (step d e).
Proof.
  intros Hq (hand & Hl & Hlen & Hhand).
  destruct (crashed d) eqn:Hcr.
  { destruct (step_crashed d e Hcr Hq) as (Hc & He & Hb).
    exists hand. rewrite He, Hb, Hl, <- !app_assoc.
    split; [reflexivity |]. split; [exact Hlen |].
    rewrite Hc. discriminate. }
  specialize (Hhand eq_refl). subst hand l. clear Hlen.
  unfold in_order.
  assert (Hsame : forall d',
             executed d' = executed d -> held d' = held d ->
             Chan.buf (Pool.jobQueue (pool d'))
             = Chan.buf (Pool.jobQueue (pool d)) ->
             exists hand,
               (executed d ++ held d ++ Chan.buf (Pool.jobQueue (pool d)))
               ++ [] = executed d' ++ hand
                       ++ Chan.buf (Pool.jobQueue (pool d'))
               /\ (length hand <= 1)%nat
               /\ (crashed d' = false -> hand = held d')).
  { intros d' H1 H2 H3. exists (held d). rewrite H1, H2, H3, app_nil_r.
    split; [reflexivity |]. split; [apply held_length | reflexivity]. }
  assert (Hstop : exists hand,
             (executed d ++ held d ++ Chan.buf (Pool.jobQueue (pool d)))
             ++ [] = executed (close_quit d) ++ hand
                     ++ Chan.buf (Pool.jobQueue (pool (close_quit d)))
             /\ (length hand <= 1)%nat
             /\ (crashed (close_quit d) = false
                 -> hand = held (close_quit d))).
  { apply Hsame.
    - unfold executed. destruct (close_quit_workers d) as (_ & -> & _).
      reflexivity.
    - unfold held.
      destruct (close_quit_workers d) as (_ & _ & _ & [-> | [-> ->]]);
        reflexivity.
    - apply close_quit_queue. }
  destruct e; cbn [step accepted1].
  - (* Submit *)
    unfold Pool.Submit.
    pose proof (try_send_cases (Pool.jobQueue (pool d)) job) as Hs.
    destruct (Chan.try_send _ _) as [q [|]| |]; cbn [fst snd];
      try (apply Hsame; reflexivity).
    + destruct Hs as (Hpos & Hbuf & _).
      destruct Hq as [H0 | (_ & Hd & Hb & _)]; [lia |].
      exists [job]. unfold held, executed. cbn. rewrite Hd, Hbuf, Hb. cbn.
      split; [rewrite app_nil_r; reflexivity |].
      split; [lia | reflexivity].
    + destruct Hs as (_ & Hbuf & _).
      exists (held d). cbn [pool with_pool Pool.jobQueue Pool.with_jobQueue].
      rewrite Hbuf, <- !app_assoc.
      split; [reflexivity |]. split; [apply held_length | reflexivity].
  - (* Park *)
    destruct (disp d) eqn:Hd; try (apply Hsame; reflexivity).
    destruct (_ && _); [| apply Hsame; reflexivity].
    cbn [Pool.step]. destruct (Chan.try_recv _);
      apply Hsame; unfold held; cbn; rewrite ?Hd; reflexivity.
  - (* Take *)
    destruct (disp d) eqn:Hd; try (apply Hsame; reflexivity).
    unfold Pool.dispatch, Chan.try_recv.
    destruct (Chan.buf (Pool.jobQueue (pool d))) as [|v buf] eqn:Hb.
    + destruct (Chan.closed _); [| apply Hsame; auto].
      exists []. unfold held, executed; cbn. rewrite Hd, Hb.
      split; [rewrite !app_nil_r; reflexivity |].
      split; [lia | reflexivity].
    + exists [v]. unfold held, executed; cbn. rewrite Hd.
      split; [rewrite app_nil_r; reflexivity |].
      split; [lia | reflexivity].
  - (* Count *)
    destruct (disp d) eqn:Hd; try (apply Hsame; reflexivity).
    apply Hsame; unfold held; cbn; rewrite ?Hd; reflexivity.
  - (* PickWorker *)
    destruct (disp d) eqn:Hd; try (apply Hsame; reflexivity).
    destruct (workerQueue d); apply Hsame; unfold held; cbn; rewrite ?Hd;
      reflexivity.
  - (* HandOver *)
    destruct (disp d) eqn:Hd; try (apply Hsame; reflexivity).
    destruct (mem _ _).
    + exists (held d).
      split; [rewrite app_nil_r; reflexivity |].
      split; [apply held_length | discriminate].
    + exists [].
      unfold held, executed; cbn. rewrite Hd, map_app, jobs_of_app. cbn.
      rewrite !app_nil_r, <- app_assoc.
      split; [reflexivity |]. split; [lia | reflexivity].
  - (* DispatcherQuit *)
    destruct (disp d) eqn:Hd; try (apply Hsame; reflexivity).
    destruct (Chan.closed (Pool.quit _)); apply Hsame; unfold held; cbn;
      rewrite ?Hd; reflexivity.
  - destruct (_ && _); apply Hsame; reflexivity.
  - apply Hsame; reflexivity.
  - apply Hsame; reflexivity.
  - apply Hsame; reflexivity.
  - exact Hstop.
  - apply Hsame; try reflexivity.
    cbn. unfold Pool.StopGracefully_close, Chan.close.
    destruct (Chan.closed (Pool.jobQueue (pool d))); reflexivity.
  - exact Hstop.
Qed.

Lemma run_queue_ok (evs : list event) :
  forall d, queue_ok d -> queue_ok (run evs d).
Proof.
  induction evs as [|e evs IH]; intros d H; [exact H |].
  cbn. apply IH, step_queue_ok, H.
Qed.

Lemma run_in_order (evs : list event) :
  forall l d,
    queue_ok d -> in_order l d -> in_order (l ++ accepted evs d) (run evs d).
Proof.
  induction evs as [|e evs IH]; intros l d Hq Ho.
  - cbn. rewrite app_nil_r. exact Ho.
  - cbn [accepted run fold_left]. rewrite app_assoc.
    apply IH; [apply step_queue_ok, Hq |].
    apply (step_in_order l d e Hq Ho).
Qed.

Lemma start_queue_ok (cfg : option Pool.PoolConfig) (p : Pool.t) :
  Pool.NewPool cfg = Returns p ->
  queue_ok (start p) /\ in_order [] (start p).
Proof.
  unfold Pool.NewPool. destruct (_ || _); [discriminate |].
  intros H. injection H as <-. split.
  - left. reflexivity.
  - exists []. cbn. split; [reflexivity |]. split; [lia | reflexivity].
Qed.

(** X15: the pool hands jobs on in the order in which [Submit] accepted
    them, each one once: the jobs for which [Submit] returned [nil] are,
    in order, those the workers received, then at most one job in the
    hands of the dispatcher, then the content of the queue. Unless the
    dispatcher has panicked (sending to a worker that has closed its
    channel), the job in its hands is the one it holds, so that none is
    lost. *)
Theorem pool_jobs_in_order (cfg : option Pool.PoolConfig) (p : Pool.t)
    (evs : list event) :
  Pool.NewPool cfg = Returns p ->
  let d := run evs (start p) in
  exists hand,
    accepted evs (start p)
    = executed d ++ hand ++ Chan.buf (Pool.jobQueue (pool d))
    /\ (length hand <= 1)%nat
    /\ (crashed d = false -> hand = held d).
Proof.
  intros Hnew d.
  destruct (start_queue_ok _ _ Hnew) as [Hq Ho].
  exact (run_in_order evs [] _ Hq Ho).
Qed.

Lemma pool_jobs_in_order_witness :
  exists p,
    Pool.NewPool (Some example_config) = Returns p
    /\ let evs := serve "a" ++ [EvSubmit (example_job "b"); EvTake 0;
                                EvSubmit (example_job "c")] in
       let d := run evs (start p) in
       exists hand,
         accepted evs (start p)
         = executed d ++ hand ++ Chan.buf (Pool.jobQueue (pool d))
         /\ (length hand <= 1)%nat
         /\ (crashed d = false -> hand = held d).
Proof.
  eexists. split; [reflexivity |].
  exact (pool_jobs_in_order (Some example_config) _
           (serve "a" ++ [EvSubmit (example_job "b"); EvTake 0;
                          EvSubmit (example_job "c")]) eq_refl).
Defined.

(** *** Size of the queue *)

Lemma try_send_fits (c : Chan.t Pool.Job) (v : Pool.Job) :
  match Chan.try_send c v with
  | Chan.Sent c' _ =>
      Chan.cap c' = Chan.cap c
      /\ ((length (Chan.buf c) <= Chan.cap c)%nat
          -> (length (Chan.buf c') <= Chan.cap c)%nat)
  | _ => True
  end.
Proof.
  unfold Chan.try_send. destruct (Chan.closed c); [exact I |].
  destruct (0 <? Chan.recvq c)%nat; [cbn; auto |].
  destruct (Nat.ltb_spec (length (Chan.buf c)) (Chan.cap c)); [| exact I].
  cbn. split; [reflexivity |]. intros _. rewrite length_app. cbn. lia.
Qed.

Lemma close_quit_fits (c : nat) (d : t) :
  queue_fits c d -> queue_fits c (close_quit d).
Proof.
  unfold queue_fits, close_quit, Pool.Stop.
  destruct (Chan.close (Pool.quit (pool d))); [| auto].
  destruct (parked d); cbn; auto.
Qed.

Lemma step_queue_fits (c : nat) (d : t) (e : event) :
  queue_fits c d -> queue_fits c (step d e).
Proof.
  intros H. pose proof (close_quit_fits c d H) as Hstop.
  unfold queue_fits in *. destruct H as [Hcap Hlen].
  destruct e; cbn [step]; auto.
  - unfold Pool.Submit.
    pose proof (try_send_fits (Pool.jobQueue (pool d)) job) as Hs.
    destruct (Chan.try_send _ _) as [q [|]| |]; cbn; auto;
      destruct Hs as [Hs1 Hs2]; rewrite Hs1; split; auto; lia.
  - destruct (disp d); auto. destruct (_ && _); auto.
    cbn. destruct (Chan.try_recv _); cbn; auto.
  - destruct (disp d); auto.
    unfold Pool.dispatch, Chan.try_recv.
    destruct (Chan.buf (Pool.jobQueue (pool d))) eqn:Hb; cbn.
    + destruct (Chan.closed _); cbn; rewrite ?Hb; auto.
    + cbn in Hlen. split; [exact Hcap | lia].
  - destruct (disp d); auto.
  - destruct (disp d); auto. destruct (workerQueue d); auto.
  - destruct (disp d); auto. destruct (mem _ _); auto.
  - destruct (disp d); auto. destruct (Chan.closed _); auto.
  - destruct (_ && _); auto.
  - cbn. unfold Pool.StopGracefully_close, Chan.close.
    destruct (Chan.closed (Pool.jobQueue (pool d))); cbn; auto.
Qed.

Lemma run_queue_fits (c : nat) (evs : list event) :
  forall d, queue_fits c d -> queue_fits c (run evs d).
Proof.
  induction evs as [|e evs IH]; intros d H; [exact H |].
  cbn. apply IH, step_queue_fits, H.
Qed.

Lemma start_queue_fits (cfg : option Pool.PoolConfig) (p : Pool.t) :
  Pool.NewPool cfg = Returns p ->
  0 <= Pool.QueueSize (config_of cfg)
  /\ Pool.maxWorkers p = Pool.MaxWorkers (config_of cfg)
  /\ queue_fits (Z.to_nat (Pool.QueueSize (config_of cfg))) (start p).
Proof.
  unfold Pool.NewPool. fold (config_of cfg).
  destruct (_ || _) eqn:Hneg; [discriminate |].
  intros H. injection H as <-.
  apply orb_false_iff in Hneg. destruct Hneg as [Hneg _].
  apply Z.ltb_ge in Hneg.
  split; [exact Hneg |]. split; [reflexivity |].
  split; [reflexivity | cbn; lia].
Qed.

(** X16: the number of queued jobs that [GetStats] reports is never
    negative and never above the configured [QueueSize] (that of
    [DefaultPoolConfig] when [NewPool] is given no configuration). *)
Theorem pool_queue_bounded (cfg : option Pool.PoolConfig) (p : Pool.t)
    (evs : list event) :
  Pool.NewPool cfg = Returns p ->
  0 <= Pool.QueuedJobs (Pool.GetStats (pool (run evs (start p))))
    <= Pool.QueueSize (config_of cfg).
Proof.
  intros Hnew. destruct (start_queue_fits _ _ Hnew) as (Hpos & _ & Hfit).
  destruct (run_queue_fits _ evs _ Hfit) as [_ Hlen].
  cbn. unfold Chan.len. lia.
Qed.

Lemma pool_queue_bounded_witness :
  exists p,
    Pool.NewPool (Some example_config) = Returns p
    /\ 0 <= Pool.QueuedJobs
              (Pool.GetStats
                 (pool (run [EvSubmit (example_job "a");
                             EvSubmit (example_job "b")] (start p))))
         <= 10.
Proof.
  eexists. split; [reflexivity |].
  exact (pool_queue_bounded (Some example_config) _
           [EvSubmit (example_job "a"); EvSubmit (example_job "b")]
           eq_refl).
Defined.

(** X17: in its whole life a pool accepts at most
    [MaxWorkers + QueueSize + 1] jobs: each worker takes one, the
    dispatcher holds one, the queue holds [QueueSize]; [Submit] returns
    [nil] no more often than that. *)
Theorem pool_accepts_finitely_many (cfg : option Pool.PoolConfig)
    (p : Pool.t) (evs : list event) :
  Pool.NewPool cfg = Returns p ->
  Z.of_nat (length (accepted evs (start p)))
  <= Pool.MaxWorkers (config_of cfg) + 1 + Pool.QueueSize (config_of cfg).
Proof.
  intros Hnew.
  destruct (start_queue_fits _ _ Hnew) as (Hpos & Hmax & Hfit).
  destruct (run_queue_fits _ evs _ Hfit) as [_ Hlen].
  destruct (start_queue_ok _ _ Hnew) as [Hq Ho].
  destruct (run_in_order evs [] _ Hq Ho) as (hand & Hacc & Hhand & _).
  pose proof (NewPool_maxWorkers _ _ Hnew) as Hmpos.
  pose proof (workers_ok_length _ _
                (run_workers_ok _ evs _ (start_workers_ok p))) as Hw.
  unfold workers in Hw. rewrite length_app, length_map in Hw.
  pose proof (jobs_of_length (map snd (received (run evs (start p))))) as Hj.
  rewrite length_map in Hj.
  cbn [app] in Hacc. rewrite Hacc, !length_app. unfold executed.
  rewrite <- Hmax. lia.
Qed.

Lemma pool_accepts_finitely_many_witness :
  exists p,
    Pool.NewPool (Some example_config) = Returns p
    /\ Z.of_nat (length (accepted (serve "a" ++ serve "b") (start p)))
       <= 3 + 1 + 10.
Proof.
  eexists. split; [reflexivity |].
  exact (pool_accepts_finitely_many (Some example_config) _
           (serve "a" ++ serve "b") eq_refl).
Defined.

(** *** Stopping twice *)

Lemma close_quit_closed (d : t) :
  (Chan.closed (Pool.quit (pool d)) = true
   -> Chan.closed (Pool.quit (pool (close_quit d))) = true)
  /\ (Chan.closed (Pool.jobQueue (pool d)) = true
      -> Chan.closed (Pool.jobQueue (pool (close_quit d))) = true).
Proof.
  unfold close_quit, Pool.Stop, Chan.close.
  destruct (Chan.closed (Pool.quit (pool d))) eqn:Hc; [auto |].
  destruct (parked d); cbn; auto.
Qed.

(** Nothing opens a closed channel again. *)
Lemma pd_step_keeps_closed (d : t) (e : event) :
  (Chan.closed (Pool.quit (pool d)) = true
   -> Chan.closed (Pool.quit (pool (step d e))) = true)
  /\ (Chan.closed (Pool.jobQueue (pool d)) = true
      -> Chan.closed (Pool.jobQueue (pool (step d e))) = true).
Proof.
  pose proof (close_quit_closed d) as Hstop.
  destruct e; cbn [step]; auto.
  - unfold Pool.Submit, Chan.try_send.
    destruct (Chan.closed (Pool.jobQueue (pool d))) eqn:Hc;
      [cbn; rewrite Hc; auto |].
    split; [| discriminate].
    destruct (_ <? _)%nat; [destruct (disp d); cbn; auto |].
    destruct (_ <? _)%nat; cbn; auto.
  - destruct (disp d); auto. destruct (_ && _); auto.
    cbn. destruct (Chan.try_recv _); cbn; auto.
  - destruct (disp d); auto.
    unfold Pool.dispatch, Chan.try_recv.
    destruct (Chan.buf (Pool.jobQueue (pool d))); cbn; auto.
    destruct (Chan.closed (Pool.jobQueue (pool d))) eqn:Hc; cbn;
      rewrite ?Hc; auto.
  - destruct (disp d); auto.
  - destruct (disp d); auto. destruct (workerQueue d); auto.
  - destruct (disp d); auto. destruct (mem _ _); auto.
  - destruct (disp d); auto.
    destruct (Chan.closed (Pool.quit (pool d))) eqn:Hc; auto.
    cbn. rewrite Hc. auto.
  - destruct (_ && _); auto.
  - cbn. unfold Pool.StopGracefully_close, Chan.close.
    destruct (Chan.closed (Pool.jobQueue (pool d))) eqn:Hc; cbn;
      rewrite ?Hc; auto.
Qed.

Lemma pd_run_keeps_closed (evs : list event) :
  forall d,
    (Chan.closed (Pool.quit (pool d)) = true
     -> Chan.closed (Pool.quit (pool (run evs d))) = true)
    /\ (Chan.closed (Pool.jobQueue (pool d)) = true
        -> Chan.closed (Pool.jobQueue (pool (run evs d))) = true).
Proof.
  induction evs as [|e evs IH]; intros d; [auto |].
  destruct (pd_step_keeps_closed d e) as [H1 H2].
  destruct (IH (step d e)) as [H3 H4]. cbn. auto.
Qed.

(** X18: a pool can be stopped once. After a [Stop] that returned, any
    later [Stop], and the final step of any later [StopGracefully],
    panics with "close of closed channel"; after a [StopGracefully] that
    closed the job queue, any later [StopGracefully] panics at once with
    the same value. *)
Theorem pool_stop_twice (d : t) (later : list event) :
  (forall p1, Pool.Stop (pool d) = Returns p1 ->
     let d' := run later (step d EvStop) in
     Pool.Stop (pool d') = Panics close_of_closed
     /\ Pool.StopGracefully_quit (pool d') = Panics close_of_closed)
  /\ (forall p1, Pool.StopGracefully_close (pool d) = Returns p1 ->
        let d' := run later (step d EvStopGracefullyClose) in
        Pool.StopGracefully_close (pool d') = Panics close_of_closed).
Proof.
  split.
  - intros p1 Hstop d'.
    assert (Hc : Chan.closed (Pool.quit (pool (step d EvStop))) = true).
    { cbn [step]. unfold close_quit. rewrite Hstop.
      unfold Pool.Stop, Chan.close in Hstop.
      destruct (Chan.closed (Pool.quit (pool d))); [discriminate |].
      injection Hstop as <-. destruct (parked d); reflexivity. }
    apply (proj1 (pd_run_keeps_closed later _)) in Hc. fold d' in Hc.
    unfold Pool.StopGracefully_quit, Pool.Stop, Chan.close. rewrite Hc.
    split; reflexivity.
  - intros p1 Hstop d'.
    assert (Hc : Chan.closed
                   (Pool.jobQueue (pool (step d EvStopGracefullyClose)))
                 = true).
    { cbn. rewrite Hstop.
      unfold Pool.StopGracefully_close, Chan.close in Hstop.
      destruct (Chan.closed (Pool.jobQueue (pool d))); [discriminate |].
      injection Hstop as <-. reflexivity. }
    apply (proj2 (pd_run_keeps_closed later _)) in Hc. fold d' in Hc.
    unfold Pool.StopGracefully_close, Chan.close. rewrite Hc. reflexivity.
Qed.

Lemma pool_stop_twice_witness :
  exists p,
    Pool.NewPool (Some example_config) = Returns p
    /\ Pool.Stop
         (pool (run [EvSubmit (example_job "a")] (step (start p) EvStop)))
       = Panics close_of_closed
    /\ Pool.StopGracefully_close
         (pool (run [EvSubmit (example_job "a")]
                  (step (start p) EvStopGracefullyClose)))
       = Panics close_of_closed.
Proof.
  eexists. split; [reflexivity |]. split.
  - refine (proj1 (proj1 (pool_stop_twice _ _) _ _)). reflexivity.
  - refine (proj2 (pool_stop_twice _ _) _ _). reflexivity.
Defined.

End PoolDispatchFacts.

(** ** More on the executor *)

Section ExecutorMoreFacts.

Import SafeExecutor ExecutorSpec ExecutorMore.

Lemma before_space_word (w rest : string) :
  no_space w = true ->
  forall n, (String.length w < n)%nat ->
            before_space (substring 0 n (w ++ String " " rest)) = Some w.
Proof.
  induction w as [|c w IH]; intros Hns n Hn.
  - destruct n as [|n]; [lia |]. reflexivity.
  - cbn in Hns. apply andb_true_iff in Hns. destruct Hns as [Hc Hns].
    destruct n as [|n]; [cbn in Hn; lia |].
    cbn in Hn. cbn [append substring before_space].
    destruct (Ascii.eqb c " "); [discriminate |].
    rewrite (IH Hns n) by lia. reflexivity.
Qed.

Lemma before_space_none (s : string) :
  no_space s = true -> before_space s = None.
Proof.
  induction s as [|c s IH]; [reflexivity |].
  cbn. intros H. apply andb_true_iff in H. destruct H as [Hc Hs].
  destruct (Ascii.eqb c " "); [discriminate |].
  rewrite (IH Hs). reflexivity.
Qed.

Lemma before_space_no_space (s : string) :
  forall w, before_space s = Some w -> no_space w = true.
Proof.
  induction s as [|c s IH]; intros w; [discriminate |].
  cbn. destruct (Ascii.eqb c " ") eqn:Hc.
  - intros H. injection H as <-. reflexivity.
  - destruct (before_space s) as [p|]; [| discriminate].
    intros H. injection H as <-. cbn. rewrite Hc. cbn. apply IH. reflexivity.
Qed.

(** X19: [getGoroutineID] returns the first word of the stack text,
    that is, what stands before its first space (within the first 64
    bytes). The text [runtime.Stack] writes begins with "goroutine 18
    [running]:", so the id that reaches the statistics and the recovery
    handler is the word "goroutine", not the number. *)
Theorem goroutine_id_is_first_word (w rest : string) :
  no_space w = true -> (String.length w < 64)%nat ->
  getGoroutineID (w ++ String " " rest) = w.
Proof.
  intros Hns Hlen.
  unfold getGoroutineID. rewrite (before_space_word w rest Hns 64 Hlen).
  reflexivity.
Qed.

Lemma goroutine_id_is_first_word_witness :
  getGoroutineID "goroutine 18 [running]:" = "goroutine"%string.
Proof.
  apply (goroutine_id_is_first_word "goroutine" "18 [running]:").
  - reflexivity.
  - cbn. lia.
Defined.




(** No step changes what a goroutine was spawned with, nor its place. *)
Lemma apply_label_same_task (l : label) (se se' : t) (i : nat)
    (g : goroutine) :
  apply_label se l = Some se' ->
  nth_error (goroutines se) i = Some g ->
  exists g', nth_error (goroutines se') i = Some g' /\ same_task g g'.
Proof.
  unfold apply_label. destruct (crashed se); [discriminate |].
  intros Hl Hg.
  assert (Hrefl : same_task g g) by (repeat split).
  destruct l as [c fn stack | j now | h |].
  - injection Hl as <-. exists g. split; [| exact Hrefl].
    cbn. rewrite nth_error_app1; [exact Hg |].
    apply nth_error_Some. congruence.
  - unfold step in Hl.
    destruct (nth_error (goroutines se) j) as [gj|] eqn:Hj; [| discriminate].
    assert (Hput : forall p evs st c,
               exists g',
                 nth_error (goroutines (put j (advance p evs gj) st c se)) i
                 = Some g' /\ same_task g g').
    { intros p evs st c. cbn [goroutines put].
      destruct (Nat.eq_dec j i) as [-> | Hne].
      - rewrite (nth_error_set_nth_eq _ _ _ _ Hj).
        assert (gj = g) by congruence. subst gj.
        eexists. split; [reflexivity |]. repeat split.
      - rewrite nth_error_set_nth_ne by exact Hne.
        exists g. split; [exact Hg | exact Hrefl]. }
    destruct (g_pc gj); try discriminate;
      try (injection Hl as <-; apply Hput).
    destruct (value_is_nil (recovered gj)); injection Hl as <-; apply Hput.
  - injection Hl as <-. exists g. split; [exact Hg | exact Hrefl].
  - injection Hl as <-. exists g. split; [exact Hg | exact Hrefl].
Qed.

Lemma run_same_task (ls : list label) :
  forall se se' i g,
    run ls se = Some se' ->
    nth_error (goroutines se) i = Some g ->
    exists g', nth_error (goroutines se') i = Some g' /\ same_task g g'.
Proof.
  induction ls as [|l ls IH]; intros se se' i g Hrun Hg.
  - injection Hrun as <-. exists g. split; [exact Hg | repeat split].
  - rewrite run_cons in Hrun.
    destruct (apply_label se l) as [se1|] eqn:Hl; [| discriminate].
    destruct (apply_label_same_task _ _ _ _ _ Hl Hg) as (g1 & Hg1 & Hs1).
    destruct (IH _ _ _ _ Hrun Hg1) as (g2 & Hg2 & Hs2).
    exists g2. split; [exact Hg2 |].
    destruct Hs1 as (A1 & A2 & A3 & A4), Hs2 as (B1 & B2 & B3 & B4).
    repeat split; congruence.
Qed.

(** X21: a goroutine keeps the recovery handler that was set when it
    was started: whatever [SetRecoverHandler] is called with while it
    runs, after a panic it calls the handler of the time of its spawn,
    with the panic value, the stack text and the id, and it calls none
    if there was none then. *)
Theorem executor_handler_fixed_at_spawn (before after : list label)
    (se1 se2 : t) (ctx_done : bool) (fn : behaviour) (stack : string) :
  run before NewSafeExecutor = Some se1 ->
  run after (GoWithContext ctx_done fn stack se1) = Some se2 ->
  exists g,
    nth_error (goroutines se2) (length (goroutines se1)) = Some g
    /\ g_handler g = recoverHandler se1
    /\ g_fn g = fn /\ g_ctx_done g = ctx_done /\ g_stack g = stack
    /\ (g_pc g = Finished -> value_is_nil (recovered g) = false ->
        handler_calls (g_events g)
        = match recoverHandler se1 with
          | Some _ => [(recovered g, stack, getGoroutineID stack)]
          | None => []
          end
        /\ forall h, recoverHandler se1 = Some h ->
                     In (EvHandler (recovered g) stack (getGoroutineID stack)
                           (h (recovered g) stack (getGoroutineID stack)))
                        (g_events g)).
Proof.
  intros Hbefore Hafter.
  set (g0 := {| g_ctx_done := ctx_done; g_fn := fn; g_stack := stack;
                g_handler := recoverHandler se1; g_pc := Spawned;
                g_events := [] |}).
  assert (Hall : Forall coherent
                   (goroutines (GoWithContext ctx_done fn stack se1))).
  { cbn. apply Forall_app. split.
    - eapply run_coherent; [| exact Hbefore]. constructor.
    - constructor; [| constructor]. split; [reflexivity | discriminate]. }
  assert (Hg0 : nth_error (goroutines (GoWithContext ctx_done fn stack se1))
                  (length (goroutines se1)) = Some g0).
  { cbn. rewrite nth_error_app2 by lia. rewrite Nat.sub_diag. reflexivity. }
  destruct (run_same_task _ _ _ _ _ Hafter Hg0) as (g & Hg & H1 & H2 & H3 & H4).
  cbn in H1, H2, H3, H4.
  exists g. repeat (split; [assumption |]).
  intros Hpc Hnil.
  assert (Hcoh : coherent g).
  { pose proof (run_coherent _ _ _ Hall Hafter) as Hall2.
    rewrite Forall_forall in Hall2. apply Hall2. eapply nth_error_In, Hg. }
  destruct Hcoh as [Hev _].
  destruct (finished_history g Hpc Hev) as (_ & _ & Hp).
  destruct (Hp Hnil) as (_ & _ & Hcalls).
  rewrite H4, H3 in Hcalls. split; [exact Hcalls |].
  intros h Hh. rewrite Hev. unfold history. rewrite Hpc, Hnil.
  unfold report_events. rewrite H4, Hh, H3.
  apply in_or_app. right. apply in_or_app. right.
  apply in_or_app. right. apply in_or_app. right. left. reflexivity.
Qed.

Lemma executor_handler_fixed_at_spawn_witness :
  exists se2 g,
    run [LSetRecoverHandler (Some panicking_handler); LStep 0 0; LStep 0 0;
         LStep 0 0; LStep 0 0]
      (GoWithContext false (FnPanics (VString "boom")) example_stack
         NewSafeExecutor) = Some se2
    /\ nth_error (goroutines se2) 0 = Some g
    /\ g_pc g = Finished
    /\ crashed se2 = None
    /\ In (EvHandler (VString "boom") example_stack "goroutine"
             (Returns tt)) (g_events g).
Proof.
  eexists. eexists. split; [vm_compute; reflexivity |].
  split; [vm_compute; reflexivity |]. split; [reflexivity |].
  split; [reflexivity |].
  destruct (executor_handler_fixed_at_spawn []
              [LSetRecoverHandler (Some panicking_handler); LStep 0 0;
               LStep 0 0; LStep 0 0; LStep 0 0]
              NewSafeExecutor _ false (FnPanics (VString "boom"))
              example_stack eq_refl ltac:(vm_compute; reflexivity))
    as (g & Hg & _ & _ & _ & _ & Hfin).
  injection Hg as <-.
  exact (proj2 (Hfin eq_refl eq_refl) defaultRecoverHandler eq_refl).
Defined.

End ExecutorMoreFacts.

(** ** WaitGroup *)

Section WaitGroupFacts.

Import WaitGroup.

Lemma wrap32_id (z : Z) : - 2 ^ 31 <= z < 2 ^ 31 -> Int32.wrap z = z.
Proof.
  intros H. unfold Int32.wrap. rewrite Z.mod_small; lia.
Qed.

Lemma wg_run_cons (e : event) (evs : list event) (wg : t) :
  run (e :: evs) wg
  = match apply_event wg e with
    | Some wg' => run evs wg'
    | None => None
    end.
Proof.
  unfold run. cbn. destruct (apply_event wg e); [reflexivity |].
  induction evs; cbn; auto.
Qed.

Lemma step_done (i : nat) (now : Z) (wg wg' : t) :
  step i now wg = Some wg' -> done wg' = done wg.
Proof.
  unfold step, Done, sync_Add.
  destruct (runs_wrapper i wg).
  - destruct (_ <? 0);
      destruct (SafeExecutor.apply_label _ _); cbn; try discriminate;
      intros H; injection H as <-; reflexivity.
  - destruct (SafeExecutor.apply_label _ _); cbn; try discriminate.
    intros H; injection H as <-; reflexivity.
Qed.

Lemma apply_event_done (wg wg' : t) (e : event) :
  done wg = true -> apply_event wg e = Some wg' -> done wg' = true.
Proof.
  intros Hd. unfold apply_event.
  destruct (SafeExecutor.crashed (se wg)); [discriminate |].
  destruct e as [c fn stack | | delta | | l].
  - unfold GoWithContext, Add. rewrite Hd. cbn.
    intros H; injection H as <-; exact Hd.
  - intros H; injection H as <-; reflexivity.
  - unfold Add. rewrite Hd. cbn. intros H; injection H as <-; exact Hd.
  - cbn. intros H; injection H as <-; exact Hd.
  - destruct l as [c fn stack | i now | h |];
      try (destruct (SafeExecutor.apply_label _ _); cbn; try discriminate;
           intros H; injection H as <-; exact Hd).
    intros H. rewrite (step_done _ _ _ _ H). exact Hd.
Qed.

Lemma run_done (evs : list event) :
  forall wg wg', done wg = true -> run evs wg = Some wg' -> done wg' = true.
Proof.
  induction evs as [|e evs IH]; intros wg wg' Hd Hrun.
  - injection Hrun as <-. exact Hd.
  - rewrite wg_run_cons in Hrun.
    destruct (apply_event wg e) as [wg1|] eqn:He; [| discriminate].
    eapply IH; [| exact Hrun]. eapply apply_event_done; eauto.
Qed.

(** X22: [Wait] closes a wait group for good. Once [Wait] has been
    called, whatever happens afterwards, [Add] panics with
    "WaitGroup: Add called after Wait", and so do [Go] and
    [GoWithContext], before they start anything: the wait group and its
    executor are left as they were. *)
Theorem wait_group_closed_by_wait (wg wg' : t) (evs : list event) :
  run evs (Wait_begin wg) = Some wg' ->
  (forall delta, Add delta wg' = (Panics add_after_wait, wg'))
  /\ (forall ctx_done fn stack,
        GoWithContext ctx_done fn stack wg' = (Panics add_after_wait, wg'))
  /\ (forall fn stack, Go fn stack wg' = (Panics add_after_wait, wg')).
Proof.
  intros Hrun.
  assert (Hd : done wg' = true) by (eapply run_done; [| exact Hrun]; reflexivity).
  unfold Go, GoWithContext, Add. rewrite Hd. repeat split.
Qed.

Lemma wait_group_closed_by_wait_witness :
  exists wg',
    run [EvExecutor (SafeExecutor.LGo false SafeExecutor.FnReturns
                       example_stack)]
      (Wait_begin (NewWaitGroup SafeExecutor.NewSafeExecutor)) = Some wg'
    /\ Add 1 wg' = (Panics add_after_wait, wg')
    /\ Go SafeExecutor.FnReturns example_stack wg'
       = (Panics add_after_wait, wg').
Proof.
  eexists. split; [vm_compute; reflexivity |].
  split.
  - refine (proj1 (wait_group_closed_by_wait
                     (NewWaitGroup SafeExecutor.NewSafeExecutor) _
                     [EvExecutor (SafeExecutor.LGo false
                                    SafeExecutor.FnReturns example_stack)]
                     _) 1).
    vm_compute. reflexivity.
  - refine (proj2 (proj2 (wait_group_closed_by_wait
                            (NewWaitGroup SafeExecutor.NewSafeExecutor) _
                            [EvExecutor (SafeExecutor.LGo false
                                           SafeExecutor.FnReturns
                                           example_stack)]
                            _)) SafeExecutor.FnReturns example_stack).
    vm_compute. reflexivity.
Defined.

(** *** The counter *)

Lemma count_from_app (ms : list nat) (gs1 gs2 : list SafeExecutor.goroutine) :
  forall k,
    count_from ms k (gs1 ++ gs2)
    = count_from ms k gs1 + count_from ms (k + length gs1) gs2.
Proof.
  induction gs1 as [|g gs1 IH]; intros k; cbn [app count_from length].
  - rewrite Nat.add_0_r. lia.
  - rewrite IH. replace (S k + length gs1)%nat with (k + S (length gs1))%nat
      by lia. lia.
Qed.

Lemma count_from_ext (ms ms' : list nat) (gs : list SafeExecutor.goroutine) :
  forall k,
    (forall j, (k <= j < k + length gs)%nat ->
               existsb (Nat.eqb j) ms = existsb (Nat.eqb j) ms') ->
    count_from ms k gs = count_from ms' k gs.
Proof.
  induction gs as [|g gs IH]; intros k Hext; [reflexivity |].
  cbn [count_from]. cbn [length] in Hext.
  rewrite (Hext k) by lia. rewrite (IH (S k)); [reflexivity |].
  intros j Hj. apply Hext. lia.
Qed.

Lemma count_from_bounds (ms : list nat) (gs : list SafeExecutor.goroutine) :
  forall k, 0 <= count_from ms k gs <= Z.of_nat (length gs).
Proof.
  induction gs as [|g gs IH]; intros k; cbn [count_from length]; [lia |].
  specialize (IH (S k)). destruct (_ && _); lia.
Qed.

Lemma count_from_set_nth (ms : list nat) (g g' : SafeExecutor.goroutine) :
  forall gs i k,
    nth_error gs i = Some g ->
    count_from ms k (SafeExecutor.set_nth i g' gs)
    = count_from ms k gs - weight ms (k + i) g + weight ms (k + i) g'.
Proof.
  unfold weight.
  induction gs as [|x gs IH]; intros [|i] k Hg; cbn in Hg; try discriminate.
  - injection Hg as ->. cbn [SafeExecutor.set_nth count_from].
    rewrite Nat.add_0_r. lia.
  - cbn [SafeExecutor.set_nth count_from]. rewrite (IH i (S k) Hg).
    replace (S k + i)%nat with (k + S i)%nat by lia. lia.
Qed.

Lemma count_from_zero (ms : list nat) (gs : list SafeExecutor.goroutine) :
  forall k,
    count_from ms k gs = 0
    <-> forall i g, nth_error gs i = Some g -> weight ms (k + i) g = 0.
Proof.
  unfold weight.
  induction gs as [|x gs IH]; intros k.
  - split; [| reflexivity]. intros _ [|i] g H; discriminate.
  - cbn [count_from]. pose proof (count_from_bounds ms gs (S k)) as Hb.
    split.
    + intros H0 [|i] g Hg; cbn in Hg.
      * injection Hg as <-. rewrite Nat.add_0_r.
        destruct (_ && _); lia.
      * replace (k + S i)%nat with (S k + i)%nat by lia.
        apply (proj1 (IH (S k))); [| exact Hg]. destruct (_ && _); lia.
    + intros Hall.
      pose proof (Hall 0%nat x eq_refl) as H0. rewrite Nat.add_0_r in H0.
      rewrite H0. apply (proj2 (IH (S k))).
      intros i g Hg. replace (S k + i)%nat with (k + S i)%nat by lia.
      apply Hall. exact Hg.
Qed.

(** What a step of the executor does to the goroutine that takes it. *)
Lemma executor_step_shape (i : nat) (now : Z) (e e' : SafeExecutor.t) :
  SafeExecutor.step i now e = Some e' ->
  exists g g',
    nth_error (SafeExecutor.goroutines e) i = Some g
    /\ SafeExecutor.goroutines e'
       = SafeExecutor.set_nth i g' (SafeExecutor.goroutines e)
    /\ SafeExecutor.g_ctx_done g' = SafeExecutor.g_ctx_done g
    /\ SafeExecutor.g_pc g' <> SafeExecutor.Spawned.
Proof.
  unfold SafeExecutor.step.
  destruct (nth_error (SafeExecutor.goroutines e) i) as [g|]; [| discriminate].
  intros H. exists g.
  destruct (SafeExecutor.g_pc g); try discriminate;
    try (injection H as <-; eexists; split; [reflexivity |];
         split; [reflexivity |]; split; [reflexivity | discriminate]).
  destruct (SafeExecutor.value_is_nil _); injection H as <-;
    eexists; (split; [reflexivity |]);
    (split; [reflexivity |]); (split; [reflexivity | discriminate]).
Qed.

Lemma not_member (ms : list nat) (n : nat) :
  Forall (fun i => (i < n)%nat) ms ->
  forall j, (n <= j)%nat -> existsb (Nat.eqb j) ms = false.
Proof.
  intros Hall j Hj. apply not_true_is_false. intros Hex.
  apply existsb_exists in Hex. destruct Hex as (x & Hin & Heq).
  apply Nat.eqb_eq in Heq. subst x.
  rewrite Forall_forall in Hall. specialize (Hall j Hin). lia.
Qed.

Lemma weight_bounds (ms : list nat) (j : nat) (g : SafeExecutor.goroutine) :
  0 <= weight ms j g <= 1.
Proof. unfold weight. destruct (_ && _); lia. Qed.

Lemma count_from_member (ms : list nat) (g : SafeExecutor.goroutine) :
  forall gs i k,
    nth_error gs i = Some g -> weight ms (k + i) g <= count_from ms k gs.
Proof.
  intros gs i k Hg.
  pose proof (count_from_set_nth ms g g gs i k Hg) as H.
  pose proof (count_from_set_nth ms g
                {| SafeExecutor.g_ctx_done := false;
                   SafeExecutor.g_fn := SafeExecutor.FnReturns;
                   SafeExecutor.g_stack := EmptyString;
                   SafeExecutor.g_handler := None;
                   SafeExecutor.g_pc := SafeExecutor.Finished;
                   SafeExecutor.g_events := [] |} gs i k Hg) as H0.
  pose proof (count_from_bounds ms (SafeExecutor.set_nth i
                {| SafeExecutor.g_ctx_done := false;
                   SafeExecutor.g_fn := SafeExecutor.FnReturns;
                   SafeExecutor.g_stack := EmptyString;
                   SafeExecutor.g_handler := None;
                   SafeExecutor.g_pc := SafeExecutor.Finished;
                   SafeExecutor.g_events := [] |} gs) k) as Hb.
  unfold weight in H0 at 2. cbn in H0. rewrite andb_false_r in H0. lia.
Qed.

Lemma executor_label_length (l : SafeExecutor.label) (e e' : SafeExecutor.t) :
  SafeExecutor.apply_label e l = Some e' ->
  (length (SafeExecutor.goroutines e)
   <= length (SafeExecutor.goroutines e'))%nat.
Proof.
  unfold SafeExecutor.apply_label.
  destruct (SafeExecutor.crashed e); [discriminate |].
  destruct l as [c fn stack | i now | h |].
  - intros H; injection H as <-. cbn. rewrite length_app. lia.
  - intros H. destruct (executor_step_shape _ _ _ _ H) as (g & g' & _ & -> & _).
    rewrite length_set_nth. lia.
  - intros H; injection H as <-. cbn. lia.
  - intros H; injection H as <-. cbn. lia.
Qed.

Lemma wrapper_panics_length (i : nat) (v : value) (e : SafeExecutor.t) :
  length (SafeExecutor.goroutines (wrapper_panics i v e))
  = length (SafeExecutor.goroutines e).
Proof.
  unfold wrapper_panics.
  destruct (nth_error _ _); [| reflexivity]. cbn. apply length_set_nth.
Qed.

Lemma apply_event_length (wg wg' : t) (e : event) :
  apply_event wg e = Some wg' ->
  (length (SafeExecutor.goroutines (se wg))
   <= length (SafeExecutor.goroutines (se wg')))%nat.
Proof.
  unfold apply_event.
  destruct (SafeExecutor.crashed (se wg)); [discriminate |].
  destruct e as [c fn stack | | delta | | l].
  - unfold GoWithContext, Add, sync_Add.
    destruct (done wg); cbn; [intros H; injection H as <-; lia |].
    destruct (_ <? 0); cbn; intros H; injection H as <-; cbn;
      rewrite ?length_app; lia.
  - intros H; injection H as <-. cbn. lia.
  - unfold Add, sync_Add. destruct (done wg); cbn;
      intros H; injection H as <-; cbn; lia.
  - cbn. intros H; injection H as <-; cbn; lia.
  - assert (Hplain : forall l0,
               option_map (fun e0 => with_se e0 wg)
                 (SafeExecutor.apply_label (se wg) l0) = Some wg' ->
               (length (SafeExecutor.goroutines (se wg))
                <= length (SafeExecutor.goroutines (se wg')))%nat).
    { intros l0. destruct (SafeExecutor.apply_label (se wg) l0) eqn:Hl;
        cbn; [| discriminate].
      intros H; injection H as <-. cbn. eapply executor_label_length, Hl. }
    destruct l as [c fn stack | i now | h |]; try apply Hplain.
    unfold step, Done, sync_Add.
    destruct (runs_wrapper i wg); [| apply Hplain].
    destruct (_ <? 0); cbn [se].
    + destruct (SafeExecutor.apply_label _ _) eqn:Hl; cbn; [| discriminate].
      intros H; injection H as <-. cbn.
      apply executor_label_length in Hl.
      rewrite wrapper_panics_length in Hl. exact Hl.
    + destruct (SafeExecutor.apply_label _ _) eqn:Hl; cbn; [| discriminate].
      intros H; injection H as <-. cbn. eapply executor_label_length, Hl.
Qed.

Lemma wg_run_length (evs : list event) :
  forall wg wg',
    run evs wg = Some wg' ->
    (length (SafeExecutor.goroutines (se wg))
     <= length (SafeExecutor.goroutines (se wg')))%nat.
Proof.
  induction evs as [|e evs IH]; intros wg wg' Hrun.
  - injection Hrun as <-. lia.
  - rewrite wg_run_cons in Hrun.
    destruct (apply_event wg e) as [wg1|] eqn:He; [| discriminate].
    apply apply_event_length in He. apply IH in Hrun. lia.
Qed.

Lemma plain_step_counter_ok (i : nat) (now : Z) (wg : t) (e' : SafeExecutor.t) :
  counter_ok wg ->
  runs_wrapper i wg = false ->
  SafeExecutor.step i now (se wg) = Some e' ->
  counter_ok (with_se e' wg).
Proof.
  intros [Hc Hm] Hrw Hstep.
  destruct (executor_step_shape _ _ _ _ Hstep) as (g & g' & Hg & Hgs & Hctx & Hpc).
  unfold counter_ok, outstanding. cbn [se counter members with_se].
  rewrite Hgs, length_set_nth. split; [| exact Hm].
  rewrite (count_from_set_nth _ g g' _ i 0 Hg). cbn [Nat.add].
  rewrite Hc. unfold outstanding.
  assert (Hw : weight (members wg) i g' = weight (members wg) i g).
  { unfold weight, waiting. rewrite Hctx.
    unfold runs_wrapper in Hrw. rewrite Hg in Hrw. unfold is_member in Hrw.
    destruct (existsb (Nat.eqb i) (members wg)); [| reflexivity].
    destruct (SafeExecutor.g_ctx_done g); [reflexivity |].
    cbn in Hrw |- *.
    destruct (SafeExecutor.g_pc g); try discriminate;
      destruct (SafeExecutor.g_pc g'); try reflexivity; congruence. }
  lia.
Qed.

Lemma apply_event_counter_ok (wg wg' : t) (e : event) :
  counter_ok wg ->
  through_go e = true ->
  apply_event wg e = Some wg' ->
  Z.of_nat (length (SafeExecutor.goroutines (se wg'))) < Int32.max_int ->
  counter_ok wg'.
Proof.
  intros Hok Hgo He Hlen.
  pose proof (apply_event_length _ _ _ He) as Hmono.
  destruct Hok as [Hc Hm].
  pose proof (count_from_bounds (members wg) (SafeExecutor.goroutines (se wg))
                0) as Hb.
  fold (outstanding wg) in Hb. rewrite <- Hc in Hb.
  unfold Int32.max_int in Hlen.
  unfold apply_event in He.
  destruct (SafeExecutor.crashed (se wg)) eqn:Hcr; [discriminate |].
  destruct e as [c fn stack | | delta | | l]; try discriminate.
  - (* Go *)
    unfold GoWithContext, Add, sync_Add in He.
    destruct (done wg); cbn in He; [injection He as <-; split; assumption |].
    destruct (Z.ltb_spec (Int32.wrap (counter wg + 1)) 0) as [Hneg | Hpos];
      cbn in He; injection He as <-; cbn [se] in Hlen.
    + rewrite wrap32_id in Hneg by lia. lia.
    + cbn [SafeExecutor.goroutines SafeExecutor.GoWithContext] in Hlen.
      rewrite length_app in Hlen. cbn in Hlen.
      unfold counter_ok, outstanding.
      cbn [se counter members SafeExecutor.goroutines
           SafeExecutor.GoWithContext].
      rewrite wrap32_id by lia. split.
      * rewrite count_from_app. cbn [count_from Nat.add].
        rewrite (count_from_ext _ (members wg)).
        -- rewrite existsb_app. cbn. rewrite Nat.eqb_refl, orb_true_r. cbn.
           unfold outstanding in Hc. unfold waiting. cbn.
           rewrite orb_true_r. lia.
        -- intros j Hj. rewrite existsb_app. cbn.
           destruct (Nat.eqb_spec j (length (SafeExecutor.goroutines (se wg))));
             [lia |]. rewrite !orb_false_r. reflexivity.
      * apply Forall_app. split.
        -- eapply Forall_impl; [| exact Hm]. cbn. intros a Ha.
           rewrite length_app. lia.
        -- constructor; [| constructor]. rewrite length_app. cbn. lia.
  - (* Wait *)
    injection He as <-. split; assumption.
  - (* the executor *)
    destruct l as [c fn stack | i now | h |].
    + unfold SafeExecutor.apply_label in He. rewrite Hcr in He. cbn in He.
      injection He as <-.
      unfold counter_ok, outstanding.
      cbn [se counter members with_se SafeExecutor.goroutines
           SafeExecutor.GoWithContext].
      split.
      * rewrite count_from_app. cbn [count_from Nat.add].
        rewrite (not_member _ _ Hm) by lia. cbn.
        rewrite Hc. unfold outstanding. lia.
      * eapply Forall_impl; [| exact Hm]. cbn. intros a Ha.
        rewrite length_app. lia.
    + unfold step in He.
      destruct (runs_wrapper i wg) eqn:Hrw.
      * unfold runs_wrapper in Hrw.
        destruct (nth_error (SafeExecutor.goroutines (se wg)) i) as [g|] eqn:Hg;
          [| discriminate].
        apply andb_true_iff in Hrw. destruct Hrw as [Hrw Hpc].
        apply andb_true_iff in Hrw. destruct Hrw as [Hmem Hctx].
        apply negb_true_iff in Hctx.
        assert (Hw : weight (members wg) i g = 1).
        { unfold weight, waiting. unfold is_member in Hmem. rewrite Hmem.
          destruct (SafeExecutor.g_pc g); try discriminate.
          rewrite orb_true_r. reflexivity. }
        pose proof (count_from_member (members wg) g _ i 0 Hg) as Hge.
        cbn [Nat.add] in Hge. fold (outstanding wg) in Hge.
        unfold Done, sync_Add in He.
        rewrite wrap32_id in He by lia.
        destruct (Z.ltb_spec (counter wg + -1) 0) as [Hneg | Hpos]; [lia |].
        cbn [se] in He.
        unfold SafeExecutor.apply_label in He. rewrite Hcr in He.
        destruct (SafeExecutor.step i now (se wg)) as [e'|] eqn:Hstep;
          [| discriminate].
        cbn in He. injection He as <-.
        destruct (executor_step_shape _ _ _ _ Hstep)
          as (g0 & g' & Hg0 & Hgs & Hctx' & Hpc').
        assert (g0 = g) by congruence. subst g0.
        unfold counter_ok, outstanding. cbn [se counter members with_se].
        rewrite Hgs, length_set_nth. split; [| exact Hm].
        rewrite (count_from_set_nth _ g g' _ i 0 Hg). cbn [Nat.add].
        assert (Hw' : weight (members wg) i g' = 0).
        { unfold weight, waiting. rewrite Hctx', Hctx.
          destruct (SafeExecutor.g_pc g'); try congruence;
            rewrite andb_false_r; reflexivity. }
        fold (outstanding wg). lia.
      * unfold SafeExecutor.apply_label in He. rewrite Hcr in He.
        destruct (SafeExecutor.step i now (se wg)) as [e'|] eqn:Hstep;
          [| discriminate].
        cbn in He. injection He as <-.
        eapply plain_step_counter_ok; eauto. split; assumption.
    + unfold SafeExecutor.apply_label in He. rewrite Hcr in He. cbn in He.
      injection He as <-. split; assumption.
    + unfold SafeExecutor.apply_label in He. rewrite Hcr in He. cbn in He.
      injection He as <-. split; assumption.
Qed.

Lemma run_counter_ok (evs : list event) :
  forall wg wg',
    counter_ok wg ->
    forallb through_go evs = true ->
    run evs wg = Some wg' ->
    Z.of_nat (length (SafeExecutor.goroutines (se wg'))) < Int32.max_int ->
    counter_ok wg'.
Proof.
  induction evs as [|e evs IH]; intros wg wg' Hok Hgo Hrun Hlen.
  - injection Hrun as <-. exact Hok.
  - rewrite wg_run_cons in Hrun.
    destruct (apply_event wg e) as [wg1|] eqn:He; [| discriminate].
    cbn in Hgo. apply andb_true_iff in Hgo. destruct Hgo as [Hgo1 Hgo2].
    pose proof (wg_run_length _ _ _ Hrun) as Hmono.
    eapply IH; [| exact Hgo2 | exact Hrun | exact Hlen].
    eapply apply_event_counter_ok; eauto. lia.
Qed.

(** X23: as long as the counter is only moved through [Go] and
    [GoWithContext] (and fewer than 2^31 - 1 goroutines were started),
    the counter of a wait group is the number of its goroutines that
    have not run their function yet or whose context was done when they
    looked: such a goroutine returns without calling the function that
    holds the deferred [wg.Done()]. So [Wait] returns exactly when every
    goroutine of the group has run its function, and never once one of
    them was started with a context that is done. *)
Theorem wait_group_counts_waiting (e : SafeExecutor.t) (evs : list event)
    (wg : t) :
  run evs (NewWaitGroup e) = Some wg ->
  forallb through_go evs = true ->
  Z.of_nat (length (SafeExecutor.goroutines (se wg))) < Int32.max_int ->
  counter wg = outstanding wg
  /\ (Wait_returns wg = true
      <-> forall i g,
            is_member i wg = true ->
            nth_error (SafeExecutor.goroutines (se wg)) i = Some g ->
            SafeExecutor.g_ctx_done g = false
            /\ SafeExecutor.g_pc g <> SafeExecutor.Spawned).
Proof.
  intros Hrun Hgo Hlen.
  assert (Hok0 : counter_ok (NewWaitGroup e)).
  { split; [| constructor]. unfold outstanding. cbn.
    generalize 0%nat. induction (SafeExecutor.goroutines e); intros k; cbn;
      auto. }
  destruct (run_counter_ok _ _ _ Hok0 Hgo Hrun Hlen) as [Hc _].
  split; [exact Hc |].
  unfold Wait_returns. rewrite Hc. unfold outstanding.
  rewrite Z.eqb_eq, count_from_zero. cbn [Nat.add].
  unfold weight, is_member, waiting.
  split; intros H i g.
  - intros Hm Hg. specialize (H i g Hg). rewrite Hm in H. cbn in H.
    destruct (SafeExecutor.g_ctx_done g); [discriminate |].
    split; [reflexivity |]. intros Hpc. rewrite Hpc in H. discriminate.
  - intros Hg. destruct (existsb (Nat.eqb i) (members wg)) eqn:Hm;
      [| reflexivity].
    destruct (H i g Hm Hg) as [-> Hpc]. cbn.
    destruct (SafeExecutor.g_pc g); congruence.
Qed.

Lemma wait_group_counts_waiting_witness :
  exists wg,
    run [EvGo true SafeExecutor.FnReturns example_stack;
         EvGo false SafeExecutor.FnReturns example_stack;
         EvWait;
         EvExecutor (SafeExecutor.LStep 0 0);
         EvExecutor (SafeExecutor.LStep 0 0);
         EvExecutor (SafeExecutor.LStep 0 0);
         EvExecutor (SafeExecutor.LStep 1 0);
         EvExecutor (SafeExecutor.LStep 1 0);
         EvExecutor (SafeExecutor.LStep 1 0)]
      (NewWaitGroup SafeExecutor.NewSafeExecutor) = Some wg
    /\ forallb (fun g => match SafeExecutor.g_pc g with
                         | SafeExecutor.Finished => true
                         | _ => false
                         end) (SafeExecutor.goroutines (se wg)) = true
    /\ counter wg = outstanding wg
    /\ counter wg = 1
    /\ Wait_returns wg = false.
Proof.
  eexists. split; [vm_compute; reflexivity |].
  split; [vm_compute; reflexivity |].
  split; [| split; vm_compute; reflexivity].
  refine (proj1 (wait_group_counts_waiting SafeExecutor.NewSafeExecutor
                   [EvGo true SafeExecutor.FnReturns example_stack;
                    EvGo false SafeExecutor.FnReturns example_stack;
                    EvWait;
                    EvExecutor (SafeExecutor.LStep 0 0);
                    EvExecutor (SafeExecutor.LStep 0 0);
                    EvExecutor (SafeExecutor.LStep 0 0);
                    EvExecutor (SafeExecutor.LStep 1 0);
                    EvExecutor (SafeExecutor.LStep 1 0);
                    EvExecutor (SafeExecutor.LStep 1 0)] _ _ _ _)).
  - vm_compute. reflexivity.
  - reflexivity.
  - vm_compute. reflexivity.
Defined.

End WaitGroupFacts.

(** ** Batch *)

Section BatchFacts.

Import Batch.









Lemma wg_go_returns (fn : SafeExecutor.behaviour) (stack : string)
    (w : WaitGroup.t) :
  WaitGroup.done w = false ->
  0 <= WaitGroup.counter w ->
  WaitGroup.counter w + 1 < 2 ^ 31 ->
  exists w',
    WaitGroup.Go fn stack w = (Returns tt, w')
    /\ WaitGroup.done w' = false
    /\ WaitGroup.counter w' = WaitGroup.counter w + 1.
Proof.
  intros Hd Hpos Hlt.
  unfold WaitGroup.Go, WaitGroup.GoWithContext, WaitGroup.Add,
    WaitGroup.sync_Add.
  rewrite Hd, wrap32_id by lia.
  destruct (Z.ltb_spec (WaitGroup.counter w + 1) 0); [lia |].
  eexists. split; [reflexivity |]. split; reflexivity.
Qed.

(** X25: the tasks added to a batch one after the other, with no task
    finishing in between, all get the same [Index], the number of
    results at that time (for a fresh batch, 0): the index does not tell
    the tasks, or their results, apart. *)
Theorem batch_adds_share_index
    (fns : list (outcome (value * error) * string)) (b : t) :
  WaitGroup.done (wg b) = false ->
  0 <= WaitGroup.counter (wg b) ->
  WaitGroup.counter (wg b) + Z.of_nat (length fns) < 2 ^ 31 ->
  let b' := add_all fns b in
  results b' = results b
  /\ exists new,
       tasks b' = tasks b ++ new
       /\ length new = length fns
       /\ map t_fn new = map fst fns
       /\ Forall (fun k => t_index k = Z.of_nat (length (results b))) new.
Proof.
  revert b. induction fns as [|[fn stack] fns IH]; intros b Hd Hpos Hlt.
  - split; [reflexivity |]. exists []. cbn. rewrite app_nil_r.
    repeat split; constructor.
  - cbn zeta. cbn [add_all fold_left fst snd].
    fold (add_all fns (snd (Add fn stack b))).
    cbn [length] in Hlt.
    destruct (wg_go_returns (task_behaviour fn) stack (wg b) Hd Hpos)
      as (w' & Hgo & Hd' & Hc'); [lia |].
    unfold Add. rewrite Hgo. cbn [snd].
    match goal with
    | |- context [add_all fns ?b1] =>
        destruct (IH b1) as (Hres & new & Htasks & Hlen & Hfn & Hall);
          cbn [wg results tasks]; rewrite ?Hd', ?Hc'; try lia; auto
    end.
    cbn [results tasks] in Hres, Htasks, Hall.
    split; [exact Hres |]. eexists. rewrite Htasks, <- app_assoc.
    split; [reflexivity |]. split; [cbn; rewrite Hlen; reflexivity |].
    split; [cbn; rewrite Hfn; reflexivity |].
    constructor; [reflexivity | exact Hall].
Qed.

Lemma batch_adds_share_index_witness :
  let b := add_all [(Returns (example_value, ErrNil), example_stack);
                    (Returns (VNil, ErrNew "bad"), example_stack)]
             (NewBatch SafeExecutor.NewSafeExecutor) in
  (exists new,
      tasks b = [] ++ new
      /\ length new = 2%nat
      /\ map t_fn new = [Returns (example_value, ErrNil);
                         Returns (VNil, ErrNew "bad")]
      /\ Forall (fun k => t_index k = 0) new)
  /\ option_map results (run [EvStep 1 0; EvStep 0 0] b)
     = Some [{| Index := 0; Value := VNil; Error := ErrNew "bad" |};
             {| Index := 0; Value := example_value; Error := ErrNil |}].
Proof.
  split; [| vm_compute; reflexivity].
  refine (proj2 (batch_adds_share_index
                   [(Returns (example_value, ErrNil), example_stack);
                    (Returns (VNil, ErrNew "bad"), example_stack)]
                   (NewBatch SafeExecutor.NewSafeExecutor) _ _ _)).
  - reflexivity.
  - cbn. lia.
  - cbn. lia.
Defined.

End BatchFacts.

(** ** The average job time *)

Section PoolAverageFacts.

Import PoolAverage.

Lemma record_job_counts (err : error) (jobTime : Z) (st : Pool.PoolStats) :
  0 <= Pool.CompletedJobs st -> 0 <= Pool.FailedJobs st ->
  Pool.CompletedJobs st + Pool.FailedJobs st + 1 <= Int64.max_int ->
  0 <= Pool.CompletedJobs (Pool.record_job err jobTime st)
  /\ 0 <= Pool.FailedJobs (Pool.record_job err jobTime st)
  /\ Pool.CompletedJobs (Pool.record_job err jobTime st)
     + Pool.FailedJobs (Pool.record_job err jobTime st)
     = Pool.CompletedJobs st + Pool.FailedJobs st + 1.
Proof.
  intros Hc Hf Hn. unfold Pool.record_job. cbn.
  assert (Hr : forall x, 0 <= x <= Int64.max_int -> Int64.in_range x).
  { unfold Int64.in_range, Int64.min_int, Int64.max_int. lia. }
  destruct (is_nil err).
  - rewrite (add_id (Pool.CompletedJobs st) 1) by (apply Hr; lia). lia.
  - rewrite (add_id (Pool.FailedJobs st) 1) by (apply Hr; lia). lia.
Qed.

Lemma record_job_below (T n : Z) (err : error) (jobTime : Z)
    (st : Pool.PoolStats) :
  average_below T n st ->
  0 <= jobTime <= T ->
  T * (n + 2) <= Int64.max_int ->
  average_below T (n + 1) (Pool.record_job err jobTime st).
Proof.
  intros (Hc & Hf & Hn & Havg) Hjob Hmax.
  assert (HT : 0 < T) by lia.
  assert (Hn2 : n + 2 <= Int64.max_int) by nia.
  assert (Hr : forall x, 0 <= x <= Int64.max_int -> Int64.in_range x).
  { unfold Int64.in_range, Int64.min_int, Int64.max_int. lia. }
  assert (Hprod : 0 <= Pool.AverageJobTime st * (n + 1) <= T * (n + 1) - (n + 1))
    by nia.
  destruct (record_job_counts err jobTime st Hc Hf ltac:(lia)) as (Hc' & Hf' & Hn').
  unfold average_below. split; [exact Hc' |]. split; [exact Hf' |].
  split; [lia |].
  rewrite record_job_average; rewrite ?Hn; try assumption; try lia;
    try (apply Hr; nia).
  split.
  - apply Z.quot_pos; nia.
  - apply Z.quot_lt_upper_bound; nia.
Qed.

Lemma finish_all_below (T : Z) (jobs : list (error * Z)) :
  forall n st,
    average_below T n st ->
    Forall (fun j => 0 <= snd j <= T) jobs ->
    T * (n + Z.of_nat (length jobs) + 1) <= Int64.max_int ->
    average_below T (n + Z.of_nat (length jobs)) (finish_all jobs st).
Proof.
  induction jobs as [|j jobs IH]; intros n st Hinv Hall Hmax.
  - cbn. rewrite Z.add_0_r. exact Hinv.
  - inversion Hall as [|? ? Hj Hrest]; subst.
    cbn [finish_all fold_left]. fold (finish_all jobs (Pool.record_job (fst j) (snd j) st)).
    cbn [length] in *.
    assert (HT : 0 <= T) by lia.
    replace (n + Z.of_nat (S (length jobs)))
      with (n + 1 + Z.of_nat (length jobs)) in * by lia.
    apply IH; [| exact Hrest | lia].
    apply record_job_below; [exact Hinv | exact Hj | nia].
Qed.

(** X26: the average job time a pool reports stays strictly below the
    longest job: when every job takes between 0 and [T], the average is
    below [T] after any number of jobs, even if every one of them took
    exactly [T], because the update divides by one more than the number
    of jobs it averages. *)
Theorem average_job_time_below_longest (T : Z) (jobs : list (error * Z)) :
  0 < T ->
  Forall (fun j => 0 <= snd j <= T) jobs ->
  T * (Z.of_nat (length jobs) + 1) <= Int64.max_int ->
  let st := finish_all jobs Pool.zero_stats in
  0 <= Pool.AverageJobTime st < T
  /\ Pool.CompletedJobs st + Pool.FailedJobs st = Z.of_nat (length jobs).
Proof.
  intros HT Hall Hmax st.
  assert (H0 : average_below T 0 Pool.zero_stats).
  { unfold average_below. cbn. lia. }
  destruct (finish_all_below T jobs 0 _ H0 Hall ltac:(lia))
    as (_ & _ & Hn & Havg).
  fold st in Hn, Havg. split; [exact Havg | lia].
Qed.

Lemma average_job_time_below_longest_witness :
  let st := PoolAverage.finish_all
              [(ErrNil, 100 * Millisecond); (ErrNil, 100 * Millisecond);
               (ErrNew "bad", 100 * Millisecond)] Pool.zero_stats in
  0 <= Pool.AverageJobTime st < 100 * Millisecond
  /\ Pool.CompletedJobs st + Pool.FailedJobs st = 3.
Proof.
  apply (average_job_time_below_longest (100 * Millisecond)
           [(ErrNil, 100 * Millisecond); (ErrNil, 100 * Millisecond);
            (ErrNew "bad", 100 * Millisecond)]).
  - reflexivity.
  - repeat constructor; cbn; lia.
  - unfold Int64.max_int. cbn. lia.
Defined.

End PoolAverageFacts.

(** ** The two counters of finished goroutines *)

Section ExecutorCountsFacts.

Import SafeExecutor ExecutorSpec ExecutorCounts.

Lemma panic_weight_bounds (g : goroutine) : 0 <= panic_weight g <= 1.
Proof.
  unfold panic_weight.
  destruct (g_pc g); try lia; destruct (value_is_nil (recovered g)); lia.
Qed.

Lemma completed_weight_bounds (g : goroutine) : 0 <= completed_weight g <= 1.
Proof.
  unfold completed_weight.
  destruct (g_pc g); try lia; destruct (value_is_nil (recovered g)); lia.
Qed.

Lemma put_counts_ok (i : nat) (g g' : goroutine) (st' : Stats)
    (c : option value) (se : t) :
  counts_ok se ->
  nth_error (goroutines se) i = Some g ->
  Forall coherent (goroutines (put i g' st' c se)) ->
  PanicCount st' = PanicCount (stats se) - panic_weight g + panic_weight g' ->
  CompletedCount st'
  = CompletedCount (stats se) - completed_weight g + completed_weight g' ->
  counts_ok (put i g' st' c se).
Proof.
  intros (Hcoh & Hp & Hc) Hg Hcoh' Hp' Hc'. split; [exact Hcoh' |].
  cbn [stats goroutines put].
  rewrite !(sumZ_set_nth _ i g g') by exact Hg. lia.
Qed.

Lemma recovered_advance (p : pc) (evs : list event) (g : goroutine) :
  recovered (advance p evs g) = recovered g.
Proof. reflexivity. Qed.

Lemma step_counts_ok (i : nat) (now : Z) (se se' : t) :
  counts_ok se ->
  Z.of_nat (length (goroutines se)) <= Int64.max_int ->
  step i now se = Some se' ->
  counts_ok se'.
Proof.
  intros Hok Hlen Hstep.
  pose proof Hok as (Hcoh & Hp & Hc).
  pose proof (step_coherent i now se se' Hcoh Hstep) as Hcoh'.
  unfold step in Hstep.
  destruct (nth_error (goroutines se) i) as [g|] eqn:Hg; [| discriminate].
  assert (Hcg : coherent g).
  { rewrite Forall_forall in Hcoh. apply Hcoh. eapply nth_error_In, Hg. }
  pose proof (sumZ_member panic_weight i g _ panic_weight_bounds Hg) as Hmp.
  pose proof (sumZ_member completed_weight i g _ completed_weight_bounds Hg)
    as Hmc.
  assert (Hr : forall x, 0 <= x <= Z.of_nat (length (goroutines se)) ->
                         Int64.in_range x).
  { unfold Int64.in_range, Int64.min_int, Int64.max_int in *. lia. }
  destruct (g_pc g) eqn:Hpc.
  - injection Hstep as <-. apply (put_counts_ok i g); auto;
      unfold panic_weight, completed_weight; cbn; rewrite Hpc; lia.
  - injection Hstep as <-. apply (put_counts_ok i g); auto;
      unfold panic_weight, completed_weight; cbn; rewrite Hpc; lia.
  - assert (Hwp : panic_weight g = 0)
      by (unfold panic_weight; rewrite Hpc; reflexivity).
    assert (Hwc : completed_weight g = 0)
      by (unfold completed_weight; rewrite Hpc; reflexivity).
    rewrite Hwp in Hmp. rewrite Hwc in Hmc.
    destruct (value_is_nil (recovered g)) eqn:Hnil; injection Hstep as <-;
      apply (put_counts_ok i g); auto;
      unfold panic_weight, completed_weight; cbn [g_pc advance];
      rewrite ?recovered_advance, ?Hpc, ?Hnil; cbn;
      rewrite ?add_id by (apply Hr; lia); lia.
  - destruct Hcg as [_ Hcounted]. specialize (Hcounted Hpc).
    injection Hstep as <-. apply (put_counts_ok i g); auto;
      unfold panic_weight, completed_weight; cbn [g_pc advance];
      rewrite ?recovered_advance, ?Hpc, ?Hcounted; cbn; lia.
  - discriminate.
Qed.

Lemma apply_label_counts_ok (l : label) (se se' : t) :
  counts_ok se ->
  no_reset l = true ->
  Z.of_nat (length (goroutines se)) <= Int64.max_int ->
  apply_label se l = Some se' ->
  counts_ok se'.
Proof.
  intros Hok Hnr Hlen Hl.
  pose proof Hok as (Hcoh & Hp & Hc).
  pose proof (apply_label_coherent l se se' Hcoh Hl) as Hcoh'.
  unfold apply_label in Hl. destruct (crashed se); [discriminate |].
  destruct l as [c fn stack | i now | h |]; try discriminate.
  - injection Hl as <-. split; [exact Hcoh' |].
    cbn [stats goroutines GoWithContext spawned PanicCount CompletedCount].
    rewrite !sumZ_app.
    change (sumZ panic_weight [_]) with 0.
    change (sumZ completed_weight [_]) with 0. lia.
  - eapply step_counts_ok; eauto.
  - injection Hl as <-. exact Hok.
Qed.

Lemma run_counts_ok (ls : list label) :
  forall se se',
    counts_ok se ->
    forallb no_reset ls = true ->
    run ls se = Some se' ->
    Z.of_nat (length (goroutines se')) <= Int64.max_int ->
    counts_ok se'.
Proof.
  induction ls as [|l ls IH]; intros se se' Hok Hnr Hrun Hlen.
  - injection Hrun as <-. exact Hok.
  - rewrite run_cons in Hrun.
    destruct (apply_label se l) as [se1|] eqn:Hl; [| discriminate].
    cbn in Hnr. apply andb_true_iff in Hnr. destruct Hnr as [Hnr1 Hnr2].
    pose proof (run_length _ _ _ Hrun) as Hmono.
    pose proof (apply_label_length _ _ _ Hl) as Hmono1.
    eapply IH; [| exact Hnr2 | exact Hrun | exact Hlen].
    eapply apply_label_counts_ok; eauto. lia.
Qed.

Lemma nil_recovered (g : goroutine) :
  value_is_nil (recovered g) = negb (fn_panics g).
Proof.
  unfold fn_panics, recovered.
  destruct (g_ctx_done g); [reflexivity |].
  destruct (g_fn g) as [|[]]; reflexivity.
Qed.

Lemma idle_counts (gs : list goroutine) :
  forallb is_finished gs = true ->
  sumZ panic_weight gs = count fn_panics gs
  /\ sumZ completed_weight gs = count (fun g => negb (fn_panics g)) gs.
Proof.
  unfold sumZ, count.
  induction gs as [|g gs IH]; cbn [forallb fold_right filter];
    [auto |].
  intros H. apply andb_true_iff in H as [Hg Hl].
  destruct (IH Hl) as [Hp Hc]. rewrite Hp, Hc.
  unfold is_finished in Hg. unfold panic_weight, completed_weight.
  destruct (g_pc g); try discriminate.
  rewrite nil_recovered.
  destruct (fn_panics g); cbn [negb length]; rewrite ?Nat2Z.inj_succ; lia.
Qed.

(** X27: as long as the statistics are not reset (and fewer than 2^63
    goroutines exist), [PanicCount] is exactly the number of goroutines
    that have recovered a panic and counted it, and [CompletedCount] the
    number of goroutines that have finished without one. Once every
    goroutine has finished, [PanicCount] is the number of goroutines
    whose function panicked, and [CompletedCount] the number of all
    others, those skipped for a context that was done included. *)
Theorem executor_counts_panics (ls : list label) (se : t) :
  run ls NewSafeExecutor = Some se ->
  forallb no_reset ls = true ->
  Z.of_nat (length (goroutines se)) <= Int64.max_int ->
  let st := GetStats se in
  PanicCount st = sumZ panic_weight (goroutines se)
  /\ CompletedCount st = sumZ completed_weight (goroutines se)
  /\ (idle se = true ->
      PanicCount st = count fn_panics (goroutines se)
      /\ CompletedCount st
         = count (fun g => negb (fn_panics g)) (goroutines se)).
Proof.
  intros Hrun Hnr Hlen st. subst st. unfold GetStats.
  assert (H0 : counts_ok NewSafeExecutor).
  { split; [constructor | split; reflexivity]. }
  destruct (run_counts_ok ls _ _ H0 Hnr Hrun Hlen) as (_ & Hp & Hc).
  split; [exact Hp |]. split; [exact Hc |].
  intros Hidle. destruct (idle_counts _ Hidle) as [Hp' Hc'].
  rewrite Hp, Hc. split; assumption.
Qed.

Lemma executor_counts_panics_witness :
  exists se,
    run [LGo false (FnPanics (VString "boom")) example_stack;
         LGo true (FnPanics (VString "boom")) example_stack;
         LGo false FnReturns example_stack;
         LStep 0 0; LStep 0 0; LStep 0 0; LStep 0 0;
         LStep 1 0; LStep 1 0; LStep 1 0;
         LStep 2 0; LStep 2 0; LStep 2 0] NewSafeExecutor = Some se
    /\ idle se = true
    /\ PanicCount (GetStats se) = count fn_panics (goroutines se)
    /\ PanicCount (GetStats se) = 1
    /\ CompletedCount (GetStats se) = 2.
Proof.
  eexists. split; [vm_compute; reflexivity |].
  split; [vm_compute; reflexivity |].
  split; [| split; vm_compute; reflexivity].
  refine (proj1 (proj2 (proj2 (executor_counts_panics
                   [LGo false (FnPanics (VString "boom")) example_stack;
                    LGo true (FnPanics (VString "boom")) example_stack;
                    LGo false FnReturns example_stack;
                    LStep 0 0; LStep 0 0; LStep 0 0; LStep 0 0;
                    LStep 1 0; LStep 1 0; LStep 1 0;
                    LStep 2 0; LStep 2 0; LStep 2 0] _ _ _ _)) _)).
  - vm_compute. reflexivity.
  - reflexivity.
  - unfold Int64.max_int. cbn. lia.
  - vm_compute. reflexivity.
Defined.

End ExecutorCountsFacts.
